(** * n8n-nodes-aptos: BCS codec and unit converter

    A shallow embedding of the pure functions of
    [nodes/Aptos/utils/bcsUtils.ts], [accountUtils.ts], [moveUtils.ts] and
    [unitConverter.ts], followed by the properties established about them.

    Conventions of the embedding.
    - A [bigint] is a [Z]; the BigInt operators [>>], [<<], [&], [|], [*]
      and [/] are [Z.shiftr], [Z.shiftl], [Z.land], [Z.lor], [Z.mul] and
      [Z.quot].
    - A [number] is an IEEE-754 datum ([spec_float]), read through its exact
      value [(-1)^s * m * 2^e]; only operations that depend on that value
      alone are used on it (truncation, integrality, sign test, NaN test).
      Array indices, lengths, offsets and decimal counts are integers and are
      kept as [Z].
    - The 32-bit operators on numbers ([&], [|], [>>], [<<]) are written on
      the integer value of their operands, with the ToInt32 wrap-around
      written out ([wrap32]).
    - A [Uint8Array] is a [list Z] of values in [0, 256); every store goes
      through [ToUint8].
    - A string is a [string] of 8-bit characters (the characters below
      U+0100 of a JavaScript string).
    - A function that can throw returns a [js_result]; a loop that need not
      terminate takes fuel and returns [None] while it is still running. *)

From Stdlib Require Import ZArith List String Ascii Bool Lia.
From Stdlib Require Import Floats.SpecFloat.
From Stdlib Require Import DecimalString DecimalZ DecimalPos.
From coqutil Require Import Z.bitblast.
Import ListNotations.

Local Open Scope Z_scope.

(** [length] is the length of a list; that of a string is [String.length]. *)
Local Abbreviation length := List.length (only parsing).

(* ================================================================== *)
(** * Part I.  Definitions                                             *)
(* ================================================================== *)

(* ------------------------------------------------------------------ *)
(** ** JavaScript values and primitives                                *)
(* ------------------------------------------------------------------ *)

(** The error classes thrown by the operations modelled here. [Error] is the
    plain [new Error(...)] of the sources. *)
Inductive js_error : Type :=
| RangeError
| TypeError
| SyntaxError
| Error.

Inductive js_result (A : Type) : Type :=
| Ok (a : A)
| Throw (e : js_error).

Arguments Ok {A} a.
Arguments Throw {A} e.

Definition bind {A B : Type} (r : js_result A) (k : A -> js_result B) : js_result B :=
  match r with
  | Ok a => k a
  | Throw e => Throw e
  end.

Notation "x <- r ;; k" := (bind r (fun x => k))
  (at level 61, r at next level, right associativity).

Definition number : Type := spec_float.

(** The number that holds the integer [z] exactly. *)
Definition Z2number (z : Z) : number :=
  match z with
  | Z0 => S754_zero false
  | Zpos p => S754_finite false p 0
  | Zneg p => S754_finite true p 0
  end.

Definition NaN : number := S754_nan.

(** [truncate x] is the integer part of [x] (rounded toward zero), and [0]
    for NaN and the infinities: the first step of ToInt32. *)
Definition truncate (x : number) : Z :=
  match x with
  | S754_finite s m e => cond_Zopp s (Z.shiftl (Zpos m) e)
  | _ => 0
  end.

(** [number_int x] is [Some n] when [x] is finite and holds the integer [n]
    (IsIntegralNumber), [None] otherwise. *)
Definition number_int (x : number) : option Z :=
  match x with
  | S754_zero _ => Some 0
  | S754_finite s m e =>
      if (0 <=? e) || (Zpos m mod 2 ^ (- e) =? 0)
      then Some (cond_Zopp s (Z.shiftl (Zpos m) e))
      else None
  | _ => None
  end.

Definition isNaN (x : number) : bool :=
  match x with
  | S754_nan => true
  | _ => false
  end.

(** [x >= 0] on numbers. *)
Definition number_ge0 (x : number) : bool := SFleb (S754_zero false) x.

(** ToInt32 on an integer value: reduction modulo [2^32] into
    [-2^31, 2^31). *)
Definition wrap32 (z : Z) : Z := (z + 2 ^ 31) mod 2 ^ 32 - 2 ^ 31.

Definition ToInt32 (x : number) : Z := wrap32 (truncate x).

(** The 32-bit operators, on the integer values of their operands. *)
Definition js_and (a b : Z) : Z := Z.land (wrap32 a) (wrap32 b).
Definition js_or (a b : Z) : Z := Z.lor (wrap32 a) (wrap32 b).
Definition js_sar (a n : Z) : Z := Z.shiftr (wrap32 a) (n mod 32).
Definition js_shl (a n : Z) : Z := wrap32 (Z.shiftl (wrap32 a) (n mod 32)).

Definition Uint8Array : Type := list Z.

Definition ToUint8 (z : Z) : Z := z mod 256.

(** [new Uint8Array(n)]: [n] zero bytes. *)
Definition new_Uint8Array (n : nat) : Uint8Array := repeat 0 n.

(** [new Uint8Array(values)]. *)
Definition Uint8Array_from (values : list Z) : Uint8Array := map ToUint8 values.

(** [a[i] = v] on a typed array: a store outside the array is ignored. *)
Fixpoint array_set_nat (a : Uint8Array) (i : nat) (v : Z) : Uint8Array :=
  match a, i with
  | [], _ => []
  | _ :: t, O => ToUint8 v :: t
  | h :: t, S j => h :: array_set_nat t j v
  end.

Definition array_set (a : Uint8Array) (i : Z) (v : Z) : Uint8Array :=
  if i <? 0 then a else array_set_nat a (Z.to_nat i) v.

(** [a[i]]: [None] is [undefined]. *)
Definition array_get {A : Type} (a : list A) (i : Z) : option A :=
  if i <? 0 then None else nth_error a (Z.to_nat i).

Definition array_length {A : Type} (a : list A) : Z := Z.of_nat (List.length a).

(** [for (let i = start; i < start + n; i++) body], for a loop whose trip
    count [n] is known on entry. *)
Fixpoint for_range {S : Type} (n : nat) (i : Z) (body : Z -> S -> S) (s : S) : S :=
  match n with
  | O => s
  | S n' => for_range n' (i + 1) body (body i s)
  end.

(* ------------------------------------------------------------------ *)
(** ** Strings                                                         *)
(* ------------------------------------------------------------------ *)

Definition startsWith (s p : string) : bool := String.prefix p s.

(** [s.slice(n)] for [0 <= n]. *)
Fixpoint slice_from (n : nat) (s : string) : string :=
  match n, s with
  | O, _ => s
  | S n', String _ r => slice_from n' r
  | S _, EmptyString => EmptyString
  end.

(** [s.slice(i, j)] for [0 <= i <= j]. *)
Definition slice (s : string) (i j : nat) : string :=
  String.substring i (j - i) s.

Fixpoint string_repeat (c : ascii) (n : nat) : string :=
  match n with
  | O => EmptyString
  | S n' => String c (string_repeat c n')
  end.

(** [s.padStart(n, c)] for a one-character filler. *)
Definition padStart (s : string) (n : nat) (c : ascii) : string :=
  (string_repeat c (n - String.length s) ++ s)%string.

(** The white space [trim], [parseInt] and [BigInt] skip, among the
    characters below U+0100: TAB, LF, VT, FF, CR, SP and NBSP. *)
Definition is_whitespace (c : ascii) : bool :=
  let n := nat_of_ascii c in
  ((9 <=? n) && (n <=? 13))%nat || (n =? 32)%nat || (n =? 160)%nat.

Fixpoint trimStart (s : string) : string :=
  match s with
  | String c r => if is_whitespace c then trimStart r else s
  | EmptyString => EmptyString
  end.

Fixpoint trimEnd (s : string) : string :=
  match s with
  | String c r =>
      match trimEnd r with
      | EmptyString => if is_whitespace c then EmptyString else String c EmptyString
      | r' => String c r'
      end
  | EmptyString => EmptyString
  end.

Definition trim (s : string) : string := trimEnd (trimStart s).

(** The value of a digit character in the given radix. *)
Definition digit_value (radix : Z) (c : ascii) : option Z :=
  let n := Z.of_nat (nat_of_ascii c) in
  let v :=
    if (48 <=? n) && (n <=? 57) then Some (n - 48)
    else if (97 <=? n) && (n <=? 122) then Some (n - 87)
    else if (65 <=? n) && (n <=? 90) then Some (n - 55)
    else None in
  match v with
  | Some d => if d <? radix then Some d else None
  | None => None
  end.

(** All of [s] read as digits in [radix], most significant first. *)
Fixpoint parse_digits (radix : Z) (s : string) (acc : Z) : option Z :=
  match s with
  | EmptyString => Some acc
  | String c r =>
      match digit_value radix c with
      | Some d => parse_digits radix r (acc * radix + d)
      | None => None
      end
  end.

Definition parse_all_digits (radix : Z) (s : string) : option Z :=
  match s with
  | EmptyString => None
  | _ => parse_digits radix s 0
  end.

(** StringToBigInt: surrounding white space is dropped; the empty string is
    [0n]; a decimal literal may carry a sign; [0x], [0o] and [0b] literals may
    not. [None] is the SyntaxError of [BigInt(string)]. *)
Definition StringToBigInt (s : string) : option Z :=
  let t := trim s in
  if String.eqb t EmptyString then Some 0
  else if startsWith t "0x" || startsWith t "0X" then parse_all_digits 16 (slice_from 2 t)
  else if startsWith t "0o" || startsWith t "0O" then parse_all_digits 8 (slice_from 2 t)
  else if startsWith t "0b" || startsWith t "0B" then parse_all_digits 2 (slice_from 2 t)
  else if startsWith t "+" then parse_all_digits 10 (slice_from 1 t)
  else if startsWith t "-" then option_map Z.opp (parse_all_digits 10 (slice_from 1 t))
  else parse_all_digits 10 t.

(** NumberToBigInt: a RangeError unless the number is integral. *)
Definition NumberToBigInt (x : number) : js_result Z :=
  match number_int x with
  | Some n => Ok n
  | None => Throw RangeError
  end.

(** An argument of type [bigint | number | string]. *)
Inductive amount : Type :=
| ANumber (x : number)
| AString (s : string)
| ABigInt (z : Z).

(** [BigInt(value)]. *)
Definition BigInt (value : amount) : js_result Z :=
  match value with
  | ABigInt z => Ok z
  | ANumber x => NumberToBigInt x
  | AString s =>
      match StringToBigInt s with
      | Some z => Ok z
      | None => Throw SyntaxError
      end
  end.

(** The digits at the front of [s]. *)
Fixpoint digits_prefix (radix : Z) (s : string) : string :=
  match s with
  | String c r =>
      match digit_value radix c with
      | Some _ => String c (digits_prefix radix r)
      | None => EmptyString
      end
  | EmptyString => EmptyString
  end.

(** [parseInt(s, 16)]: leading white space and a sign are accepted, then an
    optional [0x], then the longest run of hexadecimal digits; [None] is NaN
    (no digit at all). *)
Definition parseInt16 (s : string) : option Z :=
  let s1 := trimStart s in
  let neg := startsWith s1 "-" in
  let s2 := if neg || startsWith s1 "+" then slice_from 1 s1 else s1 in
  let s3 := if startsWith s2 "0x" || startsWith s2 "0X" then slice_from 2 s2 else s2 in
  match parse_all_digits 16 (digits_prefix 16 s3) with
  | Some v => Some (if neg then - v else v)
  | None => None
  end.

(** The integer stored in a typed array for the number [parseInt] returned:
    NaN is stored as [0]. *)
Definition stored_number (v : option Z) : Z :=
  match v with
  | Some z => z
  | None => 0
  end.

(* ------------------------------------------------------------------ *)
(** ** accountUtils.ts                                                 *)
(* ------------------------------------------------------------------ *)

(** The loop of [hexToBytes]; [i] advances by two, so [fuel] equal to the
    length of [cleanHex] is never exhausted before the loop exits. *)
Fixpoint hexToBytes_loop (fuel : nat) (cleanHex : string) (i : nat)
    (bytes : Uint8Array) : Uint8Array :=
  match fuel with
  | O => bytes
  | S fuel' =>
      if (i <? String.length cleanHex)%nat
      then hexToBytes_loop fuel' cleanHex (i + 2)
             (array_set bytes (Z.of_nat i / 2)
                (stored_number (parseInt16 (slice cleanHex i (i + 2)))))
      else bytes
  end.

(** [new Uint8Array(cleanHex.length / 2)] truncates a fractional length. *)
Definition hexToBytes (hex : string) : Uint8Array :=
  let cleanHex := if startsWith hex "0x" then slice_from 2 hex else hex in
  let bytes := new_Uint8Array (String.length cleanHex / 2) in
  hexToBytes_loop (String.length cleanHex) cleanHex 0 bytes.

(* ------------------------------------------------------------------ *)
(** ** bcsUtils.ts: fixed-width integers                               *)
(* ------------------------------------------------------------------ *)

Definition encodeU8 (value : number) : js_result Uint8Array :=
  Ok (Uint8Array_from [js_and (truncate value) 0xff]).

Definition encodeU16 (value : number) : js_result Uint8Array :=
  let bytes := new_Uint8Array 2 in
  let bytes := array_set bytes 0 (js_and (truncate value) 0xff) in
  let bytes := array_set bytes 1 (js_and (js_sar (truncate value) 8) 0xff) in
  Ok bytes.

Definition encodeU32 (value : number) : js_result Uint8Array :=
  let bytes := new_Uint8Array 4 in
  let bytes := array_set bytes 0 (js_and (truncate value) 0xff) in
  let bytes := array_set bytes 1 (js_and (js_sar (truncate value) 8) 0xff) in
  let bytes := array_set bytes 2 (js_and (js_sar (truncate value) 16) 0xff) in
  let bytes := array_set bytes 3 (js_and (js_sar (truncate value) 24) 0xff) in
  Ok bytes.

(** The loop shared by [encodeU64], [encodeU128] and [encodeU256]:
    [bytes[i] = Number((bigValue >> BigInt(i * 8)) & BigInt(0xff))]. *)
Definition encode_bigint_loop (n : nat) (bigValue : Z) (bytes : Uint8Array) : Uint8Array :=
  for_range n 0
    (fun i bytes => array_set bytes i (Z.land (Z.shiftr bigValue (i * 8)) 0xff))
    bytes.

Definition encodeU64 (value : amount) : js_result Uint8Array :=
  bigValue <- BigInt value ;;
  let bytes := new_Uint8Array 8 in
  Ok (encode_bigint_loop 8 bigValue bytes).

(** [typeof value === 'string' ? BigInt(value) : value]; a number that
    reaches the loop meets a bigint in [>>], which is a TypeError. *)
Definition bigint_of_string_or_bigint (value : amount) : js_result Z :=
  match value with
  | AString s => BigInt (AString s)
  | ABigInt z => Ok z
  | ANumber _ => Throw TypeError
  end.

Definition encodeU128 (value : amount) : js_result Uint8Array :=
  bigValue <- bigint_of_string_or_bigint value ;;
  let bytes := new_Uint8Array 16 in
  Ok (encode_bigint_loop 16 bigValue bytes).

Definition encodeU256 (value : amount) : js_result Uint8Array :=
  bigValue <- bigint_of_string_or_bigint value ;;
  let bytes := new_Uint8Array 32 in
  Ok (encode_bigint_loop 32 bigValue bytes).

Definition encodeBool (value : bool) : Uint8Array :=
  Uint8Array_from [if value then 1 else 0].

Definition encodeAddress (address : string) : js_result Uint8Array :=
  let cleanAddress := if startsWith address "0x" then slice_from 2 address else address in
  let paddedAddress := padStart cleanAddress 64 "0"%char in
  Ok (hexToBytes paddedAddress).

(** The loop of [decodeU64]: [i < 8 && i < bytes.length]. It leaves after at
    most eight rounds, so [fuel = 8] is never exhausted early. A read of
    [undefined] would make [BigInt] throw a TypeError. *)
Fixpoint decodeU64_loop (fuel : nat) (bytes : Uint8Array) (i : Z) (result : Z) : js_result Z :=
  match fuel with
  | O => Ok result
  | S fuel' =>
      if (i <? 8) && (i <? array_length bytes)
      then
        match array_get bytes i with
        | Some b => decodeU64_loop fuel' bytes (i + 1) (Z.lor result (Z.shiftl b (i * 8)))
        | None => Throw TypeError
        end
      else Ok result
  end.

Definition decodeU64 (bytes : Uint8Array) : js_result Z :=
  decodeU64_loop 8 bytes 0 0.

(* ------------------------------------------------------------------ *)
(** ** bcsUtils.ts: ULEB128, strings and vectors                       *)
(* ------------------------------------------------------------------ *)

(** The do-while loop of [encodeUleb128], on the integer value of [value].
    [None]: the loop is still running when the fuel is spent.  For a value
    whose ToInt32 is negative the loop never ends of itself ([>>=] keeps the
    sign); an engine stops it with an error once [bytes] cannot grow, and no
    bytes are returned either way. *)
Fixpoint encodeUleb128_loop (fuel : nat) (value : Z) (bytes : list Z) : option (list Z) :=
  match fuel with
  | O => None
  | S fuel' =>
      let byte := js_and value 0x7f in
      let value := js_sar value 7 in
      let byte := if negb (value =? 0) then js_or byte 0x80 else byte in
      let bytes := bytes ++ [byte] in
      if negb (value =? 0) then encodeUleb128_loop fuel' value bytes else Some bytes
  end.

Definition encodeUleb128_fuel (fuel : nat) (value : number) : option Uint8Array :=
  option_map Uint8Array_from (encodeUleb128_loop fuel (truncate value) []).

(** Five rounds are enough whenever the loop terminates at all (see
    [encodeUleb128_fuel_enough] and [encodeUleb128_diverges]). *)
Definition encodeUleb128 (value : number) : option Uint8Array :=
  encodeUleb128_fuel 5 value.

(** [TextEncoder.encode] on characters below U+0100. *)
Definition utf8_encode_char (c : ascii) : list Z :=
  let n := Z.of_nat (nat_of_ascii c) in
  if n <? 128 then [n] else [Z.lor 0xC0 (Z.shiftr n 6); Z.lor 0x80 (Z.land n 0x3f)].

Fixpoint TextEncoder_encode (s : string) : Uint8Array :=
  match s with
  | EmptyString => []
  | String c r => utf8_encode_char c ++ TextEncoder_encode r
  end.

Definition encodeString (value : string) : option Uint8Array :=
  let stringBytes := TextEncoder_encode value in
  match encodeUleb128 (Z2number (array_length stringBytes)) with
  | Some lengthPrefix => Some (lengthPrefix ++ stringBytes)
  | None => None
  end.

(** [result.set(lengthPrefix, 0)] and then every item at the running offset:
    the concatenation. *)
Definition encodeVector (items : list Uint8Array) : option Uint8Array :=
  match encodeUleb128 (Z2number (array_length items)) with
  | Some lengthPrefix => Some (lengthPrefix ++ List.concat items)
  | None => None
  end.

Record Uleb128 : Type := { value : Z; bytesRead : Z }.

(** The operand of [&] read from the array: [undefined] becomes [0]. *)
Definition int_of_element (b : option Z) : Z :=
  match b with
  | Some z => z
  | None => 0
  end.

(** The while loop of [decodeUleb128]. Every round reads one more byte, so
    [fuel] above the length of [bytes] is never exhausted ([None]). *)
Fixpoint decodeUleb128_loop (fuel : nat) (bytes : Uint8Array) (offset : Z)
    (result shift bytesRead : Z) : option Uleb128 :=
  if offset + bytesRead <? array_length bytes
  then
    match fuel with
    | O => None
    | S fuel' =>
        let byte := int_of_element (array_get bytes (offset + bytesRead)) in
        let result := js_or result (js_shl (js_and byte 0x7f) shift) in
        let bytesRead := bytesRead + 1 in
        if js_and byte 0x80 =? 0
        then Some {| value := result; bytesRead := bytesRead |}
        else decodeUleb128_loop fuel' bytes offset result (shift + 7) bytesRead
    end
  else Some {| value := result; bytesRead := bytesRead |}.

Definition decodeUleb128 (bytes : Uint8Array) (offset : Z) : option Uleb128 :=
  decodeUleb128_loop (S (List.length bytes)) bytes offset 0 0 0.

(* ------------------------------------------------------------------ *)
(** ** Values of type [unknown]                                        *)
(* ------------------------------------------------------------------ *)

#[warnings="-register-all"]
Inductive jsval : Type :=
| JUndefined
| JBoolean (b : bool)
| JNumber (x : number)
| JBigInt (z : Z)
| JString (s : string)
| JArray (items : list jsval).

Definition ToBoolean (v : jsval) : bool :=
  match v with
  | JUndefined => false
  | JBoolean b => b
  | JNumber (S754_zero _) | JNumber S754_nan => false
  | JNumber _ => true
  | JBigInt z => negb (z =? 0)
  | JString s => negb (String.eqb s EmptyString)
  | JArray _ => true
  end.

(** The conversions below return [None] where the coercion is one that this
    development does not model (a string read as a floating-point literal, a
    number printed, an array made primitive). *)

(** The operand of a 32-bit operator whose other operand is a number. *)
Definition number_operand (v : jsval) : option (js_result number) :=
  match v with
  | JNumber x => Some (Ok x)
  | JBoolean b => Some (Ok (Z2number (if b then 1 else 0)))
  | JUndefined => Some (Ok NaN)
  | JBigInt _ => Some (Throw TypeError)
  | JString _ | JArray _ => None
  end.

(** [Number(value)]; a bigint is rounded to the nearest binary64 number. *)
Definition Number_of (v : jsval) : option number :=
  match v with
  | JNumber x => Some x
  | JBoolean b => Some (Z2number (if b then 1 else 0))
  | JUndefined => Some NaN
  | JBigInt z => Some (binary_normalize 53 1024 z 0 false)
  | JString _ | JArray _ => None
  end.

(** [BigInt(value)] on an arbitrary value. *)
Definition BigInt_of (v : jsval) : option (js_result Z) :=
  match v with
  | JNumber x => Some (BigInt (ANumber x))
  | JString s => Some (BigInt (AString s))
  | JBigInt z => Some (Ok z)
  | JBoolean b => Some (Ok (if b then 1 else 0))
  | JUndefined => Some (Throw TypeError)
  | JArray _ => None
  end.

(** [String(value)]. *)
Definition String_of (v : jsval) : option string :=
  match v with
  | JString s => Some s
  | JUndefined => Some "undefined"%string
  | JBoolean b => Some (if b then "true" else "false")%string
  | JBigInt z => Some (NilZero.string_of_int (Z.to_int z))
  | JNumber _ | JArray _ => None
  end.

(** A value seen at the type [bigint | number | string]. *)
Definition as_amount (v : jsval) : option amount :=
  match v with
  | JNumber x => Some (ANumber x)
  | JString s => Some (AString s)
  | JBigInt z => Some (ABigInt z)
  | JUndefined | JBoolean _ | JArray _ => None
  end.

(** [toLowerCase] on a character below U+0100: the letters A-Z, and the
    capital letters U+00C0-U+00DE of Latin-1 (U+00D7, the multiplication
    sign, is no letter), are 32 below their lower-case forms. *)
Definition toLowerCase_char (c : ascii) : ascii :=
  let n := nat_of_ascii c in
  if ((65 <=? n) && (n <=? 90))%nat
     || ((192 <=? n) && (n <=? 222) && negb (n =? 215))%nat
  then ascii_of_nat (n + 32) else c.

Fixpoint toLowerCase (s : string) : string :=
  match s with
  | EmptyString => EmptyString
  | String c r => String (toLowerCase_char c) (toLowerCase r)
  end.

(** [Buffer.from(hex, 'hex')] (Node.js): one byte for every two hexadecimal
    digits, stopping at the first pair that is not two hexadecimal digits. *)
Fixpoint Buffer_from_hex (hex : string) : list Z :=
  match hex with
  | String a (String b r) =>
      match digit_value 16 a, digit_value 16 b with
      | Some x, Some y => (16 * x + y) :: Buffer_from_hex r
      | _, _ => []
      end
  | _ => []
  end.

(* ------------------------------------------------------------------ *)
(** ** bcsUtils.ts: [encodeMoveArg]                                    *)
(* ------------------------------------------------------------------ *)

(** [values.map(f)] for an [f] that may throw or have no result: the first
    element without a value decides. *)
Definition map_results {A B : Type} (f : A -> option (js_result B))
  : list A -> option (js_result (list B)) :=
  fix go (vs : list A) : option (js_result (list B)) :=
    match vs with
    | [] => Some (Ok [])
    | v :: vs' =>
        match f v with
        | Some (Ok item) =>
            match go vs' with
            | Some (Ok items) => Some (Ok (item :: items))
            | other => other
            end
        | Some (Throw e) => Some (Throw e)
        | None => None
        end
    end.

Definition lift_number (f : number -> js_result Uint8Array) (v : jsval)
  : option (js_result Uint8Array) :=
  match number_operand v with
  | Some (Ok x) => Some (f x)
  | Some (Throw e) => Some (Throw e)
  | None => None
  end.

Definition lift_amount (f : amount -> js_result Uint8Array) (v : jsval)
  : option (js_result Uint8Array) :=
  option_map f (as_amount v).

(** [None]: the call has no result in this model (a coercion that is not
    modelled, or the loop of [encodeUleb128] does not terminate). A value
    without a [map] method in the vector branch, or without [startsWith] in
    the address branch, is a TypeError. *)
Fixpoint encodeMoveArg (type : string) (value : jsval) {struct value}
  : option (js_result Uint8Array) :=
  let lower := toLowerCase type in
  if String.eqb lower "bool" then Some (Ok (encodeBool (ToBoolean value)))
  else if String.eqb lower "u8" then lift_number encodeU8 value
  else if String.eqb lower "u16" then lift_number encodeU16 value
  else if String.eqb lower "u32" then lift_number encodeU32 value
  else if String.eqb lower "u64" then lift_amount encodeU64 value
  else if String.eqb lower "u128" then lift_amount encodeU128 value
  else if String.eqb lower "u256" then lift_amount encodeU256 value
  else if String.eqb lower "address" then
    match value with
    | JString s => Some (encodeAddress s)
    | _ => Some (Throw TypeError)
    end
  else if String.eqb lower "string" || String.eqb lower "0x1::string::String" then
    match value with
    | JString s => option_map Ok (encodeString s)
    | _ => None
    end
  else if startsWith type "vector<" then
    let innerType := slice type 7 (String.length type - 1) in
    match value with
    | JArray values =>
        match map_results (encodeMoveArg innerType) values with
        | Some (Ok items) => option_map Ok (encodeVector items)
        | Some (Throw e) => Some (Throw e)
        | None => None
        end
    | _ => Some (Throw TypeError)
    end
  else Some (Throw Error).

(* ------------------------------------------------------------------ *)
(** ** moveUtils.ts                                                    *)
(* ------------------------------------------------------------------ *)

Record ParsedMoveType : Type := { baseType : string; typeArgs : list string }.

Fixpoint indexOf (c : ascii) (s : string) : option nat :=
  match s with
  | EmptyString => None
  | String a r => if Ascii.eqb a c then Some O else option_map S (indexOf c r)
  end.

Definition append_char (s : string) (c : ascii) : string :=
  (s ++ String c EmptyString)%string.

(** The scanning loop of [parseMoveTypeString] over the characters of
    [genericPart]; returns the arguments found and the pending [current]. *)
Fixpoint parseMoveTypeString_loop (chars : string) (depth : Z) (current : string)
    (typeArgs : list string) : list string * string :=
  match chars with
  | EmptyString => (typeArgs, current)
  | String char rest =>
      if Ascii.eqb char "<" then
        parseMoveTypeString_loop rest (depth + 1) (append_char current char) typeArgs
      else if Ascii.eqb char ">" then
        parseMoveTypeString_loop rest (depth - 1) (append_char current char) typeArgs
      else if Ascii.eqb char "," && (depth =? 0) then
        parseMoveTypeString_loop rest depth EmptyString (typeArgs ++ [trim current])
      else
        parseMoveTypeString_loop rest depth (append_char current char) typeArgs
  end.

Definition parseMoveTypeString (typeStr : string) : ParsedMoveType :=
  match indexOf "<" typeStr with
  | None => {| baseType := typeStr; typeArgs := [] |}
  | Some genericStart =>
      let baseType := slice typeStr 0 genericStart in
      let genericPart := slice typeStr (genericStart + 1) (String.length typeStr - 1) in
      let '(typeArgs, current) := parseMoveTypeString_loop genericPart 0 EmptyString [] in
      let typeArgs :=
        if negb (String.eqb (trim current) EmptyString) then typeArgs ++ [trim current]
        else typeArgs in
      {| baseType := baseType; typeArgs := typeArgs |}
  end.

Definition isPrimitiveType (type : string) : bool :=
  let primitives :=
    ["bool"; "u8"; "u16"; "u32"; "u64"; "u128"; "u256"; "address"; "signer"]%string in
  existsb (String.eqb (toLowerCase type)) primitives.

Definition isVectorType (type : string) : bool :=
  startsWith (toLowerCase type) "vector<".

Definition getVectorInnerType (vectorType : string) : string :=
  match typeArgs (parseMoveTypeString vectorType) with
  | t :: _ => if String.eqb t EmptyString then EmptyString else t
  | [] => EmptyString
  end.

Definition option_result_map {A B : Type} (f : A -> B) (r : option (js_result A))
  : option (js_result B) :=
  match r with
  | Some (Ok a) => Some (Ok (f a))
  | Some (Throw e) => Some (Throw e)
  | None => None
  end.

(** [None]: a coercion of the primitive branch that is not modelled. *)
Fixpoint convertToMoveArg (value : jsval) (type : string) {struct value}
  : option (js_result jsval) :=
  if isPrimitiveType type then
    let lower := toLowerCase type in
    if String.eqb lower "bool" then Some (Ok (JBoolean (ToBoolean value)))
    else if String.eqb lower "u8" || String.eqb lower "u16" || String.eqb lower "u32" then
      option_map (fun x => Ok (JNumber x)) (Number_of value)
    else if String.eqb lower "u64" || String.eqb lower "u128" || String.eqb lower "u256" then
      option_result_map JBigInt (BigInt_of value)
    else if String.eqb lower "address" then
      option_map (fun s => Ok (JString s)) (String_of value)
    else Some (Ok value)
  else if isVectorType type then
    let innerType := getVectorInnerType type in
    match value with
    | JArray values =>
        option_result_map JArray (map_results (fun v => convertToMoveArg v innerType) values)
    | JString s =>
        if String.eqb innerType "u8" then
          let hex := if startsWith s "0x" then slice_from 2 s else s in
          Some (Ok (JArray (map (fun b => JNumber (Z2number b)) (Buffer_from_hex hex))))
        else Some (Ok value)
    | _ => Some (Ok value)
    end
  else Some (Ok value).

(* ------------------------------------------------------------------ *)
(** ** unitConverter.ts                                                *)
(* ------------------------------------------------------------------ *)

(** [10 ** d] for an integer [0 <= d]: the binary64 number nearest to
    [10^d] (ties to even), [Infinity] on overflow. ECMAScript leaves the
    last bit of [**] to the implementation; whenever [10^d] is itself a
    binary64 number (that is, for [d <= 22]) the result is [10^d]. *)
Definition js_pow10 (d : Z) : number := binary_normalize 53 1024 (10 ^ d) 0 false.

(** [typeof amount === 'bigint' ? amount : BigInt(amount)]. *)
Definition amount_to_bigint (a : amount) : js_result Z :=
  match a with
  | ABigInt z => Ok z
  | _ => BigInt a
  end.

(** BigInt division: a RangeError on a zero divisor, truncation otherwise. *)
Definition bigint_div (a b : Z) : js_result Z :=
  if b =? 0 then Throw RangeError else Ok (Z.quot a b).

Definition convertUnits (amount : amount) (fromDecimals toDecimals : Z) : js_result Z :=
  amountBigInt <- amount_to_bigint amount ;;
  let decimalDiff := toDecimals - fromDecimals in
  if decimalDiff >? 0 then
    scale <- NumberToBigInt (js_pow10 decimalDiff) ;;
    Ok (amountBigInt * scale)
  else if decimalDiff <? 0 then
    scale <- NumberToBigInt (js_pow10 (Z.abs decimalDiff)) ;;
    bigint_div amountBigInt scale
  else Ok amountBigInt.

Definition compareAmounts (a b : amount) : js_result Z :=
  aBigInt <- amount_to_bigint a ;;
  bBigInt <- amount_to_bigint b ;;
  if aBigInt <? bBigInt then Ok (-1)
  else if aBigInt >? bBigInt then Ok 1
  else Ok 0.

Section IsValidAmount.

(** [parseFloat] is a built-in of the platform; nothing is assumed of it. *)
Variable parseFloat : string -> number.

(** The body of the [try] block. *)
Definition isValidAmount_try (amount : amount) : js_result bool :=
  match amount with
  | ABigInt z => Ok (z >=? 0)
  | AString s =>
      let num := parseFloat s in
      Ok (negb (isNaN num) && number_ge0 num)
  | ANumber x =>
      let num := x in
      Ok (negb (isNaN num) && number_ge0 num)
  end.

(** [try { ... } catch { return false; }]. *)
Definition isValidAmount (amount : amount) : bool :=
  match isValidAmount_try amount with
  | Ok b => b
  | Throw _ => false
  end.

End IsValidAmount.

(* ------------------------------------------------------------------ *)
(** ** Vocabulary of the statements                                    *)
(* ------------------------------------------------------------------ *)

Definition is_byte (b : Z) : Prop := 0 <= b < 256.

(** The [k] little-endian bytes of [v]: byte [i] is [v / 256^i mod 256]. *)
Definition le_bytes (k : nat) (v : Z) : list Z :=
  map (fun i => v / 256 ^ Z.of_nat i mod 256) (seq 0 k).

(** The integer a byte sequence denotes, least significant byte first. *)
Fixpoint le_value (bytes : list Z) : Z :=
  match bytes with
  | [] => 0
  | b :: rest => b + 256 * le_value rest
  end.

(** The decimal numeral of an integer, as [String(n)] prints it. *)
Definition decimal (n : Z) : string := NilZero.string_of_int (Z.to_int n).

(** [holds v n]: the argument [v] is the integer [n], as a bigint, as a
    number, or as a decimal string. *)
Inductive holds : amount -> Z -> Prop :=
| holds_bigint (n : Z) : holds (ABigInt n) n
| holds_number (x : number) (n : Z) : number_int x = Some n -> holds (ANumber x) n
| holds_string (n : Z) : holds (AString (decimal n)) n.

Inductive width : Type := W8 | W16 | W32 | W64 | W128 | W256.

Definition width_bits (w : width) : Z :=
  match w with
  | W8 => 8 | W16 => 16 | W32 => 32 | W64 => 64 | W128 => 128 | W256 => 256
  end.

Definition width_bytes (w : width) : nat :=
  match w with
  | W8 => 1 | W16 => 2 | W32 => 4 | W64 => 8 | W128 => 16 | W256 => 32
  end.

(** The encoder of each width, applied to an argument of the type its
    parameter is declared with; [None] for an argument of another type. *)
Definition encoder (w : width) (v : amount) : option (js_result Uint8Array) :=
  match w, v with
  | W8, ANumber x => Some (encodeU8 x)
  | W16, ANumber x => Some (encodeU16 x)
  | W32, ANumber x => Some (encodeU32 x)
  | W64, (ANumber _ | ABigInt _) => Some (encodeU64 v)
  | W128, (ABigInt _ | AString _) => Some (encodeU128 v)
  | W256, (ABigInt _ | AString _) => Some (encodeU256 v)
  | _, _ => None
  end.

(** The value an amount stands for is a non-negative quantity and not NaN. *)
Definition number_nonneg (x : number) : Prop :=
  match x with
  | S754_nan => False
  | S754_zero _ => True
  | S754_infinity s => s = false
  | S754_finite s _ _ => s = false
  end.

Definition amount_nonneg (parseFloat : string -> number) (a : amount) : Prop :=
  match a with
  | ABigInt z => 0 <= z
  | ANumber x => number_nonneg x
  | AString s => number_nonneg (parseFloat s)
  end.

(* ------------------------------------------------------------------ *)
(** ** Auxiliary notions of the proofs and the claims as worded        *)
(* ------------------------------------------------------------------ *)

Definition is_decimal_digit (c : ascii) : bool :=
  match digit_value 10 c with
  | Some _ => true
  | None => false
  end.

Fixpoint digits_only (s : string) : bool :=
  match s with
  | EmptyString => true
  | String c r => is_decimal_digit c && digits_only r
  end.

Fixpoint no_whitespace (s : string) : bool :=
  match s with
  | EmptyString => true
  | String c r => negb (is_whitespace c) && no_whitespace r
  end.

(** The bytes the encoding loop emits for [0 <= v], when [fuel] rounds are
    enough: seven bits per byte, the continuation bit on all but the last. *)
Fixpoint uleb128_digits (fuel : nat) (v : Z) : list Z :=
  match fuel with
  | O => []
  | S fuel' =>
      if v / 128 =? 0 then [v mod 128]
      else (v mod 128 + 128) :: uleb128_digits fuel' (v / 128)
  end.

Definition is_hex_digit (c : ascii) : bool :=
  match digit_value 16 c with
  | Some _ => true
  | None => false
  end.

Fixpoint hex_only (s : string) : bool :=
  match s with
  | EmptyString => true
  | String c r => is_hex_digit c && hex_only r
  end.

(** The integer a byte sequence denotes, most significant byte first. *)
Definition be_value (bytes : list Z) : Z :=
  fold_left (fun acc b => acc * 256 + b) bytes 0.

(** C1 as the specification words it, at one width: an argument out of
    range makes the encoder throw a RangeError. *)
Definition rejects_out_of_range (w : width) (v : amount) (n : Z) : Prop :=
  holds v n -> (2 ^ width_bits w <= n \/ n < 0) ->
  encoder w v = Some (Throw RangeError).

(** C3 as the specification words it: the round trip for every
    non-negative integer, with whatever fuel the encoder needs. *)
Definition uleb128_round_trip_claim (x : number) (k : Z) : Prop :=
  number_int x = Some k -> 0 <= k ->
  exists fuel bytes,
    encodeUleb128_fuel fuel x = Some bytes /\
    decodeUleb128 bytes 0 = Some {| value := k; bytesRead := array_length bytes |}.

(** C7 as the specification words it: exact scaling for every pair of
    non-negative decimal counts. *)
Definition convertUnits_exact_claim (v : amount) (a fromDecimals toDecimals : Z) : Prop :=
  holds v a -> 0 <= a -> 0 <= fromDecimals -> 0 <= toDecimals ->
  (fromDecimals < toDecimals ->
   convertUnits v fromDecimals toDecimals = Ok (a * 10 ^ (toDecimals - fromDecimals))) /\
  (toDecimals < fromDecimals ->
   convertUnits v fromDecimals toDecimals = Ok (Z.quot a (10 ^ (fromDecimals - toDecimals)))).

(** C5 as the specification words it: an input that is not hexadecimal, or
    is longer than 64 digits, makes [encodeAddress] fail. *)
Definition encodeAddress_rejects_claim (address : string) : Prop :=
  let clean := if startsWith address "0x" then slice_from 2 address else address in
  hex_only clean = false \/ (64 < String.length clean)%nat ->
  exists e, encodeAddress address = Throw e.

(** C4 as the specification words it: [encodeMoveArg] returns bytes for a
    hexadecimal string under the tag [vector<u8>]. *)
Definition encodeMoveArg_accepts_hex_claim (s : string) : Prop :=
  exists bytes, encodeMoveArg "vector<u8>" (JString s) = Some (Ok bytes).

(* ------------------------------------------------------------------ *)
(** ** accountUtils.ts: addresses and hexadecimal printing             *)
(* ------------------------------------------------------------------ *)

(** Strings of ASCII characters. *)
Fixpoint ascii_only (s : string) : bool :=
  match s with
  | EmptyString => true
  | String c r => (nat_of_ascii c <? 128)%nat && ascii_only r
  end.

(** [ADDRESS_REGEX.test(address)] for [/^0x[a-fA-F0-9]{1,64}$/]. *)
Definition ADDRESS_REGEX_test (address : string) : bool :=
  startsWith address "0x" &&
  (let digits := slice_from 2 address in
   (1 <=? String.length digits)%nat && (String.length digits <=? 64)%nat &&
   hex_only digits).

(** For an argument that is a string, [!address] holds of the empty string
    only. *)
Definition isValidAddress (address : string) : bool :=
  if String.eqb address EmptyString then false
  else ADDRESS_REGEX_test address.

Definition normalizeAddress (address : string) : string :=
  let address :=
    if negb (startsWith address "0x") then ("0x" ++ address)%string else address in
  let hex := toLowerCase (slice_from 2 address) in
  ("0x" ++ padStart hex 64 "0")%string.

(** [s.slice(-n)] for [0 <= n]: [-0] is [0], so [s.slice(-0)] is all of [s]. *)
Definition slice_last (s : string) (n : nat) : string :=
  if (n =? 0)%nat then s else slice_from (String.length s - n) s.

(** [startChars] and [endChars] are counts, kept as [nat]. *)
Definition shortenAddress (address : string) (startChars endChars : nat) : string :=
  if String.eqb address EmptyString
     || (String.length address <=? startChars + endChars + 3)%nat
  then address
  else (slice address 0 startChars ++ "..." ++ slice_last address endChars)%string.

Definition isFrameworkAddress (address : string) : bool :=
  let normalized := normalizeAddress address in
  let frameworkAddresses :=
    [normalizeAddress "0x1"; normalizeAddress "0x3"; normalizeAddress "0x4"] in
  existsb (String.eqb normalized) frameworkAddresses.

Definition getCoinStoreResourceType (coinType : string) : string :=
  ("0x1::coin::CoinStore<" ++ coinType ++ ">")%string.

(** [typeArgs] is optional: [None] is [undefined]. *)
Definition buildMoveType (address module name : string) (typeArgs : option (list string))
  : string :=
  let baseType := (address ++ "::" ++ module ++ "::" ++ name)%string in
  match typeArgs with
  | Some ((_ :: _) as args) => (baseType ++ "<" ++ String.concat ", " args ++ ">")%string
  | _ => baseType
  end.

Definition hex_digit (d : Z) : ascii :=
  ascii_of_nat (Z.to_nat (if d <? 10 then 48 + d else 87 + d)).

(** [b.toString(16)] for an element [b] of a [Uint8Array]: one digit below
    16, two from 16 on. *)
Definition byte_toString16 (b : Z) : string :=
  if b <? 16 then String (hex_digit b) EmptyString
  else String (hex_digit (b / 16)) (String (hex_digit (b mod 16)) EmptyString).

Definition bytesToHex (bytes : Uint8Array) (prefix : bool) : string :=
  let hex :=
    String.concat EmptyString
      (map (fun b => padStart (byte_toString16 b) 2 "0"%char) bytes) in
  if prefix then ("0x" ++ hex)%string else hex.

(* ------------------------------------------------------------------ *)
(** ** moveUtils.ts: function identifiers                              *)
(* ------------------------------------------------------------------ *)

(** [s.split('::')]: [current] is the piece being read. *)
Fixpoint split_colons (s : string) (current : string) : list string :=
  match s with
  | EmptyString => [current]
  | String c r =>
      match r with
      | String d r' =>
          if Ascii.eqb c ":" && Ascii.eqb d ":"
          then current :: split_colons r' EmptyString
          else split_colons r (append_char current c)
      | EmptyString => split_colons r (append_char current c)
      end
  end.

Record FunctionId : Type := { fid_address : string; fid_module : string; fid_function : string }.

Definition parseFunctionId (functionId : string) : js_result FunctionId :=
  let parts := split_colons functionId EmptyString in
  match parts with
  | [a; m; f] => Ok {| fid_address := a; fid_module := m; fid_function := f |}
  | _ => Throw Error
  end.

Definition buildFunctionId (address module functionName : string) : string :=
  (address ++ "::" ++ module ++ "::" ++ functionName)%string.

Definition isOptionType (type : string) : bool :=
  let baseType := baseType (parseMoveTypeString type) in
  String.eqb baseType "0x1::option::Option" || String.eqb baseType "option::Option".

(* ------------------------------------------------------------------ *)
(** ** bcsUtils.ts: concatenation and strings read back                *)
(* ------------------------------------------------------------------ *)

(** [target.set(source, offset)]: a RangeError when the source does not fit
    at the offset, the copy otherwise. *)
Definition typed_set (target source : Uint8Array) (offset : Z) : js_result Uint8Array :=
  if (offset <? 0) || (array_length target <? offset + array_length source)
  then Throw RangeError
  else Ok (firstn (Z.to_nat offset) target ++ source
           ++ skipn (Z.to_nat offset + length source) target).

(** The loop of [concatBytes]: [result.set(arr, offset); offset += arr.length]. *)
Fixpoint concatBytes_loop (arrays : list Uint8Array) (result : Uint8Array) (offset : Z)
  : js_result Uint8Array :=
  match arrays with
  | [] => Ok result
  | arr :: rest =>
      result <- typed_set result arr offset ;;
      concatBytes_loop rest result (offset + array_length arr)
  end.

Definition concatBytes (arrays : list Uint8Array) : js_result Uint8Array :=
  let totalLength := fold_left (fun sum arr => sum + array_length arr) arrays 0 in
  let result := new_Uint8Array (Z.to_nat totalLength) in
  concatBytes_loop arrays result 0.

(** [a.slice(start, end)] on an array: a negative index counts from the end,
    both are clamped to the array, an empty range is the empty array. *)
Definition array_slice {A : Type} (a : list A) (start stop : Z) : list A :=
  let len := array_length a in
  let from := if start <? 0 then Z.max (len + start) 0 else Z.min start len in
  let to := if stop <? 0 then Z.max (len + stop) 0 else Z.min stop len in
  firstn (Z.to_nat (to - from)) (skipn (Z.to_nat from) a).

(** [new TextDecoder().decode(bytes)], for bytes that are the UTF-8 form of
    characters below U+0100; [None] for any other byte sequence (a longer
    form, or a malformed one that decodes to U+FFFD). *)
Fixpoint TextDecoder_decode (bytes : list Z) : option string :=
  match bytes with
  | [] => Some EmptyString
  | b :: rest =>
      if (0 <=? b) && (b <? 128)
      then option_map (String (ascii_of_nat (Z.to_nat b))) (TextDecoder_decode rest)
      else
        match rest with
        | b2 :: rest' =>
            if ((b =? 0xC2) || (b =? 0xC3)) && (0x80 <=? b2) && (b2 <=? 0xBF)
            then option_map
                   (String (ascii_of_nat
                              (Z.to_nat (Z.lor (Z.shiftl (Z.land b 0x1F) 6) (Z.land b2 0x3F)))))
                   (TextDecoder_decode rest')
            else None
        | [] => None
        end
  end.

Record DecodedString : Type := { decoded_value : string; decoded_bytesRead : Z }.

(** [None]: the bytes are not text that [TextDecoder_decode] models. *)
Definition decodeString (bytes : Uint8Array) (offset : Z) : option DecodedString :=
  match decodeUleb128 bytes offset with
  | Some {| value := length; bytesRead := lengthBytes |} =>
      let stringBytes := array_slice bytes (offset + lengthBytes) (offset + lengthBytes + length) in
      match TextDecoder_decode stringBytes with
      | Some text =>
          Some {| decoded_value := text; decoded_bytesRead := lengthBytes + length |}
      | None => None
      end
  | None => None
  end.

Definition bcsToHex (bcs : Uint8Array) : string := bytesToHex bcs true.

Definition hexToBcs (hex : string) : Uint8Array := hexToBytes hex.

(* ------------------------------------------------------------------ *)
(** ** Further notions used in the statements                          *)
(* ------------------------------------------------------------------ *)

(** No [:] in the string. *)
Fixpoint no_colon (s : string) : bool :=
  match s with
  | EmptyString => true
  | String c r => negb (Ascii.eqb c ":") && no_colon r
  end.

(** The nesting depth of angle brackets after [s], read from depth [depth];
    [None] when [s] has a comma outside all brackets. *)
Fixpoint scan_depth (s : string) (depth : Z) : option Z :=
  match s with
  | EmptyString => Some depth
  | String char rest =>
      if Ascii.eqb char "<" then scan_depth rest (depth + 1)
      else if Ascii.eqb char ">" then scan_depth rest (depth - 1)
      else if Ascii.eqb char "," && (depth =? 0) then None
      else scan_depth rest depth
  end.

(** A type argument as it is written in a type string: ASCII, not empty, no
    white space at either end, every comma inside brackets and the brackets
    closed at the end. *)
Definition type_arg_ok (t : string) : bool :=
  ascii_only t && String.eqb (trim t) t && negb (String.eqb t EmptyString) &&
  match scan_depth t 0 with
  | Some d => d =? 0
  | None => false
  end.

(* ================================================================== *)
(** * Part II.  Properties                                             *)
(* ================================================================== *)

(* ------------------------------------------------------------------ *)
(** ** Bit-level facts                                                 *)
(* ------------------------------------------------------------------ *)

Lemma wrap32_mod (z : Z) : wrap32 z mod 2 ^ 32 = z mod 2 ^ 32.
Proof.
  unfold wrap32.
  rewrite Zminus_mod_idemp_l.
  f_equal. lia.
Qed.

Lemma wrap32_range (z : Z) : - 2 ^ 31 <= wrap32 z < 2 ^ 31.
Proof.
  unfold wrap32.
  pose proof (Z.mod_pos_bound (z + 2 ^ 31) (2 ^ 32) ltac:(lia)). lia.
Qed.

Lemma wrap32_small (z : Z) : - 2 ^ 31 <= z < 2 ^ 31 -> wrap32 z = z.
Proof.
  intros H. unfold wrap32.
  rewrite Z.mod_small by lia. lia.
Qed.

Lemma wrap32_idem (z : Z) : wrap32 (wrap32 z) = wrap32 z.
Proof. apply wrap32_small, wrap32_range. Qed.

Lemma wrap32_testbit (z j : Z) :
  0 <= j < 32 -> Z.testbit (wrap32 z) j = Z.testbit z j.
Proof.
  intros H.
  rewrite <- (Z.mod_pow2_bits_low (wrap32 z) 32 j) by lia.
  rewrite wrap32_mod.
  apply Z.mod_pow2_bits_low. lia.
Qed.

Lemma testbit_255 (j : Z) : 0 <= j -> Z.testbit 255 j = (j <? 8).
Proof.
  intros H. change 255 with (Z.ones 8).
  rewrite Z.testbit_ones_nonneg by lia. reflexivity.
Qed.

(** A shift and a mask on a bigint select one base-256 digit. *)
Lemma bigint_byte (n i : Z) :
  0 <= i -> Z.land (Z.shiftr n (i * 8)) 255 = n / 256 ^ i mod 256.
Proof.
  intros Hi.
  rewrite Z.shiftr_div_pow2 by lia.
  change 255 with (Z.ones 8). rewrite Z.land_ones by lia.
  replace (256 ^ i) with (2 ^ (i * 8)).
  - reflexivity.
  - rewrite Z.mul_comm, Z.pow_mul_r by lia. reflexivity.
Qed.

(** The same digit through the 32-bit operators, for the four low bytes. *)
Lemma int32_byte (v i : Z) :
  0 <= i < 4 -> js_and (js_sar v (i * 8)) 255 = v / 256 ^ i mod 256.
Proof.
  intros Hi.
  rewrite <- bigint_byte by lia.
  unfold js_and, js_sar.
  rewrite (wrap32_small 255) by lia.
  rewrite (Z.mod_small (i * 8) 32) by lia.
  apply Z.bits_inj'. intros j Hj.
  rewrite !Z.land_spec, testbit_255 by lia.
  destruct (Z.ltb_spec j 8); [ | now rewrite !andb_false_r ].
  rewrite !andb_true_r.
  rewrite wrap32_testbit by lia.
  rewrite !Z.shiftr_spec by lia.
  apply wrap32_testbit. lia.
Qed.

Lemma int32_low_byte (v : Z) : js_and v 255 = v mod 256.
Proof.
  unfold js_and.
  rewrite (wrap32_small 255) by lia.
  change 255 with (Z.ones 8). rewrite Z.land_ones by lia.
  change (2 ^ 8) with 256.
  apply Z.bits_inj'. intros j Hj.
  change 256 with (2 ^ 8).
  rewrite !Z.testbit_mod_pow2 by lia.
  destruct (Z.ltb_spec j 8); [ | reflexivity ].
  rewrite !andb_true_l. apply wrap32_testbit. lia.
Qed.

Lemma ToUint8_byte (b : Z) : is_byte b -> ToUint8 b = b.
Proof. intros H. apply Z.mod_small. exact H. Qed.

Lemma ToUint8_mod (v : Z) : ToUint8 (v mod 256) = v mod 256.
Proof. apply ToUint8_byte. apply Z.mod_pos_bound. lia. Qed.

(* ------------------------------------------------------------------ *)
(** ** Numbers that hold integers                                      *)
(* ------------------------------------------------------------------ *)

Lemma truncate_number_int (x : number) (n : Z) :
  number_int x = Some n -> truncate x = n.
Proof.
  destruct x as [s | s | | s m e]; simpl; try discriminate.
  - now intros [= <-].
  - destruct ((0 <=? e) || (Z.pos m mod 2 ^ (- e) =? 0)); [ | discriminate ].
    now intros [= <-].
Qed.

Lemma number_int_Z2number (n : Z) : number_int (Z2number n) = Some n.
Proof.
  destruct n as [ | p | p]; reflexivity.
Qed.

Lemma truncate_Z2number (n : Z) : truncate (Z2number n) = n.
Proof. apply truncate_number_int, number_int_Z2number. Qed.

(* ------------------------------------------------------------------ *)
(** ** Little-endian digits                                            *)
(* ------------------------------------------------------------------ *)

Lemma pow256 (i : Z) : 0 <= i -> 256 ^ i = 2 ^ (8 * i).
Proof. intros H. rewrite Z.pow_mul_r by lia. reflexivity. Qed.

(** Reducing modulo [256^k] keeps the [k] low digits. *)
Lemma digit_mod (n i k : Z) :
  0 <= i < k -> (n mod 256 ^ k) / 256 ^ i mod 256 = n / 256 ^ i mod 256.
Proof.
  intros H.
  rewrite !pow256 by lia. change 256 with (2 ^ 8).
  apply Z.bits_inj'. intros j Hj.
  rewrite !Z.testbit_mod_pow2 by lia.
  destruct (Z.ltb_spec j 8); [ | reflexivity ].
  rewrite !andb_true_l.
  rewrite !Z.div_pow2_bits by lia.
  rewrite Z.testbit_mod_pow2 by lia.
  destruct (Z.ltb_spec (j + 8 * i) (8 * k)); [ reflexivity | lia ].
Qed.

Lemma le_bytes_mod (k : nat) (n : Z) :
  le_bytes k (n mod 256 ^ Z.of_nat k) = le_bytes k n.
Proof.
  unfold le_bytes. apply map_ext_in.
  intros i Hi. apply in_seq in Hi.
  apply digit_mod. lia.
Qed.

Lemma le_bytes_length (k : nat) (v : Z) : length (le_bytes k v) = k.
Proof. unfold le_bytes. now rewrite length_map, length_seq. Qed.

Lemma le_bytes_is_byte (k : nat) (v : Z) : Forall is_byte (le_bytes k v).
Proof.
  unfold le_bytes. apply Forall_forall. intros b Hb.
  apply in_map_iff in Hb. destruct Hb as [i [<- _]].
  apply Z.mod_pos_bound. lia.
Qed.

Lemma array_set_nat_app (done rest : Uint8Array) (old v : Z) :
  array_set_nat (done ++ old :: rest) (length done) v = done ++ ToUint8 v :: rest.
Proof.
  induction done as [ | d done IH]; simpl.
  - reflexivity.
  - now rewrite IH.
Qed.

Lemma array_set_app (done rest : Uint8Array) (old v : Z) :
  array_set (done ++ old :: rest) (Z.of_nat (length done)) v = done ++ ToUint8 v :: rest.
Proof.
  unfold array_set.
  destruct (Z.ltb_spec (Z.of_nat (length done)) 0); [ lia | ].
  rewrite Nat2Z.id. apply array_set_nat_app.
Qed.

(** The shift-and-mask loop writes the little-endian digits of [bigValue],
    whatever its sign or size. *)
Lemma encode_bigint_loop_from (bigValue : Z) (m : nat) (done : Uint8Array) :
  for_range m (Z.of_nat (length done))
    (fun i bytes => array_set bytes i (Z.land (Z.shiftr bigValue (i * 8)) 0xff))
    (done ++ repeat 0 m)
  = done ++ map (fun i => bigValue / 256 ^ Z.of_nat i mod 256) (seq (length done) m).
Proof.
  revert done. induction m as [ | m IH]; intros done; simpl.
  - reflexivity.
  - rewrite array_set_app.
    rewrite bigint_byte by lia.
    rewrite ToUint8_mod.
    specialize (IH (done ++ [bigValue / 256 ^ Z.of_nat (length done) mod 256])).
    rewrite length_app in IH. simpl length in IH.
    rewrite Nat2Z.inj_add in IH. simpl Z.of_nat in IH.
    rewrite <- !app_assoc in IH. simpl app in IH.
    rewrite IH. now rewrite Nat.add_1_r.
Qed.

Lemma encode_bigint_loop_spec (k : nat) (bigValue : Z) :
  encode_bigint_loop k bigValue (new_Uint8Array k) = le_bytes k bigValue.
Proof.
  unfold encode_bigint_loop, new_Uint8Array, le_bytes.
  exact (encode_bigint_loop_from bigValue k []).
Qed.

(* ------------------------------------------------------------------ *)
(** ** Decimal strings read by [BigInt]                                *)
(* ------------------------------------------------------------------ *)

Lemma decimal_digit_plain (c : ascii) :
  is_decimal_digit c = true ->
  is_whitespace c = false /\
  c <> "+"%char /\ c <> "-"%char /\
  c <> "x"%char /\ c <> "X"%char /\ c <> "o"%char /\ c <> "O"%char /\
  c <> "b"%char /\ c <> "B"%char.
Proof.
  destruct c as [[] [] [] [] [] [] [] []]; vm_compute; intros H;
    try discriminate H; repeat split; discriminate.
Qed.

Lemma startsWith_1 (c a : ascii) (r : string) :
  startsWith (String c r) (String a EmptyString) = Ascii.eqb a c.
Proof.
  unfold startsWith. simpl.
  destruct (ascii_dec a c) as [-> | Hne].
  - rewrite Ascii.eqb_refl. now destruct r.
  - symmetry. now apply Ascii.eqb_neq.
Qed.

Lemma startsWith_2 (c d a b : ascii) (r : string) :
  startsWith (String c (String d r)) (String a (String b EmptyString))
  = Ascii.eqb a c && Ascii.eqb b d.
Proof.
  unfold startsWith. simpl.
  destruct (ascii_dec a c) as [-> | Hne].
  - rewrite Ascii.eqb_refl. simpl.
    destruct (ascii_dec b d) as [-> | Hne].
    + rewrite Ascii.eqb_refl. now destruct r.
    + symmetry. now apply Ascii.eqb_neq.
  - apply Ascii.eqb_neq in Hne. now rewrite Hne.
Qed.

Lemma startsWith_2_short (c a b : ascii) :
  startsWith (String c EmptyString) (String a (String b EmptyString)) = false.
Proof.
  unfold startsWith. simpl. now destruct (ascii_dec a c).
Qed.

Lemma trimEnd_no_whitespace (s : string) : no_whitespace s = true -> trimEnd s = s.
Proof.
  induction s as [ | c r IH]; simpl; [ reflexivity | ].
  intros H. apply andb_true_iff in H. destruct H as [Hc Hr].
  rewrite (IH Hr).
  destruct r; [ | reflexivity ].
  apply negb_true_iff in Hc. now rewrite Hc.
Qed.

Lemma trim_no_whitespace (s : string) : no_whitespace s = true -> trim s = s.
Proof.
  intros H. unfold trim.
  replace (trimStart s) with s.
  - now apply trimEnd_no_whitespace.
  - destruct s as [ | c r]; simpl in *; [ reflexivity | ].
    apply andb_true_iff in H. destruct H as [Hc _].
    apply negb_true_iff in Hc. now rewrite Hc.
Qed.

Lemma digits_only_no_whitespace (s : string) :
  digits_only s = true -> no_whitespace s = true.
Proof.
  induction s as [ | c r IH]; simpl; [ reflexivity | ].
  intros H. apply andb_true_iff in H. destruct H as [Hc Hr].
  rewrite (IH Hr), andb_true_r.
  apply negb_true_iff. now apply decimal_digit_plain.
Qed.

(** On a non-empty string of decimal digits [BigInt] reads the digits. *)
Lemma StringToBigInt_digits (s : string) :
  digits_only s = true -> s <> EmptyString ->
  StringToBigInt s = parse_all_digits 10 s.
Proof.
  intros Hd Hne. unfold StringToBigInt.
  rewrite (trim_no_whitespace s) by now apply digits_only_no_whitespace.
  destruct s as [ | c r]; [ contradiction | ].
  simpl in Hd. apply andb_true_iff in Hd. destruct Hd as [Hc Hr].
  destruct (decimal_digit_plain c Hc) as (_ & Hp & Hm & _).
  assert (H2 : forall a b, is_decimal_digit b = false ->
                startsWith (String c r) (String a (String b EmptyString)) = false).
  { intros a b Hb. destruct r as [ | d r'].
    - apply startsWith_2_short.
    - rewrite startsWith_2. simpl in Hr.
      apply andb_true_iff in Hr. destruct Hr as [Hdd _].
      destruct (Ascii.eqb_spec b d) as [-> | _]; [ congruence | apply andb_false_r ]. }
  rewrite !H2 by reflexivity.
  rewrite !startsWith_1.
  apply Ascii.eqb_neq in Hp, Hm.
  rewrite (Ascii.eqb_sym "+"%char c), Hp.
  rewrite (Ascii.eqb_sym "-"%char c), Hm.
  reflexivity.
Qed.

Lemma digits_only_uint (d : Decimal.uint) :
  digits_only (NilEmpty.string_of_uint d) = true.
Proof. induction d; simpl; auto. Qed.

Lemma parse_digits_uint_acc (d : Decimal.uint) (acc : positive) :
  parse_digits 10 (NilEmpty.string_of_uint d) (Z.pos acc)
  = Some (Z.pos (Pos.of_uint_acc d acc)).
Proof.
  revert acc.
  induction d as [ | d IH | d IH | d IH | d IH | d IH | d IH | d IH | d IH | d IH | d IH];
    intros acc; cbn [NilEmpty.string_of_uint parse_digits Pos.of_uint_acc];
    [ reflexivity | .. ];
    match goal with
    | |- context [digit_value 10 ?c] =>
        let v := eval vm_compute in (digit_value 10 c) in
        change (digit_value 10 c) with v; cbv iota
    end;
    rewrite <- IH; f_equal; lia.
Qed.

Lemma parse_digits_uint (d : Decimal.uint) :
  parse_digits 10 (NilEmpty.string_of_uint d) 0 = Some (Z.of_uint d).
Proof.
  unfold Z.of_uint.
  induction d as [ | d IH | d IH | d IH | d IH | d IH | d IH | d IH | d IH | d IH | d IH];
    cbn [NilEmpty.string_of_uint parse_digits Pos.of_uint];
    [ reflexivity | .. ];
    match goal with
    | |- context [digit_value 10 ?c] =>
        let v := eval vm_compute in (digit_value 10 c) in
        change (digit_value 10 c) with v; cbv iota
    end;
    [ exact IH | .. ];
    cbn [Z.mul Z.add Z.of_N]; apply parse_digits_uint_acc.
Qed.

Lemma string_of_uint_nonempty (d : Decimal.uint) :
  d <> Decimal.Nil -> NilEmpty.string_of_uint d <> EmptyString.
Proof. destruct d; simpl; congruence. Qed.

Lemma StringToBigInt_decimal (n : Z) : StringToBigInt (decimal n) = Some n.
Proof.
  rewrite <- (DecimalZ.of_to n) at 2.
  unfold decimal.
  destruct n as [ | p | p]; [ reflexivity | | ].
  - cbn [Z.to_int NilZero.string_of_int Z.of_int].
    pose proof (DecimalPos.Unsigned.to_uint_nonnil p) as Hnn.
    unfold NilZero.string_of_uint.
    destruct (Pos.to_uint p) eqn:E; try contradiction;
      rewrite <- E in *;
      (rewrite StringToBigInt_digits;
       [ | apply digits_only_uint | apply string_of_uint_nonempty; congruence ]);
      unfold parse_all_digits;
      (destruct (NilEmpty.string_of_uint (Pos.to_uint p)) eqn:Es;
       [ exfalso; revert Es; apply string_of_uint_nonempty; congruence | ]);
      rewrite <- Es; apply parse_digits_uint.
  - cbn [Z.to_int NilZero.string_of_int Z.of_int].
    pose proof (DecimalPos.Unsigned.to_uint_nonnil p) as Hnn.
    assert (Hs : NilZero.string_of_uint (Pos.to_uint p)
                 = NilEmpty.string_of_uint (Pos.to_uint p)).
    { unfold NilZero.string_of_uint. destruct (Pos.to_uint p); congruence. }
    rewrite Hs.
    pose proof (digits_only_uint (Pos.to_uint p)) as Hd.
    pose proof (string_of_uint_nonempty _ Hnn) as Hne.
    unfold StringToBigInt.
    rewrite trim_no_whitespace.
    + destruct (NilEmpty.string_of_uint (Pos.to_uint p)) as [ | c r] eqn:Es;
        [ contradiction | ].
      rewrite !startsWith_2, !startsWith_1.
      cbn [String.eqb Ascii.eqb Bool.eqb andb orb slice_from].
      unfold parse_all_digits. rewrite <- Es.
      rewrite parse_digits_uint. reflexivity.
    + cbn [no_whitespace]. rewrite digits_only_no_whitespace by exact Hd. reflexivity.
Qed.

(* ------------------------------------------------------------------ *)
(** ** The three representations of an integer                         *)
(* ------------------------------------------------------------------ *)

Lemma BigInt_holds (v : amount) (n : Z) : holds v n -> BigInt v = Ok n.
Proof.
  intros H. destruct H as [n | x n Hx | n]; simpl.
  - reflexivity.
  - unfold NumberToBigInt. now rewrite Hx.
  - now rewrite StringToBigInt_decimal.
Qed.

Lemma amount_to_bigint_holds (v : amount) (n : Z) :
  holds v n -> amount_to_bigint v = Ok n.
Proof.
  intros H. destruct v; exact (BigInt_holds _ _ H).
Qed.

(* ------------------------------------------------------------------ *)
(** ** Fixed-width encoders                                            *)
(* ------------------------------------------------------------------ *)

Lemma encodeU8_bytes (x : number) (n : Z) :
  number_int x = Some n -> encodeU8 x = Ok (le_bytes 1 n).
Proof.
  intros H. unfold encodeU8.
  rewrite (truncate_number_int x n H).
  change (le_bytes 1 n) with [n / 256 ^ 0 mod 256].
  change (Uint8Array_from [js_and n 255]) with [ToUint8 (js_and n 255)].
  rewrite int32_low_byte, ToUint8_mod.
  now rewrite Z.pow_0_r, Z.div_1_r.
Qed.

Lemma encodeU16_bytes (x : number) (n : Z) :
  number_int x = Some n -> encodeU16 x = Ok (le_bytes 2 n).
Proof.
  intros H. unfold encodeU16.
  rewrite (truncate_number_int x n H).
  change (le_bytes 2 n) with [n / 256 ^ 0 mod 256; n / 256 ^ 1 mod 256].
  change (Ok [ToUint8 (js_and n 255); ToUint8 (js_and (js_sar n (1 * 8)) 255)]
          = Ok [n / 256 ^ 0 mod 256; n / 256 ^ 1 mod 256]).
  rewrite int32_low_byte, int32_byte, !ToUint8_mod by lia.
  now rewrite Z.pow_0_r, Z.div_1_r.
Qed.

Lemma encodeU32_bytes (x : number) (n : Z) :
  number_int x = Some n -> encodeU32 x = Ok (le_bytes 4 n).
Proof.
  intros H. unfold encodeU32.
  rewrite (truncate_number_int x n H).
  change (Ok [ToUint8 (js_and n 255); ToUint8 (js_and (js_sar n (1 * 8)) 255);
              ToUint8 (js_and (js_sar n (2 * 8)) 255);
              ToUint8 (js_and (js_sar n (3 * 8)) 255)]
          = Ok [n / 256 ^ 0 mod 256; n / 256 ^ 1 mod 256;
                n / 256 ^ 2 mod 256; n / 256 ^ 3 mod 256]).
  rewrite int32_low_byte, !int32_byte, !ToUint8_mod by lia.
  now rewrite Z.pow_0_r, Z.div_1_r.
Qed.

Lemma encodeU64_bytes (v : amount) (n : Z) :
  holds v n -> encodeU64 v = Ok (le_bytes 8 n).
Proof.
  intros H. unfold encodeU64.
  rewrite (BigInt_holds v n H). unfold bind.
  now rewrite encode_bigint_loop_spec.
Qed.

Lemma bigint_of_string_or_bigint_holds (v : amount) (n : Z) :
  holds v n -> (forall x, v <> ANumber x) -> bigint_of_string_or_bigint v = Ok n.
Proof.
  intros H Hty. destruct v as [x | s | z]; simpl.
  - now destruct (Hty x).
  - exact (BigInt_holds _ _ H).
  - inversion H; subst. reflexivity.
Qed.

Lemma encodeU128_bytes (v : amount) (n : Z) :
  holds v n -> (forall x, v <> ANumber x) -> encodeU128 v = Ok (le_bytes 16 n).
Proof.
  intros H Hty. unfold encodeU128.
  rewrite (bigint_of_string_or_bigint_holds v n H Hty). unfold bind.
  now rewrite encode_bigint_loop_spec.
Qed.

Lemma encodeU256_bytes (v : amount) (n : Z) :
  holds v n -> (forall x, v <> ANumber x) -> encodeU256 v = Ok (le_bytes 32 n).
Proof.
  intros H Hty. unfold encodeU256.
  rewrite (bigint_of_string_or_bigint_holds v n H Hty). unfold bind.
  now rewrite encode_bigint_loop_spec.
Qed.

Lemma width_bits_bytes (w : width) : 2 ^ width_bits w = 256 ^ Z.of_nat (width_bytes w).
Proof. destruct w; reflexivity. Qed.

(* ------------------------------------------------------------------ *)
(** ** [decodeU64]                                                     *)
(* ------------------------------------------------------------------ *)

Lemma le_value_app (l1 l2 : list Z) :
  le_value (l1 ++ l2) = le_value l1 + 256 ^ Z.of_nat (length l1) * le_value l2.
Proof.
  induction l1 as [ | b l1 IH].
  - cbn [app le_value length Z.of_nat]. rewrite Z.pow_0_r. lia.
  - cbn [app le_value length]. rewrite IH.
    rewrite Nat2Z.inj_succ, Z.pow_succ_r by lia. ring.
Qed.

Lemma le_value_bound (l : list Z) :
  Forall is_byte l -> 0 <= le_value l < 256 ^ Z.of_nat (length l).
Proof.
  induction 1 as [ | b l Hb _ IH].
  - simpl. lia.
  - cbn [le_value length]. rewrite Nat2Z.inj_succ, Z.pow_succ_r by lia.
    unfold is_byte in Hb. lia.
Qed.

Lemma le_value_zeros (m : nat) : le_value (repeat 0 m) = 0.
Proof. induction m as [ | m IH]; simpl; [ reflexivity | ]. rewrite IH. reflexivity. Qed.

Lemma firstn_snoc {A : Type} (l : list A) (k : nat) (b : A) :
  nth_error l k = Some b -> firstn (S k) l = firstn k l ++ [b].
Proof.
  revert k. induction l as [ | a l IH]; intros [ | k] H; simpl in *; try discriminate.
  - now inversion H.
  - f_equal. now apply IH.
Qed.

Lemma Forall_firstn_byte (k : nat) (l : list Z) :
  Forall is_byte l -> Forall is_byte (firstn k l).
Proof.
  intros H. revert k. induction H as [ | b l Hb _ IH]; intros [ | k]; simpl; auto.
Qed.

(** An [|] that meets no set bit is an addition. *)
Lemma lor_shift_add (acc b s : Z) :
  0 <= s -> 0 <= acc < 2 ^ s -> Z.lor acc (Z.shiftl b s) = acc + b * 2 ^ s.
Proof.
  intros Hs Hacc.
  rewrite <- Z.shiftl_mul_pow2 by lia.
  apply Z.or_to_plus.
  apply Z.bits_inj'. intros j Hj.
  rewrite Z.land_spec, Z.bits_0.
  destruct (Z.ltb_spec j s).
  - rewrite Z.shiftl_spec_low by lia. apply andb_false_r.
  - rewrite <- (Z.mod_small acc (2 ^ s)) by lia.
    rewrite Z.mod_pow2_bits_high by lia. reflexivity.
Qed.

Lemma decodeU64_loop_spec (bytes : Uint8Array) (fuel k : nat) :
  Forall is_byte bytes -> (fuel + k = 8)%nat ->
  decodeU64_loop fuel bytes (Z.of_nat k) (le_value (firstn k bytes))
  = Ok (le_value (firstn 8 bytes)).
Proof.
  intros Hb. revert k.
  induction fuel as [ | fuel IH]; intros k Hk; cbn [decodeU64_loop].
  - now replace k with 8%nat by lia.
  - unfold array_length.
    destruct (Z.ltb_spec (Z.of_nat k) 8); [ | lia ].
    destruct (Z.ltb_spec (Z.of_nat k) (Z.of_nat (length bytes))) as [Hlt | Hge];
      cbn [andb].
    + unfold array_get.
      destruct (Z.ltb_spec (Z.of_nat k) 0); [ lia | ].
      rewrite Nat2Z.id.
      destruct (nth_error bytes k) as [b | ] eqn:Hnth.
      * replace (Z.of_nat k + 1) with (Z.of_nat (S k)) by lia.
        specialize (IH (S k) ltac:(lia)).
        rewrite (firstn_snoc bytes k b Hnth), le_value_app in IH.
        rewrite length_firstn, Nat.min_l in IH by lia.
        cbn [le_value] in IH.
        rewrite <- IH. f_equal.
        pose proof (le_value_bound (firstn k bytes) (Forall_firstn_byte k bytes Hb)) as Hbound.
        rewrite length_firstn, Nat.min_l in Hbound by lia.
        rewrite pow256 in * by lia.
        replace (Z.of_nat k * 8) with (8 * Z.of_nat k) by lia.
        rewrite lor_shift_add by lia. ring.
      * apply nth_error_None in Hnth. lia.
    + rewrite !firstn_all2 by lia. reflexivity.
Qed.

(** [decodeU64] reads the first eight bytes, fewer if fewer are there. *)
Lemma decodeU64_value (bytes : Uint8Array) :
  Forall is_byte bytes -> decodeU64 bytes = Ok (le_value (firstn 8 bytes)).
Proof.
  intros Hb. exact (decodeU64_loop_spec bytes 8 0 Hb eq_refl).
Qed.

Lemma le_value_le_bytes_from (v : Z) (k s : nat) :
  le_value (map (fun i => v / 256 ^ Z.of_nat i mod 256) (seq s k))
  = (v / 256 ^ Z.of_nat s) mod 256 ^ Z.of_nat k.
Proof.
  revert s. induction k as [ | k IH]; intros s.
  - simpl. now rewrite Z.mod_1_r.
  - cbn [seq map le_value]. rewrite IH.
    rewrite (Nat2Z.inj_succ k), Z.pow_succ_r by lia.
    rewrite Nat2Z.inj_succ, Z.pow_succ_r by lia.
    rewrite (Z.mul_comm 256 (256 ^ Z.of_nat s)).
    rewrite <- Z.div_div by lia.
    set (q := v / 256 ^ Z.of_nat s).
    rewrite Z.rem_mul_r by lia. reflexivity.
Qed.

Lemma le_value_le_bytes (k : nat) (v : Z) :
  le_value (le_bytes k v) = v mod 256 ^ Z.of_nat k.
Proof.
  unfold le_bytes. rewrite le_value_le_bytes_from.
  now rewrite Z.pow_0_r, Z.div_1_r.
Qed.

(** C1, as the code has it. No encoder checks the range of its argument:
    for every width [w] and every integer [n] handed over in a
    representation the encoder's parameter admits, the call returns (it does
    not throw) the [w / 8] little-endian bytes of [n mod 2^w]. A value at or
    above [2^w], or below zero, is silently reduced. *)
Theorem encoder_truncates (w : width) (v : amount) (n : Z) :
  holds v n -> encoder w v <> None ->
  encoder w v = Some (Ok (le_bytes (width_bytes w) (n mod 2 ^ width_bits w))).
Proof.
  intros H Hty.
  rewrite width_bits_bytes, le_bytes_mod.
  destruct w, v as [x | s | z]; cbn [encoder] in *; try congruence;
    cbn [width_bytes]; f_equal;
    try (inversion H; subst;
         first [ now apply encodeU8_bytes
               | now apply encodeU16_bytes
               | now apply encodeU32_bytes ]);
    first [ now apply encodeU64_bytes
          | apply encodeU128_bytes; [ exact H | discriminate ]
          | apply encodeU256_bytes; [ exact H | discriminate ] ].
Qed.

Lemma encoder_truncates_witness :
  holds (ANumber (Z2number (-2))) (-2) /\
  encoder W32 (ANumber (Z2number (-2))) <> None /\
  encoder W32 (ANumber (Z2number (-2))) = Some (Ok [254; 255; 255; 255]).
Proof.
  assert (H : holds (ANumber (Z2number (-2))) (-2)) by (apply holds_number; reflexivity).
  assert (Hty : encoder W32 (ANumber (Z2number (-2))) <> None) by discriminate.
  split; [ exact H | split; [ exact Hty | ] ].
  exact (encoder_truncates W32 (ANumber (Z2number (-2))) (-2) H Hty).
Defined.

(** C1 fails on the code: [encodeU8(256)] returns the byte [0] and
    [encodeU64(-1n)] returns eight bytes [0xff]. *)
Lemma encoder_out_of_range_returns :
  ~ rejects_out_of_range W8 (ANumber (Z2number 256)) 256 /\
  ~ rejects_out_of_range W64 (ABigInt (-1)) (-1).
Proof.
  split; intros H.
  - assert (E : encoder W8 (ANumber (Z2number 256)) = Some (Throw RangeError)).
    { apply H.
      - apply holds_number. reflexivity.
      - left. vm_compute. discriminate. }
    vm_compute in E. discriminate E.
  - assert (E : encoder W64 (ABigInt (-1)) = Some (Throw RangeError)).
    { apply H.
      - apply holds_bigint.
      - right. lia. }
    vm_compute in E. discriminate E.
Qed.

(** C2. For every integer [0 <= n < 2^64], in any of its representations,
    [encodeU64] returns eight bytes from which [decodeU64] reads [n] back. *)
Theorem decodeU64_encodeU64 (v : amount) (n : Z) :
  holds v n -> 0 <= n < 2 ^ 64 ->
  exists bytes, encodeU64 v = Ok bytes /\ length bytes = 8%nat /\ decodeU64 bytes = Ok n.
Proof.
  intros H Hn.
  exists (le_bytes 8 n).
  split; [ now apply encodeU64_bytes | ].
  split; [ apply le_bytes_length | ].
  rewrite decodeU64_value by apply le_bytes_is_byte.
  rewrite firstn_all2 by (rewrite le_bytes_length; lia).
  rewrite le_value_le_bytes.
  f_equal. apply Z.mod_small.
  change (256 ^ Z.of_nat 8) with (2 ^ 64). exact Hn.
Qed.

Lemma decodeU64_encodeU64_witness :
  holds (ABigInt 18446744073709551615) 18446744073709551615 /\
  0 <= 18446744073709551615 < 2 ^ 64 /\
  exists bytes,
    encodeU64 (ABigInt 18446744073709551615) = Ok bytes /\
    length bytes = 8%nat /\ decodeU64 bytes = Ok 18446744073709551615.
Proof.
  assert (Hn : 0 <= 18446744073709551615 < 2 ^ 64) by (vm_compute; split; congruence).
  split; [ apply holds_bigint | split; [ exact Hn | ] ].
  exact (decodeU64_encodeU64 _ _ (holds_bigint _) Hn).
Defined.

(** C6. For every byte sequence shorter than eight bytes [decodeU64] returns,
    without throwing, the integer whose low-order little-endian bytes are the
    bytes present and whose missing high bytes are zero: the value it returns
    for the sequence padded with zero bytes to eight. *)
Theorem decodeU64_short (bytes : Uint8Array) :
  Forall is_byte bytes -> (length bytes < 8)%nat ->
  decodeU64 bytes = Ok (le_value (bytes ++ repeat 0 (8 - length bytes))) /\
  decodeU64 bytes = decodeU64 (bytes ++ repeat 0 (8 - length bytes)) /\
  le_value (bytes ++ repeat 0 (8 - length bytes)) = le_value bytes.
Proof.
  intros Hb Hlen.
  assert (Hz : Forall is_byte (bytes ++ repeat 0 (8 - length bytes))).
  { apply Forall_app. split; [ exact Hb | ].
    apply Forall_forall. intros b Hin. apply repeat_spec in Hin. subst b.
    unfold is_byte. lia. }
  assert (Hv : le_value (bytes ++ repeat 0 (8 - length bytes)) = le_value bytes).
  { rewrite le_value_app, le_value_zeros. lia. }
  rewrite (decodeU64_value _ Hb), (decodeU64_value _ Hz).
  rewrite firstn_all2 by lia.
  rewrite firstn_all2 by (rewrite length_app, repeat_length; lia).
  rewrite Hv. auto.
Qed.

Lemma decodeU64_short_witness :
  Forall is_byte [1; 2] /\ (length [1; 2] < 8)%nat /\
  decodeU64 [1; 2] = Ok 513.
Proof.
  assert (Hb : Forall is_byte [1; 2]) by (repeat constructor; unfold is_byte; lia).
  assert (Hl : (length [1; 2] < 8)%nat) by (simpl; lia).
  split; [ exact Hb | split; [ exact Hl | ] ].
  exact (proj1 (decodeU64_short [1; 2] Hb Hl)).
Defined.

(* ------------------------------------------------------------------ *)
(** ** ULEB128                                                         *)
(* ------------------------------------------------------------------ *)

Lemma js_and_127 (v : Z) : js_and v 127 = v mod 128.
Proof.
  unfold js_and.
  rewrite (wrap32_small 127) by lia.
  change 127 with (Z.ones 7). rewrite Z.land_ones by lia.
  apply Z.bits_inj'. intros j Hj.
  change 128 with (2 ^ 7).
  rewrite !Z.testbit_mod_pow2 by lia.
  destruct (Z.ltb_spec j 7); [ | reflexivity ].
  rewrite !andb_true_l. apply wrap32_testbit. lia.
Qed.

Lemma js_sar_7 (v : Z) : 0 <= v < 2 ^ 31 -> js_sar v 7 = v / 128.
Proof.
  intros H. unfold js_sar.
  rewrite wrap32_small by lia.
  change (7 mod 32) with 7.
  now rewrite Z.shiftr_div_pow2 by lia.
Qed.

Lemma js_or_128 (d : Z) : 0 <= d < 128 -> js_or d 128 = d + 128.
Proof.
  intros H. unfold js_or.
  rewrite !wrap32_small by lia.
  change 128 with (Z.shiftl 1 7) at 1.
  rewrite lor_shift_add by lia. reflexivity.
Qed.

Lemma land_128_low (d : Z) : 0 <= d < 128 -> Z.land d 128 = 0.
Proof.
  intros H. apply Z.bits_inj'. intros j Hj.
  rewrite Z.land_spec, Z.bits_0.
  change 128 with (2 ^ 7). rewrite Z.pow2_bits_eqb by lia.
  destruct (Z.eqb_spec 7 j) as [<- | _]; [ | apply andb_false_r ].
  rewrite <- (Z.mod_small d (2 ^ 7)) by lia.
  rewrite Z.mod_pow2_bits_high by lia. reflexivity.
Qed.

(** The continuation bit of a byte [d + 128 * c], [c] being [0] or [1]. *)
Lemma js_and_128 (d c : Z) :
  0 <= d < 128 -> 0 <= c <= 1 -> js_and (d + 128 * c) 128 = 128 * c.
Proof.
  intros Hd Hc. unfold js_and.
  rewrite !wrap32_small by lia.
  assert (Hc' : c = 0 \/ c = 1) by lia.
  destruct Hc' as [-> | ->].
  - rewrite Z.mul_0_r, Z.add_0_r. now apply land_128_low.
  - rewrite <- js_or_128 by lia. unfold js_or.
    rewrite !wrap32_small by lia.
    rewrite Z.land_lor_distr_l, land_128_low by lia.
    reflexivity.
Qed.

Lemma js_shl_small (a s : Z) :
  0 <= a -> 0 <= s < 32 -> a * 2 ^ s < 2 ^ 31 -> js_shl a s = a * 2 ^ s.
Proof.
  intros Ha Hs Hlt. unfold js_shl.
  assert (a < 2 ^ 31).
  { assert (1 <= 2 ^ s) by (apply Z.lt_pred_le, Z.pow_pos_nonneg; lia). nia. }
  rewrite (wrap32_small a) by lia.
  rewrite (Z.mod_small s 32) by lia.
  rewrite Z.shiftl_mul_pow2 by lia.
  apply wrap32_small.
  assert (0 <= 2 ^ s) by (apply Z.pow_nonneg; lia). nia.
Qed.

Lemma js_or_disjoint (r a s : Z) :
  0 <= s -> 0 <= r < 2 ^ s -> 0 <= a -> r + a * 2 ^ s < 2 ^ 31 ->
  js_or r (a * 2 ^ s) = r + a * 2 ^ s.
Proof.
  intros Hs Hr Ha Hlt. unfold js_or.
  assert (0 <= a * 2 ^ s) by (apply Z.mul_nonneg_nonneg; lia).
  rewrite !wrap32_small by lia.
  rewrite <- Z.shiftl_mul_pow2 by lia.
  rewrite lor_shift_add by lia.
  now rewrite Z.shiftl_mul_pow2 by lia.
Qed.

Lemma uleb128_digits_is_byte (fuel : nat) (v : Z) :
  Forall is_byte (uleb128_digits fuel v).
Proof.
  revert v. induction fuel as [ | fuel IH]; intros v; cbn [uleb128_digits].
  - constructor.
  - pose proof (Z.mod_pos_bound v 128 ltac:(lia)).
    destruct (v / 128 =? 0); repeat constructor; unfold is_byte; try lia.
    apply IH.
Qed.

(** Five groups of seven bits cover every non-negative 32-bit value. *)
Lemma five_rounds_cover_int32 (v : Z) : v < 2 ^ 31 -> v < 128 ^ Z.of_nat 5.
Proof.
  intros H. change (128 ^ Z.of_nat 5) with (2 ^ 35).
  assert (2 ^ 31 < 2 ^ 35) by (apply Z.pow_lt_mono_r; lia). lia.
Qed.

(** The encoding loop on a non-negative 32-bit value. *)
Lemma encodeUleb128_loop_digits (fuel : nat) (v : Z) (acc : list Z) :
  fuel <> O -> 0 <= v < 2 ^ 31 -> v < 128 ^ Z.of_nat fuel ->
  encodeUleb128_loop fuel v acc = Some (acc ++ uleb128_digits fuel v).
Proof.
  revert v acc. induction fuel as [ | fuel IH]; intros v acc Hf Hv Hlt.
  - contradiction.
  - cbn [encodeUleb128_loop uleb128_digits].
    rewrite js_and_127, js_sar_7 by lia.
    pose proof (Z.mod_pos_bound v 128 ltac:(lia)) as Hm.
    destruct (Z.eqb_spec (v / 128) 0) as [Hz | Hnz]; cbn [negb].
    + reflexivity.
    + rewrite js_or_128 by lia.
      assert (Hq : 0 <= v / 128 < 2 ^ 31).
      { split; [ apply Z.div_pos; lia | ].
        apply Z.div_lt_upper_bound; lia. }
      assert (Hq' : v / 128 < 128 ^ Z.of_nat fuel).
      { apply Z.div_lt_upper_bound; [ lia | ].
        rewrite Nat2Z.inj_succ, Z.pow_succ_r in Hlt by lia. exact Hlt. }
      rewrite IH.
      * now rewrite <- app_assoc.
      * intros ->. simpl in Hq'. lia.
      * exact Hq.
      * exact Hq'.
Qed.

Lemma array_get_app_middle {A : Type} (pre rest : list A) (b : A) (i : Z) :
  i = Z.of_nat (length pre) -> array_get (pre ++ b :: rest) i = Some b.
Proof.
  intros ->. unfold array_get.
  destruct (Z.ltb_spec (Z.of_nat (length pre)) 0); [ lia | ].
  rewrite Nat2Z.id, nth_error_app2 by lia.
  now rewrite Nat.sub_diag.
Qed.

(** One round of the decoding loop on a byte [d + 128 * c] found at the
    cursor, [c] being the continuation bit. *)
Lemma decodeUleb128_loop_step (dfuel : nat) (pre rest : list Z) (d c : Z)
    (offset result shift done : Z) :
  0 <= d < 128 -> 0 <= c <= 1 ->
  0 <= shift < 32 -> 0 <= result < 2 ^ shift ->
  (d + 1) * 2 ^ shift <= 2 ^ 31 ->
  offset + done = Z.of_nat (length pre) ->
  decodeUleb128_loop (S dfuel) (pre ++ (d + 128 * c) :: rest) offset result shift done
  = if c =? 0
    then Some {| value := result + d * 2 ^ shift; bytesRead := done + 1 |}
    else decodeUleb128_loop dfuel (pre ++ (d + 128 * c) :: rest) offset
           (result + d * 2 ^ shift) (shift + 7) (done + 1).
Proof.
  intros Hd Hc Hs Hr Hfit Hpos.
  cbn [decodeUleb128_loop].
  unfold array_length. rewrite length_app. cbn [length].
  destruct (Z.ltb_spec (offset + done) (Z.of_nat (length pre + S (length rest))));
    [ | lia ].
  rewrite (array_get_app_middle pre rest (d + 128 * c) (offset + done) Hpos).
  cbn [int_of_element].
  rewrite js_and_127.
  replace ((d + 128 * c) mod 128) with d
    by (replace (d + 128 * c) with (d + c * 128) by lia;
        rewrite Z_mod_plus_full; symmetry; apply Z.mod_small; lia).
  assert (Hp : 0 < 2 ^ shift) by (apply Z.pow_pos_nonneg; lia).
  rewrite js_shl_small by nia.
  rewrite js_or_disjoint by nia.
  rewrite js_and_128 by lia.
  assert (Hc' : c = 0 \/ c = 1) by lia.
  destruct Hc' as [-> | ->]; reflexivity.
Qed.

(** The decoding loop over the bytes of [uleb128_digits], wherever they sit
    in the array. *)
Lemma decodeUleb128_loop_digits (fuel : nat) :
  forall (v : Z) (pre post : list Z) (offset done result shift : Z) (dfuel : nat),
    fuel <> O -> 0 <= v < 128 ^ Z.of_nat fuel ->
    0 <= shift <= 31 -> v < 2 ^ (31 - shift) -> 0 <= result < 2 ^ shift ->
    offset + done = Z.of_nat (length pre) ->
    (length (uleb128_digits fuel v) <= dfuel)%nat ->
    decodeUleb128_loop dfuel (pre ++ uleb128_digits fuel v ++ post) offset result shift done
    = Some {| value := result + v * 2 ^ shift;
              bytesRead := done + Z.of_nat (length (uleb128_digits fuel v)) |}.
Proof.
  induction fuel as [ | fuel IH];
    intros v pre post offset done result shift dfuel Hf Hv Hs Hfit Hr Hpos Hdf.
  - contradiction.
  - cbn [uleb128_digits] in *.
    pose proof (Z.mod_pos_bound v 128 ltac:(lia)) as Hm.
    pose proof (Z.div_mod v 128 ltac:(lia)) as Hdm.
    assert (Hp : 0 < 2 ^ shift) by (apply Z.pow_pos_nonneg; lia).
    assert (Hpq : 2 ^ shift * 2 ^ (31 - shift) = 2 ^ 31).
    { rewrite <- Z.pow_add_r by lia. f_equal. lia. }
    assert (Hstep : (v mod 128 + 1) * 2 ^ shift <= 2 ^ 31) by nia.
    destruct (Z.eqb_spec (v / 128) 0) as [Hz | Hnz].
    + destruct dfuel as [ | dfuel]; [ simpl in Hdf; lia | ].
      replace (v mod 128) with (v mod 128 + 128 * 0) at 1 by lia.
      cbn [app].
      rewrite decodeUleb128_loop_step by lia.
      cbn [Z.eqb length]. do 2 f_equal. nia.
    + destruct dfuel as [ | dfuel]; [ simpl in Hdf; lia | ].
      replace (v mod 128 + 128) with (v mod 128 + 128 * 1) by lia.
      cbn [app].
      assert (Hq : 1 <= v / 128) by (pose proof (Z.div_pos v 128); lia).
      assert (Hsh : shift <= 24).
      { destruct (Z.le_gt_cases shift 24) as [ | Hgt]; [ assumption | exfalso ].
        assert (2 ^ (31 - shift) <= 2 ^ 6) by (apply Z.pow_le_mono_r; lia).
        lia. }
      rewrite decodeUleb128_loop_step by lia.
      cbn [Z.eqb].
      assert (Hsplit : 2 ^ (31 - shift) = 128 * 2 ^ (31 - (shift + 7))).
      { change 128 with (2 ^ 7). rewrite <- Z.pow_add_r by lia. f_equal. lia. }
      assert (Hsplit' : 2 ^ (shift + 7) = 2 ^ shift * 128).
      { rewrite Z.pow_add_r by lia. reflexivity. }
      replace (pre ++ (v mod 128 + 128 * 1) :: uleb128_digits fuel (v / 128) ++ post)
        with ((pre ++ [v mod 128 + 128 * 1]) ++ uleb128_digits fuel (v / 128) ++ post)
        by (now rewrite <- app_assoc).
      assert (Hq' : v / 128 < 128 ^ Z.of_nat fuel).
      { apply Z.div_lt_upper_bound; [ lia | ].
        rewrite Nat2Z.inj_succ, Z.pow_succ_r in Hv by lia. lia. }
      rewrite IH.
      * cbn [length]. do 2 f_equal; [ nia | lia ].
      * intros ->. simpl in Hq'. lia.
      * lia.
      * lia.
      * apply Z.div_lt_upper_bound; lia.
      * nia.
      * rewrite length_app. cbn [length]. lia.
      * cbn [length] in Hdf. lia.
Qed.

Lemma Uint8Array_from_bytes (l : list Z) : Forall is_byte l -> Uint8Array_from l = l.
Proof.
  unfold Uint8Array_from.
  induction 1 as [ | b l Hb _ IH]; simpl; [ reflexivity | ].
  now rewrite IH, ToUint8_byte.
Qed.

(** The loop reads its argument through ToInt32 only. *)
Lemma encodeUleb128_loop_wrap32 (fuel : nat) (v : Z) (acc : list Z) :
  encodeUleb128_loop fuel v acc = encodeUleb128_loop fuel (wrap32 v) acc.
Proof.
  destruct fuel as [ | fuel]; [ reflexivity | ].
  cbn [encodeUleb128_loop]. unfold js_and, js_sar.
  now rewrite wrap32_idem.
Qed.

Lemma encodeUleb128_loop_mono (fuel : nat) :
  forall (v : Z) (acc bytes : list Z),
    encodeUleb128_loop fuel v acc = Some bytes ->
    forall fuel', (fuel <= fuel')%nat -> encodeUleb128_loop fuel' v acc = Some bytes.
Proof.
  induction fuel as [ | fuel IH]; intros v acc bytes H fuel' Hle.
  - discriminate H.
  - destruct fuel' as [ | fuel']; [ lia | ].
    cbn [encodeUleb128_loop] in *.
    destruct (negb (js_sar v 7 =? 0)).
    + apply (IH _ _ _ H). lia.
    + exact H.
Qed.

(** Whenever ToInt32 of the argument is not negative, five rounds finish the
    loop and more fuel changes nothing. *)
Lemma encodeUleb128_fuel_enough (x : number) (fuel : nat) :
  0 <= ToInt32 x -> (5 <= fuel)%nat ->
  encodeUleb128_fuel fuel x = encodeUleb128 x /\ encodeUleb128 x <> None.
Proof.
  intros Hx Hf. unfold encodeUleb128, encodeUleb128_fuel, ToInt32 in *.
  pose proof (wrap32_range (truncate x)) as Hr.
  assert (H5 : encodeUleb128_loop 5 (truncate x) []
               = Some ([] ++ uleb128_digits 5 (wrap32 (truncate x)))).
  { rewrite encodeUleb128_loop_wrap32.
    apply encodeUleb128_loop_digits; [ discriminate | lia | ].
    apply five_rounds_cover_int32; lia. }
  rewrite (encodeUleb128_loop_mono 5 _ _ _ H5 fuel Hf), H5.
  split; [ reflexivity | discriminate ].
Qed.

(** Whenever ToInt32 of the argument is negative, the loop never ends: the
    arithmetic shift keeps the value negative. *)
Lemma encodeUleb128_loop_negative (fuel : nat) :
  forall (v : Z) (acc : list Z), wrap32 v < 0 -> encodeUleb128_loop fuel v acc = None.
Proof.
  induction fuel as [ | fuel IH]; intros v acc Hv; [ reflexivity | ].
  cbn [encodeUleb128_loop].
  pose proof (wrap32_range v) as Hr.
  assert (Hq : - 2 ^ 31 <= js_sar v 7 < 0).
  { unfold js_sar. change (7 mod 32) with 7.
    rewrite Z.shiftr_div_pow2 by lia.
    split.
    - apply Z.div_le_lower_bound; lia.
    - apply Z.div_lt_upper_bound; lia. }
  destruct (Z.eqb_spec (js_sar v 7) 0) as [E | _]; [ lia | ].
  cbn [negb]. apply IH.
  rewrite wrap32_small; lia.
Qed.

Lemma encodeUleb128_diverges (x : number) (fuel : nat) :
  ToInt32 x < 0 -> encodeUleb128_fuel fuel x = None.
Proof.
  intros Hx. unfold encodeUleb128_fuel.
  now rewrite encodeUleb128_loop_negative.
Qed.

(** The bytes [encodeUleb128] returns for an integer below [2^31]. *)
Lemma encodeUleb128_digits (x : number) (k : Z) :
  number_int x = Some k -> 0 <= k < 2 ^ 31 ->
  encodeUleb128 x = Some (uleb128_digits 5 k).
Proof.
  intros Hx Hk. unfold encodeUleb128, encodeUleb128_fuel.
  rewrite (truncate_number_int x k Hx).
  rewrite encodeUleb128_loop_digits.
  - cbn [app option_map].
    now rewrite Uint8Array_from_bytes by apply uleb128_digits_is_byte.
  - discriminate.
  - exact Hk.
  - apply five_rounds_cover_int32; lia.
Qed.

(** Decoding those bytes at [offset], whatever surrounds them. *)
Lemma decodeUleb128_digits (k : Z) (pre post : list Z) :
  0 <= k < 2 ^ 31 ->
  decodeUleb128 (pre ++ uleb128_digits 5 k ++ post) (array_length pre)
  = Some {| value := k; bytesRead := array_length (uleb128_digits 5 k) |}.
Proof.
  intros Hk. unfold decodeUleb128.
  rewrite (decodeUleb128_loop_digits 5 k pre post (array_length pre) 0 0 0).
  - do 2 f_equal. lia.
  - discriminate.
  - split; [ lia | apply five_rounds_cover_int32; lia ].
  - lia.
  - exact (proj2 Hk).
  - simpl. lia.
  - unfold array_length. lia.
  - rewrite !length_app. lia.
Qed.

(** C3, as the code has it. For every integer [0 <= k < 2^31] held by the
    argument, [encodeUleb128] returns bytes from which [decodeUleb128] reads
    back the value [k] and a count of bytes read equal to their number; for
    [k = 0] the bytes are the single byte [0x00], decoded as value [0] with
    one byte read. (The 32-bit operators of the code bound the range.) *)
Theorem uleb128_round_trip (x : number) (k : Z) :
  number_int x = Some k -> 0 <= k < 2 ^ 31 ->
  exists bytes,
    encodeUleb128 x = Some bytes /\
    decodeUleb128 bytes 0 = Some {| value := k; bytesRead := array_length bytes |} /\
    (k = 0 -> bytes = [0] /\
              decodeUleb128 [0] 0 = Some {| value := 0; bytesRead := 1 |}).
Proof.
  intros Hx Hk.
  exists (uleb128_digits 5 k).
  split; [ now apply encodeUleb128_digits | ].
  split.
  - pose proof (decodeUleb128_digits k [] [] Hk) as H.
    cbn [app] in H. rewrite app_nil_r in H. exact H.
  - intros ->. split; reflexivity.
Qed.

Lemma uleb128_round_trip_witness :
  number_int (Z2number 300) = Some 300 /\ 0 <= 300 < 2 ^ 31 /\
  exists bytes,
    encodeUleb128 (Z2number 300) = Some bytes /\
    decodeUleb128 bytes 0 = Some {| value := 300; bytesRead := array_length bytes |} /\
    (300 = 0 -> bytes = [0] /\
                decodeUleb128 [0] 0 = Some {| value := 0; bytesRead := 1 |}).
Proof.
  assert (Hk : 0 <= 300 < 2 ^ 31) by (vm_compute; split; congruence).
  split; [ reflexivity | split; [ exact Hk | ] ].
  exact (uleb128_round_trip (Z2number 300) 300 eq_refl Hk).
Defined.

(** C3 fails on the code from [2^31] on: [encodeUleb128(2^32)] is the single
    byte [0x00], which decodes to [0]; [encodeUleb128(2^31)] never returns. *)
Lemma uleb128_round_trip_fails :
  ~ uleb128_round_trip_claim (Z2number 4294967296) 4294967296 /\
  ~ uleb128_round_trip_claim (Z2number 2147483648) 2147483648.
Proof.
  split; intros H.
  - destruct (H eq_refl ltac:(lia)) as (fuel & bytes & He & Hd).
    destruct fuel as [ | fuel]; [ discriminate He | ].
    vm_compute in He. injection He as <-.
    vm_compute in Hd. discriminate Hd.
  - destruct (H eq_refl ltac:(lia)) as (fuel & bytes & He & _).
    rewrite encodeUleb128_diverges in He; [ discriminate He | ].
    vm_compute. reflexivity.
Qed.

(* ------------------------------------------------------------------ *)
(** ** [decodeUleb128] at or past the end                              *)
(* ------------------------------------------------------------------ *)

(** The fuel [decodeUleb128] hands to its loop is never exhausted. *)
Lemma decodeUleb128_loop_total (fuel : nat) :
  forall (bytes : Uint8Array) (offset result shift done : Z),
    0 <= offset -> 0 <= done ->
    array_length bytes < Z.of_nat fuel + done ->
    decodeUleb128_loop fuel bytes offset result shift done <> None.
Proof.
  induction fuel as [ | fuel IH]; intros bytes offset result shift done Ho Hd Hf.
  - cbn [decodeUleb128_loop].
    destruct (Z.ltb_spec (offset + done) (array_length bytes)); [ lia | discriminate ].
  - cbn [decodeUleb128_loop].
    destruct (Z.ltb_spec (offset + done) (array_length bytes)); [ | discriminate ].
    destruct (js_and _ 128 =? 0); [ discriminate | ].
    apply IH; lia.
Qed.

Lemma decodeUleb128_total (bytes : Uint8Array) (offset : Z) :
  decodeUleb128 bytes offset <> None.
Proof.
  unfold decodeUleb128.
  destruct (Z.ltb_spec offset 0) as [Hneg | Hpos].
  - cbn [decodeUleb128_loop].
    destruct (offset + 0 <? array_length bytes); [ | discriminate ].
    unfold array_get.
    destruct (Z.ltb_spec (offset + 0) 0); [ | lia ].
    cbn [int_of_element].
    replace (js_and 0 128 =? 0) with true by reflexivity.
    discriminate.
  - apply decodeUleb128_loop_total; unfold array_length; lia.
Qed.

(** C10. For every byte sequence and every offset at or past its end (the
    empty sequence included), [decodeUleb128] returns value [0] with no byte
    read; it does not throw. *)
Theorem decodeUleb128_past_end (bytes : Uint8Array) (offset : Z) :
  array_length bytes <= offset ->
  decodeUleb128 bytes offset = Some {| value := 0; bytesRead := 0 |}.
Proof.
  intros H. unfold decodeUleb128. cbn [decodeUleb128_loop].
  destruct (Z.ltb_spec (offset + 0) (array_length bytes)); [ lia | reflexivity ].
Qed.

Lemma decodeUleb128_past_end_witness :
  array_length [172; 2] <= 2 /\
  decodeUleb128 [172; 2] 2 = Some {| value := 0; bytesRead := 0 |} /\
  decodeUleb128 [] 0 = Some {| value := 0; bytesRead := 0 |}.
Proof.
  assert (H : array_length [172; 2] <= 2) by (vm_compute; congruence).
  split; [ exact H | split ].
  - exact (decodeUleb128_past_end [172; 2] 2 H).
  - apply decodeUleb128_past_end. vm_compute. congruence.
Defined.

(* ------------------------------------------------------------------ *)
(** ** [compareAmounts]                                                *)
(* ------------------------------------------------------------------ *)

(** C8. For integers [a] and [b] handed over as numbers, decimal strings or
    bigints, in any combination, [compareAmounts] returns [-1] when [a < b],
    [1] when [a > b] and [0] when [a = b]. *)
Theorem compareAmounts_sign (ra rb : amount) (a b : Z) :
  holds ra a -> holds rb b ->
  (a < b -> compareAmounts ra rb = Ok (-1)) /\
  (a > b -> compareAmounts ra rb = Ok 1) /\
  (a = b -> compareAmounts ra rb = Ok 0).
Proof.
  intros Ha Hb. unfold compareAmounts.
  rewrite (amount_to_bigint_holds ra a Ha), (amount_to_bigint_holds rb b Hb).
  cbn [bind]. unfold Z.gtb.
  destruct (Z.ltb_spec a b) as [Hlt | Hge].
  - repeat split; intros; try lia; reflexivity.
  - destruct (Z.compare_spec a b) as [Heq | Hlt | Hgt];
      repeat split; intros; try lia; reflexivity.
Qed.

Lemma compareAmounts_sign_witness :
  holds (ANumber (Z2number 1)) 1 /\ holds (AString "2") 2 /\
  holds (ABigInt 5) 5 /\ holds (AString "5") 5 /\
  compareAmounts (ANumber (Z2number 1)) (AString "2") = Ok (-1) /\
  compareAmounts (AString "2") (ANumber (Z2number 1)) = Ok 1 /\
  compareAmounts (ABigInt 5) (AString "5") = Ok 0.
Proof.
  assert (H1 : holds (ANumber (Z2number 1)) 1) by (apply holds_number; reflexivity).
  assert (H2 : holds (AString "2") 2) by exact (holds_string 2).
  assert (H5 : holds (ABigInt 5) 5) by apply holds_bigint.
  assert (H5' : holds (AString "5") 5) by exact (holds_string 5).
  repeat (split; [ assumption | ]).
  split; [ | split ].
  - apply (proj1 (compareAmounts_sign _ _ 1 2 H1 H2)). lia.
  - apply (proj1 (proj2 (compareAmounts_sign _ _ 2 1 H2 H1))). lia.
  - apply (proj2 (proj2 (compareAmounts_sign _ _ 5 5 H5 H5'))). reflexivity.
Defined.

(* ------------------------------------------------------------------ *)
(** ** [isValidAmount]                                                 *)
(* ------------------------------------------------------------------ *)

Lemma number_check_nonneg (x : number) :
  negb (isNaN x) && number_ge0 x = true <-> number_nonneg x.
Proof.
  destruct x as [s | s | | s m e]; cbn; try destruct s; cbn;
    split; intros H; try reflexivity; try exact I; try discriminate H;
    try contradiction.
Qed.

(** C9. Whatever [parseFloat] returns for strings, [isValidAmount] never
    throws (the body of its [try] block returns for every argument), and it
    returns [true] exactly when the value is a non-negative quantity that is
    not NaN; [isValidAmount(-1)] is [false], [isValidAmount(0)] is [true] and
    [isValidAmount(NaN)] is [false]. *)
Theorem isValidAmount_spec (parseFloat : string -> number) (a : amount) :
  (exists b, isValidAmount_try parseFloat a = Ok b) /\
  (isValidAmount parseFloat a = true <-> amount_nonneg parseFloat a) /\
  isValidAmount parseFloat (ANumber (Z2number (-1))) = false /\
  isValidAmount parseFloat (ANumber (Z2number 0)) = true /\
  isValidAmount parseFloat (ANumber NaN) = false.
Proof.
  split; [ | split; [ | repeat split ] ].
  - destruct a; eexists; reflexivity.
  - destruct a as [x | s | z]; unfold isValidAmount; cbn [isValidAmount_try amount_nonneg].
    + apply number_check_nonneg.
    + apply number_check_nonneg.
    + rewrite Z.geb_le. reflexivity.
Qed.

(* ------------------------------------------------------------------ *)
(** ** [convertUnits]                                                  *)
(* ------------------------------------------------------------------ *)

(** Up to [10^22] the powers of ten are binary64 numbers, and [10 ** d]
    holds them exactly. *)
Lemma js_pow10_exact (d : Z) :
  0 <= d <= 22 -> NumberToBigInt (js_pow10 d) = Ok (10 ^ d).
Proof.
  intros H.
  assert (Hn : exists n : nat, (n <= 22)%nat /\ d = Z.of_nat n).
  { exists (Z.to_nat d). split; lia. }
  destruct Hn as (n & Hn & ->).
  do 23 (destruct n as [ | n]; [ vm_compute; reflexivity | ]).
  lia.
Qed.

Lemma pow10_pos (d : Z) : 0 <= d -> 0 < 10 ^ d.
Proof. intros H. apply Z.pow_pos_nonneg; lia. Qed.

(** X28. What [convertUnits] does where its scale factor is exact. The
    factor is computed in floating point ([10 ** decimalDiff]) and is exact
    as long as the two decimal counts differ by at most 22. Within that
    range, for every integer amount in any
    representation: a larger [toDecimals] multiplies by
    [10^(toDecimals - fromDecimals)] exactly, a smaller one divides by
    [10^(fromDecimals - toDecimals)] rounding toward zero (for a non-negative
    amount, the floor), and equal counts return the amount;
    [convertUnits(100, 2, 0)] is [1] and [convertUnits(1, 0, 2)] is [100]. *)
Theorem convertUnits_scales (v : amount) (a fromDecimals toDecimals : Z) :
  holds v a -> Z.abs (toDecimals - fromDecimals) <= 22 ->
  (fromDecimals < toDecimals ->
   convertUnits v fromDecimals toDecimals = Ok (a * 10 ^ (toDecimals - fromDecimals))) /\
  (toDecimals < fromDecimals ->
   convertUnits v fromDecimals toDecimals = Ok (Z.quot a (10 ^ (fromDecimals - toDecimals))) /\
   (0 <= a ->
    Z.quot a (10 ^ (fromDecimals - toDecimals)) = a / 10 ^ (fromDecimals - toDecimals))) /\
  (toDecimals = fromDecimals -> convertUnits v fromDecimals toDecimals = Ok a) /\
  convertUnits (ANumber (Z2number 100)) 2 0 = Ok 1 /\
  convertUnits (ANumber (Z2number 1)) 0 2 = Ok 100.
Proof.
  intros Hv Hd. unfold convertUnits.
  rewrite (amount_to_bigint_holds v a Hv). cbn [bind].
  split; [ | split; [ | split; [ | split; reflexivity ] ] ].
  - intros Hlt.
    destruct (Z.gtb_spec (toDecimals - fromDecimals) 0); [ | lia ].
    rewrite js_pow10_exact by lia. reflexivity.
  - intros Hlt.
    destruct (Z.gtb_spec (toDecimals - fromDecimals) 0); [ lia | ].
    destruct (Z.ltb_spec (toDecimals - fromDecimals) 0); [ | lia ].
    replace (Z.abs (toDecimals - fromDecimals)) with (fromDecimals - toDecimals) by lia.
    rewrite js_pow10_exact by lia. cbn [bind]. unfold bigint_div.
    pose proof (pow10_pos (fromDecimals - toDecimals) ltac:(lia)) as Hp.
    destruct (Z.eqb_spec (10 ^ (fromDecimals - toDecimals)) 0); [ lia | ].
    split; [ reflexivity | ].
    intros Ha. apply Z.quot_div_nonneg; lia.
  - intros ->.
    rewrite Z.sub_diag. reflexivity.
Qed.

Lemma convertUnits_scales_witness :
  holds (AString "12345") 12345 /\ Z.abs (0 - 2) <= 22 /\
  convertUnits (AString "12345") 2 0 = Ok 123.
Proof.
  assert (Hv : holds (AString "12345") 12345) by exact (holds_string 12345).
  assert (Hd : Z.abs (0 - 2) <= 22) by (vm_compute; congruence).
  split; [ exact Hv | split; [ exact Hd | ] ].
  exact (proj1 (proj1 (proj2 (convertUnits_scales _ 12345 2 0 Hv Hd))
                  ltac:(vm_compute; reflexivity))).
Defined.

(** C7. The code misses the claim at [convertUnits(1n, 0, 23)]: the factor
    is [BigInt(10 ** 23)], and the floating-point power [10 ** 23] is the
    number 99999999999999991611392, so the result is that number and not
    [1 * 10^23], the exact scaling the claim states and the bigint
    arithmetic of the function is there to give. *)
Lemma convertUnits_inexact_at_23 :
  ~ convertUnits_exact_claim (ABigInt 1) 1 0 23 /\
  convertUnits (ABigInt 1) 0 23 = Ok 99999999999999991611392.
Proof.
  split; [ | vm_compute; reflexivity ].
  intros H.
  destruct (H (holds_bigint _) ltac:(lia) ltac:(lia) ltac:(lia)) as [Hup _].
  specialize (Hup ltac:(lia)).
  vm_compute in Hup. discriminate Hup.
Qed.

(** No binary64 number holds [10^23], whatever the rounding of [**]: its odd
    part [5^23] needs more than 53 bits. *)
Lemma no_binary64_holds_1e23 (x : number) :
  valid_binary 53 1024 x = true -> number_int x <> Some (10 ^ 23).
Proof.
  destruct x as [s | s | | s m e]; cbn [number_int valid_binary]; try discriminate.
  intros Hvalid Hint.
  unfold bounded, canonical_mantissa in Hvalid.
  apply andb_true_iff in Hvalid. destruct Hvalid as [Hcan _].
  apply Z.eqb_eq in Hcan.
  destruct ((0 <=? e) || (Z.pos m mod 2 ^ (- e) =? 0)) eqn:Hi; [ | discriminate ].
  injection Hint as Hval0.
  assert (Hval : cond_Zopp s (Z.shiftl (Z.pos m) e) = 10 ^ 23) by exact Hval0.
  clear Hval0.
  destruct s; cbn [cond_Zopp] in Hval.
  { pose proof (Z.shiftl_nonneg (Z.pos m) e). lia. }
  (* the mantissa has at most 53 bits *)
  assert (Hm : Z.pos m < 2 ^ 53).
  { unfold fexp, emin in Hcan.
    assert (Hdig : Z.pos (digits2_pos m) <= 53) by lia.
    clear - Hdig.
    assert (Hgen : forall p, Z.pos p < 2 ^ Z.pos (digits2_pos p)).
    { induction p as [p IH | p IH | ]; cbn [digits2_pos];
        rewrite ?Pos2Z.inj_succ, ?Z.pow_succ_r by lia; lia. }
    specialize (Hgen m).
    assert (2 ^ Z.pos (digits2_pos m) <= 2 ^ 53) by (apply Z.pow_le_mono_r; lia).
    lia. }
  destruct (Z.le_gt_cases e 23) as [Hle | Hgt].
  - (* m * 2^e with e <= 23 is below 2^53 * 2^23 < ... < 10^23 only if m is large *)
    destruct (Z.le_gt_cases 0 e) as [He | He].
    + rewrite Z.shiftl_mul_pow2 in Hval by lia.
      assert (2 ^ e <= 2 ^ 23) by (apply Z.pow_le_mono_r; lia).
      assert (0 < 2 ^ e) by (apply Z.pow_pos_nonneg; lia).
      assert (Z.pos m * 2 ^ e < 2 ^ 53 * 2 ^ 23) by nia.
      assert (2 ^ 53 * 2 ^ 23 < 10 ^ 23) by (vm_compute; reflexivity).
      lia.
    + rewrite Z.shiftl_div_pow2 in Hval by lia.
      assert (0 < 2 ^ (- e)) by (apply Z.pow_pos_nonneg; lia).
      assert (Z.pos m / 2 ^ (- e) <= Z.pos m).
      { apply Z.div_le_upper_bound; nia. }
      assert (2 ^ 53 < 10 ^ 23) by (vm_compute; reflexivity).
      lia.
  - (* m * 2^e with e >= 24 is a multiple of 2^24, and 10^23 is not *)
    rewrite Z.shiftl_mul_pow2 in Hval by lia.
    replace e with (24 + (e - 24)) in Hval by lia.
    rewrite Z.pow_add_r in Hval by lia.
    assert (Hmod : (10 ^ 23) mod 2 ^ 24 = 0).
    { rewrite <- Hval.
      replace (Z.pos m * (2 ^ 24 * 2 ^ (e - 24))) with (Z.pos m * 2 ^ (e - 24) * 2 ^ 24) by ring.
      apply Z.mod_mul. lia. }
    vm_compute in Hmod. discriminate Hmod.
Qed.

(* ------------------------------------------------------------------ *)
(** ** Hexadecimal strings, [hexToBytes] and [encodeAddress]           *)
(* ------------------------------------------------------------------ *)

Lemma hex_digit_plain (c : ascii) (v : Z) :
  digit_value 16 c = Some v ->
  0 <= v < 16 /\ is_whitespace c = false /\
  c <> "+"%char /\ c <> "-"%char /\ c <> "x"%char /\ c <> "X"%char.
Proof.
  destruct c as [[] [] [] [] [] [] [] []]; intros H; vm_compute in H;
    try discriminate H; injection H as <-;
    (split; [ lia | split; [ reflexivity | repeat split; discriminate ] ]).
Qed.

Lemma is_hex_digit_value (c : ascii) :
  is_hex_digit c = true -> exists v, digit_value 16 c = Some v.
Proof.
  unfold is_hex_digit. destruct (digit_value 16 c) as [v | ]; [ eauto | discriminate ].
Qed.

Lemma string_length_app (s1 s2 : string) :
  String.length (s1 ++ s2) = (String.length s1 + String.length s2)%nat.
Proof. induction s1 as [ | c s1 IH]; simpl; [ reflexivity | now rewrite IH ]. Qed.

Lemma string_app_assoc (s1 s2 s3 : string) :
  ((s1 ++ s2) ++ s3 = s1 ++ (s2 ++ s3))%string.
Proof. induction s1 as [ | c s1 IH]; simpl; [ reflexivity | now rewrite IH ]. Qed.

Lemma substring_app_skip (pre s : string) (n : nat) :
  String.substring (String.length pre) n (pre ++ s) = String.substring 0 n s.
Proof. induction pre as [ | c pre IH]; simpl; [ reflexivity | exact IH ]. Qed.

Lemma string_repeat_length (c : ascii) (n : nat) : String.length (string_repeat c n) = n.
Proof. induction n as [ | n IH]; simpl; [ reflexivity | now rewrite IH ]. Qed.

Lemma hex_only_app (s1 s2 : string) :
  hex_only (s1 ++ s2) = hex_only s1 && hex_only s2.
Proof.
  induction s1 as [ | c s1 IH]; simpl; [ reflexivity | ].
  now rewrite IH, andb_assoc.
Qed.

Lemma hex_only_zeros (n : nat) : hex_only (string_repeat "0" n) = true.
Proof. induction n as [ | n IH]; simpl; [ reflexivity | exact IH ]. Qed.

Lemma hex_only_no_0x (s : string) : hex_only s = true -> startsWith s "0x" = false.
Proof.
  destruct s as [ | c [ | d r]]; cbn [hex_only]; intros H.
  - reflexivity.
  - apply startsWith_2_short.
  - rewrite startsWith_2.
    apply andb_true_iff in H. destruct H as [_ H].
    apply andb_true_iff in H. destruct H as [Hd _].
    apply is_hex_digit_value in Hd. destruct Hd as [v Hv].
    destruct (hex_digit_plain d v Hv) as (_ & _ & _ & _ & Hx & _).
    apply Ascii.eqb_neq in Hx.
    rewrite (Ascii.eqb_sym "x"%char d), Hx. apply andb_false_r.
Qed.

(** [parseInt] on two hexadecimal digits. *)
Lemma parseInt16_pair (a b : ascii) (va vb : Z) :
  digit_value 16 a = Some va -> digit_value 16 b = Some vb ->
  parseInt16 (String a (String b EmptyString)) = Some (16 * va + vb).
Proof.
  intros Ha Hb.
  destruct (hex_digit_plain a va Ha) as (_ & Hws & Hp & Hm & _).
  destruct (hex_digit_plain b vb Hb) as (_ & _ & _ & _ & Hx & HX).
  unfold parseInt16. cbn [trimStart]. rewrite Hws.
  rewrite !startsWith_1.
  apply Ascii.eqb_neq in Hp, Hm, Hx, HX.
  rewrite (Ascii.eqb_sym "-"%char a), Hm, (Ascii.eqb_sym "+"%char a), Hp.
  cbn [orb]. rewrite !startsWith_2.
  rewrite (Ascii.eqb_sym "x"%char b), Hx, (Ascii.eqb_sym "X"%char b), HX.
  rewrite !andb_false_r. cbn [orb].
  cbn [digits_prefix]. rewrite Ha, Hb.
  cbn [parse_all_digits parse_digits]. rewrite Ha, Hb.
  f_equal. lia.
Qed.

(** On an even number of hexadecimal digits the loop of [hexToBytes] fills
    the array with one byte for every two digits. *)
Lemma hexToBytes_loop_pairs (m : nat) :
  forall (rest pre : string) (done : Uint8Array) (fuel : nat),
    hex_only rest = true -> String.length rest = (2 * m)%nat ->
    String.length pre = (2 * length done)%nat -> (m <= fuel)%nat ->
    hexToBytes_loop fuel (pre ++ rest) (String.length pre) (done ++ repeat 0 m)
    = done ++ Buffer_from_hex rest.
Proof.
  induction m as [ | m IH]; intros rest pre done fuel Hhex Hlen Hpre Hfuel.
  - destruct rest; [ | discriminate Hlen ].
    destruct fuel as [ | fuel]; cbn [hexToBytes_loop Buffer_from_hex repeat];
      [ reflexivity | ].
    rewrite string_length_app. cbn [String.length].
    destruct (Nat.ltb_spec (String.length pre) (String.length pre + 0)); [ lia | reflexivity ].
  - destruct rest as [ | a [ | b rest]]; try (simpl in Hlen; lia).
    destruct fuel as [ | fuel]; [ lia | ].
    cbn [hex_only] in Hhex.
    apply andb_true_iff in Hhex. destruct Hhex as [Ha Hhex].
    apply andb_true_iff in Hhex. destruct Hhex as [Hb Hhex].
    apply is_hex_digit_value in Ha, Hb.
    destruct Ha as [va Ha], Hb as [vb Hb].
    destruct (hex_digit_plain a va Ha) as (Hva & _).
    destruct (hex_digit_plain b vb Hb) as (Hvb & _).
    cbn [hexToBytes_loop Buffer_from_hex]. rewrite Ha, Hb.
    rewrite string_length_app. cbn [String.length].
    destruct (Nat.ltb_spec (String.length pre) (String.length pre + S (S (String.length rest))));
      [ | lia ].
    unfold slice.
    replace (String.length pre + 2 - String.length pre)%nat with 2%nat by lia.
    rewrite substring_app_skip.
    replace (String.substring 0 2 (String a (String b rest)))
      with (String a (String b EmptyString)) by (destruct rest; reflexivity).
    rewrite (parseInt16_pair a b va vb Ha Hb). cbn [stored_number repeat].
    replace (Z.of_nat (String.length pre) / 2) with (Z.of_nat (length done)).
    2:{ rewrite Hpre, Nat2Z.inj_mul. change (Z.of_nat 2) with 2.
        rewrite Z.mul_comm, Z.div_mul by lia. reflexivity. }
    rewrite array_set_app.
    rewrite ToUint8_byte by (unfold is_byte; lia).
    specialize (IH rest (pre ++ String a (String b EmptyString))%string
                   (done ++ [16 * va + vb]) fuel Hhex).
    rewrite string_app_assoc in IH. cbn [append] in IH.
    rewrite string_length_app in IH. cbn [String.length] in IH.
    rewrite <- !app_assoc in IH. cbn [app] in IH.
    apply IH.
    + simpl in Hlen. lia.
    + rewrite length_app. cbn [length]. lia.
    + lia.
Qed.

Lemma hexToBytes_hex (t : string) (m : nat) :
  hex_only t = true -> String.length t = (2 * m)%nat ->
  hexToBytes t = Buffer_from_hex t.
Proof.
  intros Hhex Hlen. unfold hexToBytes.
  rewrite (hex_only_no_0x t Hhex).
  rewrite Hlen.
  replace (2 * m / 2)%nat with m by (rewrite Nat.mul_comm, Nat.div_mul; lia).
  exact (hexToBytes_loop_pairs m t EmptyString [] (2 * m) Hhex Hlen eq_refl ltac:(lia)).
Qed.

Lemma Buffer_from_hex_spec (m : nat) :
  forall (t : string) (acc : Z),
    hex_only t = true -> String.length t = (2 * m)%nat ->
    length (Buffer_from_hex t) = m /\
    Forall is_byte (Buffer_from_hex t) /\
    parse_digits 16 t acc
    = Some (fold_left (fun acc b => acc * 256 + b) (Buffer_from_hex t) acc).
Proof.
  induction m as [ | m IH]; intros t acc Hhex Hlen.
  - destruct t; [ | discriminate Hlen ]. simpl. auto.
  - destruct t as [ | a [ | b t]]; try (simpl in Hlen; lia).
    cbn [hex_only] in Hhex.
    apply andb_true_iff in Hhex. destruct Hhex as [Ha Hhex].
    apply andb_true_iff in Hhex. destruct Hhex as [Hb Hhex].
    apply is_hex_digit_value in Ha, Hb.
    destruct Ha as [va Ha], Hb as [vb Hb].
    destruct (hex_digit_plain a va Ha) as (Hva & _).
    destruct (hex_digit_plain b vb Hb) as (Hvb & _).
    cbn [Buffer_from_hex parse_digits]. rewrite Ha, Hb.
    destruct (IH t ((acc * 16 + va) * 16 + vb) Hhex ltac:(simpl in Hlen; lia))
      as (Hl & Hby & Hv).
    cbn [length fold_left]. rewrite Hl, Hv.
    split; [ reflexivity | split ].
    + constructor; [ unfold is_byte; lia | exact Hby ].
    + do 2 f_equal. lia.
Qed.

Lemma Buffer_from_hex_zeros (j : nat) (t : string) :
  Buffer_from_hex (string_repeat "0" (2 * j) ++ t) = repeat 0 j ++ Buffer_from_hex t.
Proof.
  induction j as [ | j IH]; [ reflexivity | ].
  replace (2 * S j)%nat with (S (S (2 * j))) by lia.
  cbn [string_repeat append Buffer_from_hex repeat app].
  change (digit_value 16 "0") with (Some 0). cbv iota.
  now rewrite IH.
Qed.

Lemma parse_digits_zeros (n : nat) (t : string) :
  parse_digits 16 (string_repeat "0" n ++ t) 0 = parse_digits 16 t 0.
Proof.
  induction n as [ | n IH]; [ reflexivity | ].
  cbn [string_repeat append parse_digits].
  change (digit_value 16 "0") with (Some 0). cbv iota.
  exact IH.
Qed.

Lemma string_repeat_add (c : ascii) (a b : nat) :
  string_repeat c (a + b) = (string_repeat c a ++ string_repeat c b)%string.
Proof. induction a as [ | a IH]; simpl; [ reflexivity | now rewrite IH ]. Qed.

(** C5, as the code has it. [encodeAddress] raises no error of its own and
    validates nothing. For every cleaned input of at most 64 hexadecimal
    digits, given with or without the [0x] prefix, it returns exactly 32
    bytes: the big-endian bytes of the hexadecimal numeral, the leading
    [(64 - length) / 2] of them zero. *)
Theorem encodeAddress_padded (s : string) :
  hex_only s = true -> (String.length s <= 64)%nat ->
  (exists bytes,
      encodeAddress s = Ok bytes /\
      encodeAddress ("0x" ++ s) = Ok bytes /\
      length bytes = 32%nat /\
      Forall is_byte bytes /\
      parse_digits 16 s 0 = Some (be_value bytes) /\
      firstn ((64 - String.length s) / 2) bytes = repeat 0 ((64 - String.length s) / 2)) /\
  (forall address : string, exists bytes, encodeAddress address = Ok bytes).
Proof.
  intros Hhex Hlen.
  split; [ | intros address; eexists; reflexivity ].
  set (padded := (string_repeat "0" (64 - String.length s) ++ s)%string).
  assert (Hphex : hex_only padded = true).
  { unfold padded. now rewrite hex_only_app, hex_only_zeros, Hhex. }
  assert (Hplen : String.length padded = (2 * 32)%nat).
  { unfold padded. rewrite string_length_app, string_repeat_length. lia. }
  exists (Buffer_from_hex padded).
  destruct (Buffer_from_hex_spec 32 padded 0 Hphex Hplen) as (Hl & Hby & Hv).
  split; [ | split; [ | split; [ exact Hl | split; [ exact Hby | split ] ] ] ].
  - unfold encodeAddress. rewrite (hex_only_no_0x s Hhex).
    unfold padStart. fold padded.
    now rewrite (hexToBytes_hex padded 32 Hphex Hplen).
  - unfold encodeAddress.
    change ("0x" ++ s)%string with (String "0" (String "x" s)).
    rewrite startsWith_2. cbn [Ascii.eqb Bool.eqb andb slice_from].
    unfold padStart. fold padded.
    now rewrite (hexToBytes_hex padded 32 Hphex Hplen).
  - unfold be_value. rewrite <- Hv. unfold padded.
    now rewrite parse_digits_zeros.
  - set (n := (64 - String.length s)%nat).
    assert (Hn : n = (2 * (n / 2) + n mod 2)%nat) by (apply Nat.div_mod_eq).
    unfold padded. fold n.
    replace (string_repeat "0" n)
      with (string_repeat "0" (2 * (n / 2)) ++ string_repeat "0" (n mod 2))%string
      by (now rewrite <- string_repeat_add, <- Hn).
    rewrite string_app_assoc, Buffer_from_hex_zeros.
    rewrite firstn_app, repeat_length, Nat.sub_diag, firstn_O, app_nil_r.
    apply firstn_all2. rewrite repeat_length. lia.
Qed.

Lemma encodeAddress_padded_witness :
  hex_only "1" = true /\ (String.length "1" <= 64)%nat /\
  (exists bytes,
      encodeAddress "1" = Ok bytes /\
      encodeAddress ("0x" ++ "1") = Ok bytes /\
      length bytes = 32%nat /\
      Forall is_byte bytes /\
      parse_digits 16 "1" 0 = Some (be_value bytes) /\
      firstn ((64 - String.length "1") / 2) bytes = repeat 0 ((64 - String.length "1") / 2)) /\
  (forall address : string, exists bytes, encodeAddress address = Ok bytes).
Proof.
  assert (Hh : hex_only "1" = true) by reflexivity.
  assert (Hl : (String.length "1" <= 64)%nat) by (simpl; lia).
  split; [ exact Hh | split; [ exact Hl | ] ].
  exact (encodeAddress_padded "1" Hh Hl).
Defined.

(** [encodeAddress("0x1")] is 31 zero bytes followed by [0x01]. *)
Example encodeAddress_0x1 : encodeAddress "0x1" = Ok (repeat 0 31 ++ [1]).
Proof. vm_compute. reflexivity. Qed.

(** C5 fails on the code: [encodeAddress("0xzz")] returns 32 zero bytes
    ([parseInt("zz", 16)] is NaN, stored as [0]) and an input of 66 digits
    returns 33 bytes. *)
Lemma encodeAddress_never_rejects :
  ~ encodeAddress_rejects_claim "0xzz" /\
  ~ encodeAddress_rejects_claim ("0x" ++ string_repeat "1" 66) /\
  encodeAddress "0xzz" = Ok (repeat 0 32) /\
  encodeAddress ("0x" ++ string_repeat "1" 66) = Ok (repeat 17 33).
Proof.
  split; [ | split; [ | split; vm_compute; reflexivity ] ].
  - intros H. destruct H as [e He]; [ left; reflexivity | discriminate He ].
  - intros H. destruct H as [e He]; [ right; vm_compute; lia | discriminate He ].
Qed.

(* ------------------------------------------------------------------ *)
(** ** [vector<u8>] arguments given as hexadecimal strings             *)
(* ------------------------------------------------------------------ *)

(** The vector branch of [encodeMoveArg] at the tag [vector<u8>]. *)
Lemma encodeMoveArg_vector_u8 (value : jsval) :
  encodeMoveArg "vector<u8>" value
  = match value with
    | JArray values =>
        match map_results (encodeMoveArg "u8") values with
        | Some (Ok items) => option_map Ok (encodeVector items)
        | Some (Throw e) => Some (Throw e)
        | None => None
        end
    | _ => Some (Throw TypeError)
    end.
Proof. destruct value; reflexivity. Qed.

Lemma encodeMoveArg_u8_number (x : number) :
  encodeMoveArg "u8" (JNumber x) = Some (encodeU8 x).
Proof. reflexivity. Qed.

(** The vector branch of [convertToMoveArg] at the tag [vector<u8>], on a
    string. *)
Lemma convertToMoveArg_vector_u8_string (s : string) :
  convertToMoveArg (JString s) "vector<u8>"
  = Some (Ok (JArray (map (fun b => JNumber (Z2number b))
                        (Buffer_from_hex (if startsWith s "0x" then slice_from 2 s else s))))).
Proof. reflexivity. Qed.

Lemma encodeU8_byte (b : Z) : is_byte b -> encodeU8 (Z2number b) = Ok [b].
Proof.
  intros Hb.
  rewrite (encodeU8_bytes (Z2number b) b (number_int_Z2number b)).
  unfold le_bytes. cbn [seq map Z.of_nat].
  rewrite Z.pow_0_r, Z.div_1_r.
  f_equal. f_equal. apply Z.mod_small. exact Hb.
Qed.

Lemma map_results_cons {A B : Type} (f : A -> option (js_result B)) (v : A) (vs : list A) :
  map_results f (v :: vs)
  = match f v with
    | Some (Ok item) =>
        match map_results f vs with
        | Some (Ok items) => Some (Ok (item :: items))
        | other => other
        end
    | Some (Throw e) => Some (Throw e)
    | None => None
    end.
Proof. reflexivity. Qed.

Lemma map_results_bytes (bs : list Z) :
  Forall is_byte bs ->
  map_results (encodeMoveArg "u8") (map (fun b => JNumber (Z2number b)) bs)
  = Some (Ok (map (fun b => [b]) bs)).
Proof.
  induction 1 as [ | b bs Hb _ IH]; [ reflexivity | ].
  cbn [map]. rewrite map_results_cons.
  rewrite encodeMoveArg_u8_number, (encodeU8_byte b Hb).
  now rewrite IH.
Qed.

Lemma concat_singletons (bs : list Z) : List.concat (map (fun b => [b]) bs) = bs.
Proof. induction bs as [ | b bs IH]; simpl; [ reflexivity | now rewrite IH ]. Qed.

(** C4, as the code has it. For the tag [vector<u8>] and a string of an even
    number of hexadecimal digits, with or without the [0x] prefix: it is
    [convertToMoveArg] that reads the string as a byte array, one element
    for every two digits (the big-endian bytes of the numeral), and
    [encodeMoveArg] applied to that array returns the ULEB128 count followed
    by those bytes; [encodeMoveArg] applied to the string itself throws a
    TypeError, a string having no [map]. *)
Theorem vector_u8_from_hex_string (h : string) (m : nat) :
  hex_only h = true -> String.length h = (2 * m)%nat -> Z.of_nat m < 2 ^ 31 ->
  exists bytes,
    length bytes = m /\ Forall is_byte bytes /\
    parse_digits 16 h 0 = Some (be_value bytes) /\
    convertToMoveArg (JString h) "vector<u8>"
    = Some (Ok (JArray (map (fun b => JNumber (Z2number b)) bytes))) /\
    convertToMoveArg (JString ("0x" ++ h)) "vector<u8>"
    = Some (Ok (JArray (map (fun b => JNumber (Z2number b)) bytes))) /\
    (exists count,
        encodeUleb128 (Z2number (Z.of_nat m)) = Some count /\
        encodeMoveArg "vector<u8>" (JArray (map (fun b => JNumber (Z2number b)) bytes))
        = Some (Ok (count ++ bytes))) /\
    encodeMoveArg "vector<u8>" (JString h) = Some (Throw TypeError) /\
    encodeMoveArg "vector<u8>" (JString ("0x" ++ h)) = Some (Throw TypeError).
Proof.
  intros Hhex Hlen Hm.
  exists (Buffer_from_hex h).
  destruct (Buffer_from_hex_spec m h 0 Hhex Hlen) as (Hl & Hby & Hv).
  split; [ exact Hl | split; [ exact Hby | split; [ exact Hv | ] ] ].
  split; [ | split; [ | split; [ | split ] ] ].
  - rewrite convertToMoveArg_vector_u8_string.
    now rewrite (hex_only_no_0x h Hhex).
  - rewrite convertToMoveArg_vector_u8_string.
    change ("0x" ++ h)%string with (String "0" (String "x" h)).
    rewrite startsWith_2. reflexivity.
  - assert (Hc : encodeUleb128 (Z2number (Z.of_nat m))
                 = Some (uleb128_digits 5 (Z.of_nat m))).
    { apply encodeUleb128_digits; [ apply number_int_Z2number | lia ]. }
    exists (uleb128_digits 5 (Z.of_nat m)).
    split; [ exact Hc | ].
    rewrite encodeMoveArg_vector_u8.
    rewrite (map_results_bytes _ Hby).
    unfold encodeVector, array_length.
    rewrite length_map, Hl, Hc.
    now rewrite concat_singletons.
  - apply encodeMoveArg_vector_u8.
  - apply encodeMoveArg_vector_u8.
Qed.

Lemma vector_u8_from_hex_string_witness :
  hex_only "0102ff" = true /\ String.length "0102ff" = (2 * 3)%nat /\
  Z.of_nat 3 < 2 ^ 31 /\
  exists bytes,
    length bytes = 3%nat /\ Forall is_byte bytes /\
    parse_digits 16 "0102ff" 0 = Some (be_value bytes) /\
    convertToMoveArg (JString "0102ff") "vector<u8>"
    = Some (Ok (JArray (map (fun b => JNumber (Z2number b)) bytes))) /\
    convertToMoveArg (JString ("0x" ++ "0102ff")) "vector<u8>"
    = Some (Ok (JArray (map (fun b => JNumber (Z2number b)) bytes))) /\
    (exists count,
        encodeUleb128 (Z2number (Z.of_nat 3)) = Some count /\
        encodeMoveArg "vector<u8>" (JArray (map (fun b => JNumber (Z2number b)) bytes))
        = Some (Ok (count ++ bytes))) /\
    encodeMoveArg "vector<u8>" (JString "0102ff") = Some (Throw TypeError) /\
    encodeMoveArg "vector<u8>" (JString ("0x" ++ "0102ff")) = Some (Throw TypeError).
Proof.
  assert (Hh : hex_only "0102ff" = true) by reflexivity.
  assert (Hl : String.length "0102ff" = (2 * 3)%nat) by reflexivity.
  assert (Hm : Z.of_nat 3 < 2 ^ 31) by (vm_compute; reflexivity).
  split; [ exact Hh | split; [ exact Hl | split; [ exact Hm | ] ] ].
  exact (vector_u8_from_hex_string "0102ff" 3 Hh Hl Hm).
Defined.

(** [encodeMoveArg] on the converted array of the string [0x0102ff]. *)
Example encodeMoveArg_converted_hex :
  encodeMoveArg "vector<u8>"
    (JArray [JNumber (Z2number 1); JNumber (Z2number 2); JNumber (Z2number 255)])
  = Some (Ok [3; 1; 2; 255]).
Proof. vm_compute. reflexivity. Qed.

(** C4 fails on the code: [encodeMoveArg('vector<u8>', '0x0102')] throws. *)
Lemma encodeMoveArg_rejects_hex_string :
  ~ encodeMoveArg_accepts_hex_claim "0x0102" /\
  ~ encodeMoveArg_accepts_hex_claim "0102" /\
  encodeMoveArg "vector<u8>" (JString "0x0102") = Some (Throw TypeError).
Proof.
  split; [ | split; [ | reflexivity ] ];
    intros [bytes H]; vm_compute in H; discriminate H.
Qed.

(* ================================================================== *)
(** * Part III.  Further properties of the utilities                   *)
(* ================================================================== *)

(* ------------------------------------------------------------------ *)
(** ** [hexToBytes] and [bytesToHex]                                   *)
(* ------------------------------------------------------------------ *)

Lemma array_set_nat_length (a : Uint8Array) (i : nat) (v : Z) :
  length (array_set_nat a i v) = length a.
Proof.
  revert i. induction a as [ | h a IH]; intros [ | i]; simpl; auto.
Qed.

Lemma array_set_length (a : Uint8Array) (i v : Z) :
  length (array_set a i v) = length a.
Proof.
  unfold array_set. destruct (i <? 0); [ reflexivity | apply array_set_nat_length ].
Qed.

Lemma ToUint8_is_byte (v : Z) : is_byte (ToUint8 v).
Proof. apply Z.mod_pos_bound. lia. Qed.

Lemma array_set_nat_is_byte (a : Uint8Array) (i : nat) (v : Z) :
  Forall is_byte a -> Forall is_byte (array_set_nat a i v).
Proof.
  intros H. revert i.
  induction H as [ | h a Hh Ha IH]; intros [ | i]; simpl; try constructor; auto.
  apply ToUint8_is_byte.
Qed.

Lemma array_set_is_byte (a : Uint8Array) (i v : Z) :
  Forall is_byte a -> Forall is_byte (array_set a i v).
Proof.
  intros H. unfold array_set.
  destruct (i <? 0); [ exact H | now apply array_set_nat_is_byte ].
Qed.

(** A store at the length of the array, one past its end, is ignored. *)
Lemma array_set_at_length (a : Uint8Array) (v : Z) :
  array_set a (Z.of_nat (length a)) v = a.
Proof.
  unfold array_set.
  destruct (Z.ltb_spec (Z.of_nat (length a)) 0); [ reflexivity | ].
  rewrite Nat2Z.id. clear.
  induction a as [ | h a IH]; simpl; [ reflexivity | now rewrite IH ].
Qed.

Lemma hexToBytes_loop_shape (fuel : nat) :
  forall (cleanHex : string) (i : nat) (bytes : Uint8Array),
    length (hexToBytes_loop fuel cleanHex i bytes) = length bytes /\
    (Forall is_byte bytes -> Forall is_byte (hexToBytes_loop fuel cleanHex i bytes)).
Proof.
  induction fuel as [ | fuel IH]; intros cleanHex i bytes; cbn [hexToBytes_loop].
  - auto.
  - destruct (i <? String.length cleanHex)%nat; [ | auto ].
    destruct (IH cleanHex (i + 2)%nat
                (array_set bytes (Z.of_nat i / 2)
                   (stored_number (parseInt16 (slice cleanHex i (i + 2)))))) as [Hl Hb].
    split.
    + now rewrite Hl, array_set_length.
    + intros H. apply Hb. now apply array_set_is_byte.
Qed.

Lemma repeat_zero_is_byte (n : nat) : Forall is_byte (repeat 0 n).
Proof.
  apply Forall_forall. intros b Hb. apply repeat_spec in Hb. subst b.
  unfold is_byte. lia.
Qed.

(** X1. [hexToBytes] validates nothing: for every string, hexadecimal or not, it
    returns one byte for every two characters left after an optional [0x]
    (a last odd character counts for nothing), each of them a byte. *)
Theorem hexToBytes_any_string (hex : string) :
  let cleanHex := if startsWith hex "0x" then slice_from 2 hex else hex in
  length (hexToBytes hex) = (String.length cleanHex / 2)%nat /\
  Forall is_byte (hexToBytes hex).
Proof.
  cbv zeta. unfold hexToBytes.
  set (cleanHex := if startsWith hex "0x" then slice_from 2 hex else hex).
  destruct (hexToBytes_loop_shape (String.length cleanHex) cleanHex 0
              (new_Uint8Array (String.length cleanHex / 2))) as [Hl Hb].
  split.
  - rewrite Hl. apply repeat_length.
  - apply Hb. apply repeat_zero_is_byte.
Qed.

Lemma hex_digit_value (d : Z) : 0 <= d < 16 -> digit_value 16 (hex_digit d) = Some d.
Proof.
  intros H.
  assert (Hn : exists n : nat, (n < 16)%nat /\ d = Z.of_nat n).
  { exists (Z.to_nat d). split; lia. }
  destruct Hn as (n & Hn & ->).
  do 16 (destruct n as [ | n]; [ reflexivity | ]).
  lia.
Qed.

(** Two digits for every byte, the high nibble first. *)
Lemma byte_two_digits (b : Z) :
  is_byte b ->
  padStart (byte_toString16 b) 2 "0"
  = String (hex_digit (b / 16)) (String (hex_digit (b mod 16)) EmptyString).
Proof.
  intros Hb. unfold is_byte in Hb. unfold byte_toString16, padStart.
  destruct (Z.ltb_spec b 16).
  - rewrite Z.div_small, Z.mod_small by lia. reflexivity.
  - reflexivity.
Qed.

Lemma string_app_nil_r (s : string) : (s ++ EmptyString)%string = s.
Proof. induction s as [ | c s IH]; simpl; [ reflexivity | now rewrite IH ]. Qed.

Lemma string_concat_cons (x : string) (xs : list string) :
  String.concat EmptyString (x :: xs) = (x ++ String.concat EmptyString xs)%string.
Proof.
  destruct xs as [ | y ys]; cbn [String.concat].
  - now rewrite string_app_nil_r.
  - reflexivity.
Qed.

(** What [bytesToHex] prints without the prefix: hexadecimal digits, two for
    every byte, that [Buffer_from_hex] reads back. *)
Lemma bytesToHex_digits (bytes : Uint8Array) :
  Forall is_byte bytes ->
  hex_only (bytesToHex bytes false) = true /\
  String.length (bytesToHex bytes false) = (2 * length bytes)%nat /\
  Buffer_from_hex (bytesToHex bytes false) = bytes.
Proof.
  unfold bytesToHex.
  induction 1 as [ | b bytes Hb _ IH]; [ repeat split | ].
  cbn [map]. rewrite string_concat_cons, (byte_two_digits b Hb).
  destruct IH as (Hh & Hl & Hv).
  unfold is_byte in Hb.
  assert (Hhi : 0 <= b / 16 < 16).
  { split; [ apply Z.div_pos; lia | apply Z.div_lt_upper_bound; lia ]. }
  pose proof (Z.mod_pos_bound b 16 ltac:(lia)) as Hlo.
  cbn [append hex_only String.length Buffer_from_hex length].
  unfold is_hex_digit.
  rewrite !hex_digit_value by lia.
  rewrite Hh, Hl, Hv.
  repeat split; [ lia | ].
  f_equal. rewrite (Z.div_mod b 16) at 3 by lia. reflexivity.
Qed.

(** The prefix [0x] is dropped before anything else. *)
Lemma hexToBytes_0x (h : string) :
  startsWith h "0x" = false -> hexToBytes ("0x" ++ h) = hexToBytes h.
Proof.
  intros Hh. unfold hexToBytes. rewrite Hh.
  change ("0x" ++ h)%string with (String "0" (String "x" h)).
  now rewrite startsWith_2.
Qed.

(** X2. Printing bytes and reading the print back returns the bytes, with the
    prefix or without it, also through [bcsToHex] and [hexToBcs]. *)
Theorem hexToBytes_bytesToHex (bytes : Uint8Array) (prefix : bool) :
  Forall is_byte bytes ->
  hexToBytes (bytesToHex bytes prefix) = bytes /\
  hexToBcs (bcsToHex bytes) = bytes.
Proof.
  intros Hb.
  destruct (bytesToHex_digits bytes Hb) as (Hh & Hl & Hv).
  assert (Hplain : hexToBytes (bytesToHex bytes false) = bytes).
  { rewrite (hexToBytes_hex _ (length bytes) Hh Hl). exact Hv. }
  assert (Hpre : hexToBytes (bytesToHex bytes true) = bytes).
  { change (bytesToHex bytes true) with ("0x" ++ bytesToHex bytes false)%string.
    rewrite hexToBytes_0x by now apply hex_only_no_0x.
    exact Hplain. }
  split; [ destruct prefix; assumption | exact Hpre ].
Qed.

Lemma hexToBytes_bytesToHex_witness :
  Forall is_byte [0; 171; 255] /\
  hexToBytes (bytesToHex [0; 171; 255] true) = [0; 171; 255] /\
  hexToBcs (bcsToHex [0; 171; 255]) = [0; 171; 255].
Proof.
  assert (Hb : Forall is_byte [0; 171; 255]) by (repeat constructor; unfold is_byte; lia).
  split; [ exact Hb | ].
  exact (hexToBytes_bytesToHex [0; 171; 255] true Hb).
Defined.

Lemma hex_digit_lower (c : ascii) (v : Z) :
  digit_value 16 c = Some v -> hex_digit v = toLowerCase_char c.
Proof.
  destruct c as [[] [] [] [] [] [] [] []]; intros H; vm_compute in H;
    try discriminate H; injection H as <-; reflexivity.
Qed.

Lemma bytesToHex_cons (b : Z) (bytes : Uint8Array) :
  is_byte b ->
  bytesToHex (b :: bytes) false
  = String (hex_digit (b / 16)) (String (hex_digit (b mod 16)) (bytesToHex bytes false)).
Proof.
  intros Hb. unfold bytesToHex. cbn [map].
  now rewrite string_concat_cons, (byte_two_digits b Hb).
Qed.

Lemma bytesToHex_Buffer_from_hex (m : nat) :
  forall h : string,
    hex_only h = true -> String.length h = (2 * m)%nat ->
    bytesToHex (Buffer_from_hex h) false = toLowerCase h.
Proof.
  induction m as [ | m IH]; intros h Hhex Hlen.
  - destruct h; [ reflexivity | discriminate Hlen ].
  - destruct h as [ | a [ | b h]]; try (simpl in Hlen; lia).
    cbn [hex_only] in Hhex.
    apply andb_true_iff in Hhex. destruct Hhex as [Ha Hhex].
    apply andb_true_iff in Hhex. destruct Hhex as [Hb Hhex].
    apply is_hex_digit_value in Ha, Hb.
    destruct Ha as [va Ha], Hb as [vb Hb].
    destruct (hex_digit_plain a va Ha) as (Hva & _).
    destruct (hex_digit_plain b vb Hb) as (Hvb & _).
    cbn [Buffer_from_hex toLowerCase]. rewrite Ha, Hb.
    rewrite bytesToHex_cons by (unfold is_byte; lia).
    replace ((16 * va + vb) / 16) with va
      by (rewrite Z.mul_comm, Z.div_add_l, Z.div_small; lia).
    replace ((16 * va + vb) mod 16) with vb
      by (rewrite Z.add_comm, Z.mul_comm, Z_mod_plus_full, Z.mod_small; lia).
    rewrite (hex_digit_lower a va Ha), (hex_digit_lower b vb Hb).
    rewrite IH; [ reflexivity | exact Hhex | simpl in Hlen; lia ].
Qed.

(** X3. Reading an even number of hexadecimal digits and printing the bytes
    returns the digits in lower case, with the prefix or without it. *)
Theorem bytesToHex_hexToBytes (h : string) (m : nat) :
  hex_only h = true -> String.length h = (2 * m)%nat ->
  bytesToHex (hexToBytes h) false = toLowerCase h /\
  bytesToHex (hexToBytes ("0x" ++ h)) true = ("0x" ++ toLowerCase h)%string.
Proof.
  intros Hhex Hlen.
  rewrite hexToBytes_0x by now apply hex_only_no_0x.
  rewrite (hexToBytes_hex h m Hhex Hlen).
  change (bytesToHex (Buffer_from_hex h) true)
    with ("0x" ++ bytesToHex (Buffer_from_hex h) false)%string.
  rewrite (bytesToHex_Buffer_from_hex m h Hhex Hlen).
  split; reflexivity.
Qed.

Lemma bytesToHex_hexToBytes_witness :
  hex_only "00ABff" = true /\ String.length "00ABff" = (2 * 3)%nat /\
  bytesToHex (hexToBytes "00ABff") false = "00abff"%string /\
  bytesToHex (hexToBytes ("0x" ++ "00ABff")) true = "0x00abff"%string.
Proof.
  assert (Hh : hex_only "00ABff" = true) by reflexivity.
  assert (Hl : String.length "00ABff" = (2 * 3)%nat) by reflexivity.
  split; [ exact Hh | split; [ exact Hl | ] ].
  exact (bytesToHex_hexToBytes "00ABff" 3 Hh Hl).
Defined.

(** The loop of [hexToBytes] when at most one character follows the pairs:
    its store falls one past the end of the array. *)
Lemma hexToBytes_loop_pairs_tail (m : nat) :
  forall (rest pre tail : string) (done : Uint8Array) (fuel : nat),
    hex_only rest = true -> String.length rest = (2 * m)%nat ->
    (String.length tail <= 1)%nat ->
    String.length pre = (2 * length done)%nat -> (m <= fuel)%nat ->
    hexToBytes_loop fuel (pre ++ rest ++ tail) (String.length pre) (done ++ repeat 0 m)
    = done ++ Buffer_from_hex rest.
Proof.
  induction m as [ | m IH]; intros rest pre tail done fuel Hhex Hlen Htail Hpre Hfuel.
  - destruct rest; [ | discriminate Hlen ].
    cbn [append repeat Buffer_from_hex].
    destruct fuel as [ | fuel]; cbn [hexToBytes_loop]; [ reflexivity | ].
    rewrite string_length_app.
    destruct (Nat.ltb_spec (String.length pre) (String.length pre + String.length tail));
      [ | reflexivity ].
    rewrite app_nil_r.
    replace (Z.of_nat (String.length pre) / 2) with (Z.of_nat (length done)).
    2:{ rewrite Hpre, Nat2Z.inj_mul. change (Z.of_nat 2) with 2.
        rewrite Z.mul_comm, Z.div_mul by lia. reflexivity. }
    rewrite array_set_at_length.
    destruct fuel as [ | fuel]; cbn [hexToBytes_loop]; [ reflexivity | ].
    rewrite string_length_app.
    destruct (Nat.ltb_spec (String.length pre + 2) (String.length pre + String.length tail));
      [ lia | reflexivity ].
  - destruct rest as [ | a [ | b rest]]; try (simpl in Hlen; lia).
    destruct fuel as [ | fuel]; [ lia | ].
    cbn [hex_only] in Hhex.
    apply andb_true_iff in Hhex. destruct Hhex as [Ha Hhex].
    apply andb_true_iff in Hhex. destruct Hhex as [Hb Hhex].
    apply is_hex_digit_value in Ha, Hb.
    destruct Ha as [va Ha], Hb as [vb Hb].
    destruct (hex_digit_plain a va Ha) as (Hva & _).
    destruct (hex_digit_plain b vb Hb) as (Hvb & _).
    cbn [hexToBytes_loop Buffer_from_hex append]. rewrite Ha, Hb.
    rewrite string_length_app. cbn [String.length].
    destruct (Nat.ltb_spec (String.length pre)
                (String.length pre + S (S (String.length (rest ++ tail)))));
      [ | lia ].
    unfold slice.
    replace (String.length pre + 2 - String.length pre)%nat with 2%nat by lia.
    rewrite substring_app_skip.
    replace (String.substring 0 2 (String a (String b (rest ++ tail))))
      with (String a (String b EmptyString)) by (destruct (rest ++ tail)%string; reflexivity).
    rewrite (parseInt16_pair a b va vb Ha Hb). cbn [stored_number repeat].
    replace (Z.of_nat (String.length pre) / 2) with (Z.of_nat (length done)).
    2:{ rewrite Hpre, Nat2Z.inj_mul. change (Z.of_nat 2) with 2.
        rewrite Z.mul_comm, Z.div_mul by lia. reflexivity. }
    rewrite array_set_app.
    rewrite ToUint8_byte by (unfold is_byte; lia).
    specialize (IH rest (pre ++ String a (String b EmptyString))%string tail
                   (done ++ [16 * va + vb]) fuel Hhex).
    rewrite string_app_assoc in IH. cbn [append] in IH.
    rewrite string_length_app in IH. cbn [String.length] in IH.
    rewrite <- !app_assoc in IH. cbn [app] in IH.
    apply IH.
    + simpl in Hlen. lia.
    + exact Htail.
    + rewrite length_app. cbn [length]. lia.
    + lia.
Qed.

(** X4. A hexadecimal string with an odd number of digits loses its last digit:
    whatever character follows an even number of hexadecimal digits,
    [hexToBytes] returns the bytes of those digits alone. *)
Theorem hexToBytes_odd_tail (h : string) (m : nat) (c : ascii) :
  hex_only h = true -> String.length h = (2 * m)%nat ->
  hexToBytes (h ++ String c EmptyString) = hexToBytes h.
Proof.
  intros Hhex Hlen.
  rewrite (hexToBytes_hex h m Hhex Hlen).
  unfold hexToBytes.
  assert (H0x : startsWith (h ++ String c EmptyString) "0x" = false).
  { destruct h as [ | a [ | b h]]; try (simpl in Hlen; lia).
    - apply startsWith_2_short.
    - cbn [append]. rewrite startsWith_2.
      cbn [hex_only] in Hhex.
      apply andb_true_iff in Hhex. destruct Hhex as [_ Hhex].
      apply andb_true_iff in Hhex. destruct Hhex as [Hb _].
      apply is_hex_digit_value in Hb. destruct Hb as [vb Hb].
      destruct (hex_digit_plain b vb Hb) as (_ & _ & _ & _ & Hx & _).
      apply Ascii.eqb_neq in Hx.
      rewrite (Ascii.eqb_sym "x"%char b), Hx. apply andb_false_r. }
  rewrite H0x.
  rewrite string_length_app, Hlen. cbn [String.length].
  replace ((2 * m + 1) / 2)%nat with m.
  2:{ apply Nat.div_unique with (r := 1%nat); lia. }
  exact (hexToBytes_loop_pairs_tail m h EmptyString (String c EmptyString) []
           (2 * m + 1) Hhex Hlen ltac:(simpl; lia) eq_refl ltac:(lia)).
Qed.

Lemma hexToBytes_odd_tail_witness :
  hex_only "0a0b" = true /\ String.length "0a0b" = (2 * 2)%nat /\
  hexToBytes ("0a0b" ++ "c") = hexToBytes "0a0b".
Proof.
  split; [ reflexivity | split; [ reflexivity | ] ].
  exact (hexToBytes_odd_tail "0a0b" 2 "c" eq_refl eq_refl).
Defined.

(* ------------------------------------------------------------------ *)
(** ** Addresses: [isValidAddress], [normalizeAddress] and their users *)
(* ------------------------------------------------------------------ *)

Lemma toLowerCase_char_idem (c : ascii) :
  toLowerCase_char (toLowerCase_char c) = toLowerCase_char c.
Proof. destruct c as [[] [] [] [] [] [] [] []]; reflexivity. Qed.

Lemma toLowerCase_idem (s : string) : toLowerCase (toLowerCase s) = toLowerCase s.
Proof.
  induction s as [ | c s IH]; simpl; [ reflexivity | ].
  now rewrite toLowerCase_char_idem, IH.
Qed.

Lemma toLowerCase_length (s : string) : String.length (toLowerCase s) = String.length s.
Proof. induction s as [ | c s IH]; simpl; [ reflexivity | now rewrite IH ]. Qed.

Lemma toLowerCase_app (s t : string) :
  toLowerCase (s ++ t) = (toLowerCase s ++ toLowerCase t)%string.
Proof. induction s as [ | c s IH]; simpl; [ reflexivity | now rewrite IH ]. Qed.

Lemma toLowerCase_zeros (n : nat) :
  toLowerCase (string_repeat "0" n) = string_repeat "0" n.
Proof. induction n as [ | n IH]; simpl; [ reflexivity | now rewrite IH ]. Qed.

Lemma digit_value_lower (c : ascii) :
  digit_value 16 (toLowerCase_char c) = digit_value 16 c.
Proof. destruct c as [[] [] [] [] [] [] [] []]; reflexivity. Qed.

Lemma hex_only_lower (s : string) : hex_only (toLowerCase s) = hex_only s.
Proof.
  induction s as [ | c s IH]; simpl; [ reflexivity | ].
  unfold is_hex_digit. now rewrite digit_value_lower, IH.
Qed.

Lemma parse_digits_lower (s : string) (acc : Z) :
  parse_digits 16 (toLowerCase s) acc = parse_digits 16 s acc.
Proof.
  revert acc. induction s as [ | c s IH]; intros acc; simpl; [ reflexivity | ].
  rewrite digit_value_lower. destruct (digit_value 16 c); [ apply IH | reflexivity ].
Qed.

Lemma Buffer_from_hex_lower (n : nat) :
  forall s : string,
    (String.length s <= n)%nat -> Buffer_from_hex (toLowerCase s) = Buffer_from_hex s.
Proof.
  induction n as [ | n IH]; intros s Hn.
  - destruct s; [ reflexivity | simpl in Hn; lia ].
  - destruct s as [ | a [ | b s]]; try reflexivity.
    cbn [toLowerCase Buffer_from_hex]. rewrite !digit_value_lower.
    rewrite IH by (simpl in Hn; lia). reflexivity.
Qed.

Lemma padStart_length (s : string) (n : nat) (c : ascii) :
  String.length (padStart s n c) = Nat.max n (String.length s).
Proof.
  unfold padStart. rewrite string_length_app, string_repeat_length. lia.
Qed.

Lemma padStart_long (s : string) (n : nat) (c : ascii) :
  (n <= String.length s)%nat -> padStart s n c = s.
Proof.
  intros H. unfold padStart.
  replace (n - String.length s)%nat with 0%nat by lia. reflexivity.
Qed.

Lemma startsWith_0x_inv (s : string) :
  startsWith s "0x" = true -> s = ("0x" ++ slice_from 2 s)%string.
Proof.
  destruct s as [ | a [ | b s]]; intros H.
  - discriminate H.
  - rewrite startsWith_2_short in H. discriminate H.
  - rewrite startsWith_2 in H. apply andb_true_iff in H. destruct H as [Ha Hb].
    apply Ascii.eqb_eq in Ha, Hb. subst. reflexivity.
Qed.

Lemma startsWith_0x_app (s : string) : startsWith ("0x" ++ s) "0x" = true.
Proof.
  change ("0x" ++ s)%string with (String "0" (String "x" s)).
  rewrite startsWith_2. reflexivity.
Qed.

(** [normalizeAddress] in one line: the digits are what follows the prefix,
    or the whole argument when there is no prefix. *)
Lemma normalizeAddress_digits (address : string) :
  normalizeAddress address
  = ("0x" ++ padStart (toLowerCase (if startsWith address "0x"
                                    then slice_from 2 address else address)) 64 "0")%string.
Proof.
  unfold normalizeAddress.
  destruct (startsWith address "0x"); reflexivity.
Qed.

(** X5. [normalizeAddress] is idempotent, and its result is the prefix followed
    by at least 64 characters: exactly 64 when the digits are at most 64. *)
Theorem normalizeAddress_idempotent (address : string) :
  ascii_only address = true ->
  normalizeAddress (normalizeAddress address) = normalizeAddress address /\
  startsWith (normalizeAddress address) "0x" = true /\
  String.length (normalizeAddress address)
  = (2 + Nat.max 64 (String.length (if startsWith address "0x"
                                    then slice_from 2 address else address)))%nat.
Proof.
  intros _.
  rewrite (normalizeAddress_digits address).
  set (digits := if startsWith address "0x" then slice_from 2 address else address).
  split; [ | split ].
  - rewrite normalizeAddress_digits.
    rewrite startsWith_0x_app. cbn [append slice_from].
    unfold padStart at 2.
    rewrite toLowerCase_app, toLowerCase_zeros, toLowerCase_idem.
    fold (padStart (toLowerCase digits) 64 "0").
    rewrite (padStart_long (padStart (toLowerCase digits) 64 "0"))
      by (rewrite padStart_length; lia).
    reflexivity.
  - apply startsWith_0x_app.
  - cbn [append String.length].
    now rewrite padStart_length, toLowerCase_length.
Qed.

Lemma normalizeAddress_idempotent_witness :
  ascii_only "0xAbC" = true /\
  normalizeAddress (normalizeAddress "0xAbC") = normalizeAddress "0xAbC" /\
  startsWith (normalizeAddress "0xAbC") "0x" = true /\
  String.length (normalizeAddress "0xAbC") = 66%nat.
Proof.
  split; [ reflexivity | ].
  exact (normalizeAddress_idempotent "0xAbC" eq_refl).
Defined.

(** What [isValidAddress] accepts. *)
Lemma isValidAddress_inv (address : string) :
  isValidAddress address = true ->
  exists digits,
    address = ("0x" ++ digits)%string /\ hex_only digits = true /\
    (1 <= String.length digits <= 64)%nat.
Proof.
  unfold isValidAddress, ADDRESS_REGEX_test.
  destruct (String.eqb address EmptyString); [ discriminate | ].
  intros H.
  apply andb_true_iff in H. destruct H as [H0x H].
  apply andb_true_iff in H. destruct H as [H Hhex].
  apply andb_true_iff in H. destruct H as [Hlo Hhi].
  apply Nat.leb_le in Hlo, Hhi.
  exists (slice_from 2 address).
  split; [ now apply startsWith_0x_inv | split; [ exact Hhex | lia ] ].
Qed.

Lemma isValidAddress_0x (digits : string) :
  hex_only digits = true -> (1 <= String.length digits <= 64)%nat ->
  isValidAddress ("0x" ++ digits) = true.
Proof.
  intros Hhex Hlen. unfold isValidAddress, ADDRESS_REGEX_test.
  rewrite startsWith_0x_app. cbn [append String.eqb slice_from andb].
  rewrite Hhex, andb_true_r.
  apply andb_true_iff. split; apply Nat.leb_le; lia.
Qed.

(** The bytes of an address given by at most 64 hexadecimal digits. *)
Lemma encodeAddress_digits (digits : string) :
  hex_only digits = true -> (String.length digits <= 64)%nat ->
  encodeAddress ("0x" ++ digits) = Ok (Buffer_from_hex (padStart digits 64 "0")) /\
  length (Buffer_from_hex (padStart digits 64 "0")) = 32%nat.
Proof.
  intros Hhex Hlen.
  assert (Hphex : hex_only (padStart digits 64 "0") = true).
  { unfold padStart. now rewrite hex_only_app, hex_only_zeros, Hhex. }
  assert (Hplen : String.length (padStart digits 64 "0") = (2 * 32)%nat).
  { rewrite padStart_length. lia. }
  split.
  - unfold encodeAddress.
    rewrite startsWith_0x_app. cbn [append slice_from].
    now rewrite (hexToBytes_hex _ 32 Hphex Hplen).
  - exact (proj1 (Buffer_from_hex_spec 32 _ 0 Hphex Hplen)).
Qed.

(** X6. The guard every account action applies before it normalizes: for an
    address [isValidAddress] accepts, [normalizeAddress] returns 66
    characters that [isValidAddress] accepts again and that normalize to
    themselves, and [encodeAddress] gives the same 32 bytes for the address
    and for its normal form. *)
Theorem valid_address_normal_form (address : string) :
  isValidAddress address = true ->
  String.length (normalizeAddress address) = 66%nat /\
  isValidAddress (normalizeAddress address) = true /\
  normalizeAddress (normalizeAddress address) = normalizeAddress address /\
  exists bytes,
    length bytes = 32%nat /\
    encodeAddress address = Ok bytes /\
    encodeAddress (normalizeAddress address) = Ok bytes.
Proof.
  intros Hvalid.
  destruct (isValidAddress_inv address Hvalid) as (digits & -> & Hhex & Hlen).
  rewrite normalizeAddress_digits, startsWith_0x_app. cbn [append slice_from].
  set (padded := padStart (toLowerCase digits) 64 "0").
  assert (Hplen : String.length padded = 64%nat).
  { unfold padded. rewrite padStart_length, toLowerCase_length. lia. }
  assert (Hphex : hex_only padded = true).
  { unfold padded, padStart.
    now rewrite hex_only_app, hex_only_zeros, hex_only_lower, Hhex. }
  split; [ cbn [String.length]; lia | ].
  split; [ apply (isValidAddress_0x padded Hphex); lia | ].
  split.
  - change (String "0" (String "x" padded)) with ("0x" ++ padded)%string.
    rewrite normalizeAddress_digits, startsWith_0x_app. cbn [append slice_from].
    unfold padded at 1. unfold padStart at 2.
    rewrite toLowerCase_app, toLowerCase_zeros, toLowerCase_idem.
    fold (padStart (toLowerCase digits) 64 "0"). fold padded.
    now rewrite (padStart_long padded) by lia.
  - destruct (encodeAddress_digits digits Hhex ltac:(lia)) as [He Hl].
    exists (Buffer_from_hex (padStart digits 64 "0")).
    split; [ exact Hl | split; [ exact He | ] ].
    change (String "0" (String "x" padded)) with ("0x" ++ padded)%string.
    rewrite (proj1 (encodeAddress_digits padded Hphex ltac:(lia))).
    rewrite (padStart_long padded) by lia.
    unfold padded, padStart.
    rewrite <- toLowerCase_zeros at 1. rewrite <- toLowerCase_app.
    rewrite toLowerCase_length.
    now rewrite (Buffer_from_hex_lower 64)
      by (rewrite string_length_app, string_repeat_length; lia).
Qed.

Lemma valid_address_normal_form_witness :
  isValidAddress "0xAbC" = true /\
  String.length (normalizeAddress "0xAbC") = 66%nat /\
  isValidAddress (normalizeAddress "0xAbC") = true /\
  normalizeAddress (normalizeAddress "0xAbC") = normalizeAddress "0xAbC" /\
  exists bytes,
    length bytes = 32%nat /\
    encodeAddress "0xAbC" = Ok bytes /\
    encodeAddress (normalizeAddress "0xAbC") = Ok bytes.
Proof.
  split; [ reflexivity | ].
  exact (valid_address_normal_form "0xAbC" eq_refl).
Defined.

Lemma digit_value_16_range (c : ascii) (v : Z) :
  digit_value 16 c = Some v -> 0 <= v < 16.
Proof.
  destruct c as [[] [] [] [] [] [] [] []]; intros H; vm_compute in H;
    try discriminate H; injection H as <-; lia.
Qed.

(** Lowercase hexadecimal numerals of one length that denote the same
    number are the same string. *)
Lemma parse_digits_lower_inj (s : string) :
  forall (t : string) (a b : Z),
    String.length s = String.length t ->
    hex_only s = true -> hex_only t = true ->
    toLowerCase s = s -> toLowerCase t = t ->
    parse_digits 16 s a = parse_digits 16 t b ->
    s = t /\ a = b.
Proof.
  induction s as [ | c s IH]; intros [ | c' t] a b Hlen Hs Ht Ls Lt Hp;
    try discriminate Hlen.
  - simpl in Hp. injection Hp as ->. auto.
  - cbn [hex_only] in Hs, Ht.
    apply andb_true_iff in Hs, Ht. destruct Hs as [Hc Hs], Ht as [Hc' Ht].
    destruct (is_hex_digit_value c Hc) as [x Hx].
    destruct (is_hex_digit_value c' Hc') as [y Hy].
    cbn [toLowerCase] in Ls, Lt.
    injection Ls as Lc Ls. injection Lt as Lc' Lt.
    cbn [parse_digits] in Hp. rewrite Hx, Hy in Hp.
    simpl in Hlen. injection Hlen as Hlen.
    destruct (IH t _ _ Hlen Hs Ht Ls Lt Hp) as [-> Hacc].
    pose proof (digit_value_16_range c x Hx).
    pose proof (digit_value_16_range c' y Hy).
    assert (x = y /\ a = b) as [-> ->] by lia.
    split; [ | reflexivity ].
    f_equal.
    rewrite <- Lc, <- Lc'.
    now rewrite <- (hex_digit_lower c y Hx), <- (hex_digit_lower c' y Hy).
Qed.

Lemma normalizeAddress_same_value (d e : string) :
  hex_only d = true -> hex_only e = true ->
  (String.length d <= 64)%nat -> (String.length e <= 64)%nat ->
  (normalizeAddress ("0x" ++ d) = normalizeAddress ("0x" ++ e)
   <-> parse_digits 16 d 0 = parse_digits 16 e 0).
Proof.
  intros Hd He Ld Le.
  rewrite !normalizeAddress_digits, !startsWith_0x_app. cbn [append slice_from].
  assert (Hpad : forall x : string,
             hex_only x = true -> (String.length x <= 64)%nat ->
             String.length (padStart (toLowerCase x) 64 "0") = 64%nat /\
             hex_only (padStart (toLowerCase x) 64 "0") = true /\
             toLowerCase (padStart (toLowerCase x) 64 "0")
             = padStart (toLowerCase x) 64 "0" /\
             parse_digits 16 (padStart (toLowerCase x) 64 "0") 0 = parse_digits 16 x 0).
  { intros x Hx Lx.
    split; [ rewrite padStart_length, toLowerCase_length; lia | ].
    unfold padStart.
    split; [ now rewrite hex_only_app, hex_only_zeros, hex_only_lower, Hx | ].
    split; [ now rewrite toLowerCase_app, toLowerCase_zeros, toLowerCase_idem | ].
    now rewrite parse_digits_zeros, parse_digits_lower. }
  destruct (Hpad d Hd Ld) as (Pl & Ph & Pc & Pv).
  destruct (Hpad e He Le) as (Ql & Qh & Qc & Qv).
  split.
  - intros H. injection H as H. now rewrite <- Pv, <- Qv, H.
  - intros H. do 2 f_equal.
    apply (parse_digits_lower_inj _ _ 0 0); try assumption; [ lia | ].
    now rewrite Pv, Qv.
Qed.

(** X7. Two addresses [isValidAddress] accepts have one normal form exactly when
    their digits denote the same number: letter case and leading zeros are
    all that [normalizeAddress] removes. *)
Theorem normalizeAddress_equal_iff_same_number (a b : string) :
  isValidAddress a = true -> isValidAddress b = true ->
  (normalizeAddress a = normalizeAddress b
   <-> parse_digits 16 (slice_from 2 a) 0 = parse_digits 16 (slice_from 2 b) 0).
Proof.
  intros Ha Hb.
  destruct (isValidAddress_inv a Ha) as (d & -> & Hd & Ld).
  destruct (isValidAddress_inv b Hb) as (e & -> & He & Le).
  cbn [append slice_from].
  apply (normalizeAddress_same_value d e Hd He); lia.
Qed.

Lemma normalizeAddress_equal_iff_same_number_witness :
  isValidAddress "0x0A" = true /\ isValidAddress "0x00a" = true /\
  (normalizeAddress "0x0A" = normalizeAddress "0x00a"
   <-> parse_digits 16 (slice_from 2 "0x0A") 0 = parse_digits 16 (slice_from 2 "0x00a") 0).
Proof.
  split; [ reflexivity | split; [ reflexivity | ] ].
  exact (normalizeAddress_equal_iff_same_number "0x0A" "0x00a" eq_refl eq_refl).
Defined.

(** X8. For an address [isValidAddress] accepts, [isFrameworkAddress] holds
    exactly when the digits denote 1, 3 or 4, however they are written. *)
Theorem isFrameworkAddress_iff_1_3_4 (address : string) :
  isValidAddress address = true ->
  (isFrameworkAddress address = true
   <-> parse_digits 16 (slice_from 2 address) 0 = Some 1 \/
       parse_digits 16 (slice_from 2 address) 0 = Some 3 \/
       parse_digits 16 (slice_from 2 address) 0 = Some 4).
Proof.
  intros Ha.
  destruct (isValidAddress_inv address Ha) as (d & -> & Hd & Ld).
  cbn [append slice_from].
  assert (H1 := normalizeAddress_same_value d "1" Hd eq_refl ltac:(lia) ltac:(simpl; lia)).
  assert (H3 := normalizeAddress_same_value d "3" Hd eq_refl ltac:(lia) ltac:(simpl; lia)).
  assert (H4 := normalizeAddress_same_value d "4" Hd eq_refl ltac:(lia) ltac:(simpl; lia)).
  change (parse_digits 16 "1" 0) with (Some 1) in H1.
  change (parse_digits 16 "3" 0) with (Some 3) in H3.
  change (parse_digits 16 "4" 0) with (Some 4) in H4.
  change ("0x" ++ "1")%string with "0x1"%string in H1.
  change ("0x" ++ "3")%string with "0x3"%string in H3.
  change ("0x" ++ "4")%string with "0x4"%string in H4.
  change (String "0" (String "x" d)) with ("0x" ++ d)%string.
  unfold isFrameworkAddress. cbn [existsb].
  rewrite orb_false_r, !orb_true_iff, !String.eqb_eq.
  rewrite H1, H3, H4. tauto.
Qed.

Lemma isFrameworkAddress_iff_1_3_4_witness :
  isValidAddress "0x0003" = true /\
  (isFrameworkAddress "0x0003" = true
   <-> parse_digits 16 (slice_from 2 "0x0003") 0 = Some 1 \/
       parse_digits 16 (slice_from 2 "0x0003") 0 = Some 3 \/
       parse_digits 16 (slice_from 2 "0x0003") 0 = Some 4).
Proof.
  split; [ reflexivity | ].
  exact (isFrameworkAddress_iff_1_3_4 "0x0003" eq_refl).
Defined.

(* ------------------------------------------------------------------ *)
(** ** [shortenAddress] *)
(* ------------------------------------------------------------------ *)

Lemma slice_from_length (n : nat) :
  forall s : string, String.length (slice_from n s) = (String.length s - n)%nat.
Proof.
  induction n as [ | n IH]; intros [ | c s]; simpl; try reflexivity; try lia.
  apply IH.
Qed.

Lemma substring_0_length (n : nat) :
  forall s : string,
    (n <= String.length s)%nat -> String.length (String.substring 0 n s) = n.
Proof.
  induction n as [ | n IH]; intros [ | c s] H; simpl in *; try reflexivity; try lia.
  rewrite IH by lia. reflexivity.
Qed.

Lemma substring_0_slice_from (n : nat) :
  forall s : string, (String.substring 0 n s ++ slice_from n s)%string = s.
Proof.
  induction n as [ | n IH]; intros [ | c s]; simpl; try reflexivity.
  now rewrite IH.
Qed.

(** X9. An address of more than [startChars + endChars + 3] characters is cut to
    its first [startChars] characters, three dots and its last [endChars]:
    [startChars + 3 + endChars] characters in all.  With [endChars] 0 the
    tail is [slice(-0)], the whole string, and the result is longer than the
    address. *)
Theorem shortenAddress_long (address : string) (startChars endChars : nat) :
  (startChars + endChars + 3 < String.length address)%nat ->
  exists first last : string,
    shortenAddress address startChars endChars = (first ++ "..." ++ last)%string /\
    String.length first = startChars /\
    (exists rest, address = (first ++ rest)%string) /\
    if (endChars =? 0)%nat then last = address
    else String.length last = endChars /\
         exists rest, address = (rest ++ last)%string.
Proof.
  unfold shortenAddress. intros H.
  assert (Hne : String.eqb address EmptyString = false).
  { destruct address; [ simpl in H; lia | reflexivity ]. }
  rewrite Hne. cbn [orb].
  apply Nat.leb_gt in H as Hb. rewrite Hb.
  exists (slice address 0 startChars), (slice_last address endChars).
  split; [ reflexivity | ].
  unfold slice. rewrite Nat.sub_0_r.
  split; [ apply substring_0_length; lia | ].
  split; [ exists (slice_from startChars address);
           symmetry; apply substring_0_slice_from | ].
  unfold slice_last.
  destruct (endChars =? 0)%nat eqn:He; [ reflexivity | ].
  apply Nat.eqb_neq in He.
  split; [ rewrite slice_from_length; lia | ].
  exists (String.substring 0 (String.length address - endChars) address).
  symmetry. apply substring_0_slice_from.
Qed.

Lemma shortenAddress_long_witness :
  (6 + 0 + 3 < String.length "0x1234567890abcdef")%nat /\
  exists first last : string,
    shortenAddress "0x1234567890abcdef" 6 0 = (first ++ "..." ++ last)%string /\
    String.length first = 6%nat /\
    (exists rest, "0x1234567890abcdef"%string = (first ++ rest)%string) /\
    last = "0x1234567890abcdef"%string.
Proof.
  split; [ simpl; lia | ].
  exact (shortenAddress_long "0x1234567890abcdef" 6 0 ltac:(simpl; lia)).
Defined.

(* ------------------------------------------------------------------ *)
(** ** [decodeU64] first, [encodeU64] second                           *)
(* ------------------------------------------------------------------ *)

Lemma le_bytes_succ (k : nat) (v : Z) :
  le_bytes (S k) v = v mod 256 :: le_bytes k (v / 256).
Proof.
  unfold le_bytes. cbn [seq map Z.of_nat].
  rewrite Z.pow_0_r, Z.div_1_r. f_equal.
  rewrite <- seq_shift, map_map.
  apply map_ext. intros i.
  rewrite Nat2Z.inj_succ, Z.pow_succ_r by lia.
  now rewrite Z.div_div by lia.
Qed.

Lemma le_bytes_le_value (l : list Z) :
  Forall is_byte l -> le_bytes (length l) (le_value l) = l.
Proof.
  induction 1 as [ | b l Hb _ IH]; [ reflexivity | ].
  cbn [length le_value]. rewrite le_bytes_succ.
  unfold is_byte in Hb.
  rewrite (Z.mul_comm 256 (le_value l)).
  rewrite Z.mod_add, Z.div_add by lia.
  rewrite (Z.mod_small b 256), (Z.div_small b 256) by lia.
  rewrite Z.add_0_l.
  now rewrite IH.
Qed.

(** X10. [decodeU64] returns a value below [2^64] for every array, and
    [encodeU64] of that value is the first eight bytes of the array, filled
    with zero bytes when the array is shorter: bytes after the eighth are
    lost, nothing else is. *)
Theorem encodeU64_decodeU64 (bytes : Uint8Array) :
  Forall is_byte bytes ->
  exists n,
    decodeU64 bytes = Ok n /\ 0 <= n < 2 ^ 64 /\
    encodeU64 (ABigInt n) = Ok (firstn 8 bytes ++ repeat 0 (8 - length bytes)).
Proof.
  intros Hb.
  exists (le_value (firstn 8 bytes)).
  split; [ now apply decodeU64_value | ].
  assert (Hf : Forall is_byte (firstn 8 bytes)) by now apply Forall_firstn_byte.
  set (padded := firstn 8 bytes ++ repeat 0 (8 - length bytes)).
  assert (Hlen : length padded = 8%nat).
  { unfold padded. rewrite length_app, length_firstn, repeat_length. lia. }
  assert (Hp : Forall is_byte padded).
  { unfold padded. apply Forall_app. split; [ exact Hf | apply repeat_zero_is_byte ]. }
  assert (Hv : le_value padded = le_value (firstn 8 bytes)).
  { unfold padded. rewrite le_value_app, le_value_zeros. lia. }
  split.
  - rewrite <- Hv. pose proof (le_value_bound padded Hp) as Hbd.
    rewrite Hlen in Hbd. change (256 ^ Z.of_nat 8) with (2 ^ 64) in Hbd. exact Hbd.
  - rewrite (encodeU64_bytes (ABigInt _) _ (holds_bigint _)).
    rewrite <- Hv, <- Hlen. now rewrite le_bytes_le_value.
Qed.

Lemma encodeU64_decodeU64_witness :
  Forall is_byte [1; 2; 3] /\
  exists n,
    decodeU64 [1; 2; 3] = Ok n /\ 0 <= n < 2 ^ 64 /\
    encodeU64 (ABigInt n) = Ok [1; 2; 3; 0; 0; 0; 0; 0].
Proof.
  assert (H : Forall is_byte [1; 2; 3]) by (repeat constructor; unfold is_byte; lia).
  split; [ exact H | ].
  exact (encodeU64_decodeU64 [1; 2; 3] H).
Defined.

(* ------------------------------------------------------------------ *)
(** ** The shape of a ULEB128 number and its place in a buffer         *)
(* ------------------------------------------------------------------ *)

Lemma uleb128_digits_shape (fuel : nat) :
  forall v : Z,
    0 <= v < 128 ^ Z.of_nat fuel -> fuel <> O ->
    exists (init : list Z) (last : Z),
      uleb128_digits fuel v = init ++ [last] /\
      (length init < fuel)%nat /\
      Forall (fun b => 128 <= b < 256) init /\
      0 <= last < 128 /\
      (init = [] <-> v < 128) /\
      (last = 0 -> v = 0).
Proof.
  induction fuel as [ | fuel IH]; intros v Hv Hf; [ now destruct Hf | ].
  cbn [uleb128_digits].
  pose proof (Z.mod_pos_bound v 128 ltac:(lia)) as Hm.
  destruct (Z.eqb_spec (v / 128) 0) as [Hq | Hq].
  - assert (Hs : v < 128).
    { destruct (Z.ltb_spec v 128); [ assumption | ].
      assert (1 <= v / 128) by (apply Z.div_le_lower_bound; lia). lia. }
    exists [], (v mod 128).
    rewrite Z.mod_small by lia.
    repeat split; simpl; try lia; try constructor.
  - assert (Hs : 128 <= v).
    { destruct (Z.ltb_spec v 128); [ | assumption ].
      rewrite Z.div_small in Hq by lia. now destruct Hq. }
    assert (Hq' : 0 <= v / 128 < 128 ^ Z.of_nat fuel).
    { rewrite Nat2Z.inj_succ, Z.pow_succ_r in Hv by lia.
      split; [ apply Z.div_pos; lia | apply Z.div_lt_upper_bound; lia ]. }
    assert (Hf' : fuel <> O).
    { intros ->. change (128 ^ Z.of_nat 0) with 1 in Hq'. lia. }
    destruct (IH (v / 128) Hq' Hf') as (init & last & E & Hl & Hi & Hlast & _ & Hz).
    exists ((v mod 128 + 128) :: init), last.
    rewrite E.
    repeat split; simpl; try lia.
    + constructor; [ lia | exact Hi ].
    + discriminate.
Qed.

(** X11. For [0 <= k < 2^31], [encodeUleb128] returns between one and five bytes:
    every byte but the last has its top bit set, the last has not, and the
    last is zero only for [k = 0]; there is one byte exactly when
    [k < 128]. *)
Theorem encodeUleb128_shape (x : number) (k : Z) :
  number_int x = Some k -> 0 <= k < 2 ^ 31 ->
  exists (init : list Z) (last : Z),
    encodeUleb128 x = Some (init ++ [last]) /\
    (length init <= 4)%nat /\
    Forall (fun b => 128 <= b < 256) init /\
    0 <= last < 128 /\
    (init = [] <-> k < 128) /\
    (last = 0 -> k = 0).
Proof.
  intros Hx Hk.
  destruct (uleb128_digits_shape 5 k) as (init & last & E & Hl & Hrest).
  - change (128 ^ Z.of_nat 5) with (2 ^ 35).
    assert (2 ^ 31 < 2 ^ 35) by (apply Z.pow_lt_mono_r; lia). lia.
  - discriminate.
  - exists init, last.
    rewrite (encodeUleb128_digits x k Hx Hk), E.
    split; [ reflexivity | split; [ lia | exact Hrest ] ].
Qed.

Lemma encodeUleb128_shape_witness :
  number_int (Z2number 300) = Some 300 /\ 0 <= 300 < 2 ^ 31 /\
  exists (init : list Z) (last : Z),
    encodeUleb128 (Z2number 300) = Some (init ++ [last]) /\
    (length init <= 4)%nat /\
    Forall (fun b => 128 <= b < 256) init /\
    0 <= last < 128 /\
    (init = [] <-> 300 < 128) /\
    (last = 0 -> 300 = 0).
Proof.
  assert (H : 0 <= 300 < 2 ^ 31) by (split; [ lia | reflexivity ]).
  split; [ apply number_int_Z2number | split; [ exact H | ] ].
  exact (encodeUleb128_shape (Z2number 300) 300 (number_int_Z2number 300) H).
Defined.

(* ------------------------------------------------------------------ *)
(** ** [concatBytes], [encodeVector], [encodeString], [decodeString]   *)
(* ------------------------------------------------------------------ *)

Lemma fold_left_lengths (arrays : list Uint8Array) (acc : Z) :
  fold_left (fun sum arr => sum + array_length arr) arrays acc
  = acc + array_length (List.concat arrays).
Proof.
  revert acc. unfold array_length.
  induction arrays as [ | arr arrays IH]; intros acc; cbn [fold_left List.concat].
  - simpl. lia.
  - rewrite IH, length_app. lia.
Qed.

Lemma typed_set_fill (done arr : Uint8Array) (n : nat) :
  typed_set (done ++ repeat 0 (length arr + n)) arr (array_length done)
  = Ok ((done ++ arr) ++ repeat 0 n).
Proof.
  unfold typed_set, array_length.
  rewrite length_app, repeat_length.
  destruct (Z.ltb_spec (Z.of_nat (length done)) 0); [ lia | ].
  destruct (Z.ltb_spec (Z.of_nat (length done + (length arr + n)))
                       (Z.of_nat (length done) + Z.of_nat (length arr))); [ lia | ].
  cbn [orb]. rewrite Nat2Z.id.
  rewrite firstn_app, firstn_all, Nat.sub_diag, firstn_O, app_nil_r.
  rewrite skipn_app, skipn_all2 by lia.
  replace (length done + length arr - length done)%nat with (length arr) by lia.
  rewrite repeat_app, skipn_app, skipn_all2 by (rewrite repeat_length; lia).
  rewrite repeat_length, Nat.sub_diag. cbn [skipn app].
  now rewrite <- app_assoc.
Qed.

Lemma concatBytes_loop_fill (arrays : list Uint8Array) :
  forall done : Uint8Array,
    concatBytes_loop arrays (done ++ repeat 0 (length (List.concat arrays)))
                     (array_length done)
    = Ok (done ++ List.concat arrays).
Proof.
  induction arrays as [ | arr arrays IH]; intros done; cbn [concatBytes_loop List.concat].
  - reflexivity.
  - rewrite length_app, typed_set_fill. unfold bind.
    replace (array_length done + array_length arr) with (array_length (done ++ arr))
      by (unfold array_length; rewrite length_app; lia).
    rewrite IH. now rewrite <- app_assoc.
Qed.

(** X12. [concatBytes] never throws: every [set] fits the array allocated for the
    total length, and the result is the arrays one after the other. *)
Theorem concatBytes_concat (arrays : list Uint8Array) :
  concatBytes arrays = Ok (List.concat arrays) /\
  forall more : list Uint8Array,
    concatBytes (arrays ++ more)
    = (front <- concatBytes arrays ;; back <- concatBytes more ;; Ok (front ++ back)).
Proof.
  assert (H : forall l, concatBytes l = Ok (List.concat l)).
  { intros l. unfold concatBytes.
    rewrite fold_left_lengths. unfold array_length, new_Uint8Array.
    rewrite Z.add_0_l, Nat2Z.id.
    exact (concatBytes_loop_fill l []). }
  split; [ apply H | ].
  intros more. rewrite !H. unfold bind. now rewrite concat_app.
Qed.

Lemma array_slice_middle {A : Type} (a b c : list A) :
  array_slice (a ++ b ++ c) (array_length a) (array_length a + array_length b) = b.
Proof.
  unfold array_slice, array_length. rewrite !length_app.
  destruct (Z.ltb_spec (Z.of_nat (length a)) 0); [ lia | ].
  destruct (Z.ltb_spec (Z.of_nat (length a) + Z.of_nat (length b)) 0); [ lia | ].
  rewrite !Z.min_l by lia.
  replace (Z.to_nat (Z.of_nat (length a) + Z.of_nat (length b) - Z.of_nat (length a)))
    with (length b) by lia.
  rewrite Nat2Z.id.
  rewrite skipn_app, skipn_all, Nat.sub_diag. cbn [skipn app].
  rewrite firstn_app, firstn_all, Nat.sub_diag, firstn_O. apply app_nil_r.
Qed.

Lemma TextDecoder_decode_char (c : ascii) (rest : list Z) :
  TextDecoder_decode (utf8_encode_char c ++ rest)
  = option_map (String c) (TextDecoder_decode rest).
Proof. destruct c as [[] [] [] [] [] [] [] []]; reflexivity. Qed.

Lemma TextDecoder_decode_encode (s : string) :
  TextDecoder_decode (TextEncoder_encode s) = Some s.
Proof.
  induction s as [ | c s IH]; [ reflexivity | ].
  cbn [TextEncoder_encode]. now rewrite TextDecoder_decode_char, IH.
Qed.

(** X13. A string written by [encodeString] anywhere in a buffer is read back by
    [decodeString] at that offset, with a count of bytes read equal to the
    number of bytes written, whatever precedes and follows it.  The UTF-8
    form must be shorter than [2^31] bytes, the range of the length
    prefix. *)
Theorem decodeString_encodeString (s : string) (pre post : list Z) :
  array_length (TextEncoder_encode s) < 2 ^ 31 ->
  exists enc,
    encodeString s = Some enc /\
    decodeString (pre ++ enc ++ post) (array_length pre)
    = Some {| decoded_value := s; decoded_bytesRead := array_length enc |}.
Proof.
  intros Hlen.
  set (stringBytes := TextEncoder_encode s) in *.
  set (L := array_length stringBytes) in *.
  assert (HL : 0 <= L < 2 ^ 31) by (unfold L, array_length in *; lia).
  set (digits := uleb128_digits 5 L).
  exists (digits ++ stringBytes).
  split.
  - unfold encodeString. fold stringBytes L.
    now rewrite (encodeUleb128_digits (Z2number L) L (number_int_Z2number L) HL).
  - unfold decodeString.
    rewrite <- (app_assoc digits stringBytes post).
    unfold digits at 1.
    rewrite (decodeUleb128_digits L pre (stringBytes ++ post) HL).
    fold digits.
    replace (array_length pre + array_length digits) with (array_length (pre ++ digits))
      by (unfold array_length; rewrite length_app; lia).
    rewrite (app_assoc pre digits (stringBytes ++ post)).
    fold L. unfold L at 1.
    rewrite array_slice_middle.
    unfold stringBytes at 1. rewrite TextDecoder_decode_encode.
    do 2 f_equal. unfold L, array_length. rewrite length_app. lia.
Qed.

Lemma decodeString_encodeString_witness :
  array_length (TextEncoder_encode "Aptos") < 2 ^ 31 /\
  exists enc,
    encodeString "Aptos" = Some enc /\
    decodeString ([7; 7] ++ enc ++ [9]) (array_length [7; 7])
    = Some {| decoded_value := "Aptos"; decoded_bytesRead := array_length enc |}.
Proof.
  assert (H : array_length (TextEncoder_encode "Aptos") < 2 ^ 31) by reflexivity.
  split; [ exact H | ].
  exact (decodeString_encodeString "Aptos" [7; 7] [9] H).
Defined.

(** X14. [encodeVector] writes the number of items, as [decodeUleb128] reads it
    back at the start of the result, and then the items one after the
    other, for fewer than [2^31] items. *)
Theorem encodeVector_count (items : list Uint8Array) :
  array_length items < 2 ^ 31 ->
  exists lengthPrefix,
    encodeVector items = Some (lengthPrefix ++ List.concat items) /\
    (1 <= length lengthPrefix <= 5)%nat /\
    forall post : list Z,
      decodeUleb128 (lengthPrefix ++ List.concat items ++ post) 0
      = Some {| value := array_length items; bytesRead := array_length lengthPrefix |}.
Proof.
  intros Hlen.
  set (n := array_length items) in *.
  assert (Hn : 0 <= n < 2 ^ 31) by (unfold n, array_length in *; lia).
  exists (uleb128_digits 5 n).
  split; [ | split ].
  - unfold encodeVector. fold n.
    now rewrite (encodeUleb128_digits (Z2number n) n (number_int_Z2number n) Hn).
  - destruct (uleb128_digits_shape 5 n) as (init & last & E & Hl & _).
    + change (128 ^ Z.of_nat 5) with (2 ^ 35).
      assert (2 ^ 31 < 2 ^ 35) by (apply Z.pow_lt_mono_r; lia). lia.
    + discriminate.
    + rewrite E, length_app. simpl. lia.
  - intros post.
    exact (decodeUleb128_digits n [] (List.concat items ++ post) Hn).
Qed.

Lemma encodeVector_count_witness :
  array_length [[1; 2]; [3]] < 2 ^ 31 /\
  exists lengthPrefix,
    encodeVector [[1; 2]; [3]] = Some (lengthPrefix ++ List.concat [[1; 2]; [3]]) /\
    (1 <= length lengthPrefix <= 5)%nat /\
    forall post : list Z,
      decodeUleb128 (lengthPrefix ++ List.concat [[1; 2]; [3]] ++ post) 0
      = Some {| value := array_length [[1; 2]; [3]];
                bytesRead := array_length lengthPrefix |}.
Proof.
  assert (H : array_length [[1; 2]; [3]] < 2 ^ 31) by reflexivity.
  split; [ exact H | ].
  exact (encodeVector_count [[1; 2]; [3]] H).
Defined.

(* ------------------------------------------------------------------ *)
(** ** [encodeMoveArg]: vectors, and the types it does not reach       *)
(* ------------------------------------------------------------------ *)

Lemma encodeMoveArg_eq (type : string) (value : jsval) :
  encodeMoveArg type value
  = if String.eqb (toLowerCase type) "bool" then Some (Ok (encodeBool (ToBoolean value)))
    else if String.eqb (toLowerCase type) "u8" then lift_number encodeU8 value
    else if String.eqb (toLowerCase type) "u16" then lift_number encodeU16 value
    else if String.eqb (toLowerCase type) "u32" then lift_number encodeU32 value
    else if String.eqb (toLowerCase type) "u64" then lift_amount encodeU64 value
    else if String.eqb (toLowerCase type) "u128" then lift_amount encodeU128 value
    else if String.eqb (toLowerCase type) "u256" then lift_amount encodeU256 value
    else if String.eqb (toLowerCase type) "address" then
      match value with
      | JString s => Some (encodeAddress s)
      | _ => Some (Throw TypeError)
      end
    else if String.eqb (toLowerCase type) "string"
            || String.eqb (toLowerCase type) "0x1::string::String" then
      match value with
      | JString s => option_map Ok (encodeString s)
      | _ => None
      end
    else if startsWith type "vector<" then
      match value with
      | JArray values =>
          match map_results (encodeMoveArg (slice type 7 (String.length type - 1))) values with
          | Some (Ok items) => option_map Ok (encodeVector items)
          | Some (Throw e) => Some (Throw e)
          | None => None
          end
      | _ => Some (Throw TypeError)
      end
    else Some (Throw Error).
Proof. destruct value; reflexivity. Qed.

Lemma startsWith_app (p s : string) : startsWith (p ++ s) p = true.
Proof.
  unfold startsWith. induction p as [ | c p IH]; simpl.
  - now destruct s.
  - destruct (ascii_dec c c) as [_ | Hne]; [ exact IH | now destruct Hne ].
Qed.

Lemma startsWith_inv (p : string) :
  forall s : string,
    startsWith s p = true -> s = (p ++ slice_from (String.length p) s)%string.
Proof.
  unfold startsWith. induction p as [ | c p IH]; intros s H; [ reflexivity | ].
  destruct s as [ | d s]; [ discriminate H | ].
  simpl in H. destruct (ascii_dec c d) as [-> | ]; [ | discriminate H ].
  simpl. f_equal. now apply IH.
Qed.

Lemma startsWith_first (c d : ascii) (s p : string) :
  c <> d -> startsWith (String d s) (String c p) = false.
Proof.
  intros Hne. unfold startsWith. simpl.
  destruct (ascii_dec c d) as [E | _]; [ now destruct Hne | reflexivity ].
Qed.

Lemma substring_0_app (s t : string) :
  String.substring 0 (String.length s) (s ++ t) = s.
Proof.
  induction s as [ | c s IH]; simpl; [ now destruct t | now rewrite IH ].
Qed.

Lemma map_results_Forall2 {A B : Type} (f : A -> option (js_result B))
    (vs : list A) (items : list B) :
  Forall2 (fun v item => f v = Some (Ok item)) vs items ->
  map_results f vs = Some (Ok items).
Proof.
  induction 1 as [ | v item vs items Hv _ IH]; [ reflexivity | ].
  now rewrite map_results_cons, Hv, IH.
Qed.

Lemma map_results_throw {A B : Type} (f : A -> option (js_result B))
    (vs : list A) (items : list B) (v : A) (e : js_error) (rest : list A) :
  Forall2 (fun v item => f v = Some (Ok item)) vs items ->
  f v = Some (Throw e) ->
  map_results f (vs ++ v :: rest) = Some (Throw e).
Proof.
  intros H Hv.
  induction H as [ | v' item vs items Hv' _ IH]; cbn [app]; rewrite map_results_cons.
  - now rewrite Hv.
  - now rewrite Hv', IH.
Qed.

(** X15. The vector branch of [encodeMoveArg], for any element type [T]: when
    every element encodes at type [T], the result is the ULEB128 number of
    elements followed by the encodings of the elements in order; when an
    element throws and those before it encode, that error is the result; a
    value that is not an array gives a TypeError. *)
Theorem encodeMoveArg_vector (T : string) (values : list jsval) (items : list Uint8Array) :
  Forall2 (fun v item => encodeMoveArg T v = Some (Ok item)) values items ->
  array_length values < 2 ^ 31 ->
  (exists lengthPrefix,
      encodeUleb128 (Z2number (array_length values)) = Some lengthPrefix /\
      encodeMoveArg ("vector<" ++ T ++ ">") (JArray values)
      = Some (Ok (lengthPrefix ++ List.concat items))) /\
  (forall (v : jsval) (e : js_error) (rest : list jsval),
      encodeMoveArg T v = Some (Throw e) ->
      encodeMoveArg ("vector<" ++ T ++ ">") (JArray (values ++ v :: rest))
      = Some (Throw e)) /\
  (forall s : string,
      encodeMoveArg ("vector<" ++ T ++ ">") (JString s) = Some (Throw TypeError)).
Proof.
  intros Hitems Hlen.
  assert (Hinner : slice ("vector<" ++ T ++ ">")%string 7
                         (String.length ("vector<" ++ T ++ ">")%string - 1) = T).
  { unfold slice.
    rewrite !string_length_app.
    replace (String.length "vector<" + (String.length T + String.length ">") - 1 - 7)%nat
      with (String.length T) by (simpl; lia).
    etransitivity;
      [ exact (substring_app_skip "vector<" (T ++ ">") (String.length T))
      | apply substring_0_app ]. }
  assert (Heq : forall value,
             encodeMoveArg ("vector<" ++ T ++ ">") value
             = match value with
               | JArray values =>
                   match map_results (encodeMoveArg T) values with
                   | Some (Ok items) => option_map Ok (encodeVector items)
                   | Some (Throw e) => Some (Throw e)
                   | None => None
                   end
               | _ => Some (Throw TypeError)
               end).
  { intros value. rewrite encodeMoveArg_eq.
    rewrite Hinner, startsWith_app.
    rewrite (toLowerCase_app "vector<").
    reflexivity. }
  split; [ | split ].
  - assert (Hn : 0 <= array_length values < 2 ^ 31)
      by (unfold array_length in *; lia).
    exists (uleb128_digits 5 (array_length values)).
    split; [ exact (encodeUleb128_digits _ _ (number_int_Z2number _) Hn) | ].
    rewrite Heq, (map_results_Forall2 _ _ _ Hitems).
    unfold encodeVector.
    replace (array_length items) with (array_length values)
      by (unfold array_length; now rewrite (Forall2_length Hitems)).
    now rewrite (encodeUleb128_digits _ _ (number_int_Z2number _) Hn).
  - intros v e rest Hv.
    now rewrite Heq, (map_results_throw _ _ _ _ _ _ Hitems Hv).
  - intros s. now rewrite Heq.
Qed.

Lemma encodeMoveArg_vector_witness :
  Forall2 (fun v item => encodeMoveArg "u8" v = Some (Ok item))
          [JNumber (Z2number 1); JNumber (Z2number 2)] [[1]; [2]] /\
  array_length [JNumber (Z2number 1); JNumber (Z2number 2)] < 2 ^ 31 /\
  (exists lengthPrefix,
      encodeUleb128 (Z2number (array_length [JNumber (Z2number 1); JNumber (Z2number 2)]))
      = Some lengthPrefix /\
      encodeMoveArg ("vector<" ++ "u8" ++ ">") (JArray [JNumber (Z2number 1); JNumber (Z2number 2)])
      = Some (Ok (lengthPrefix ++ List.concat [[1]; [2]]))) /\
  (forall (v : jsval) (e : js_error) (rest : list jsval),
      encodeMoveArg "u8" v = Some (Throw e) ->
      encodeMoveArg ("vector<" ++ "u8" ++ ">")
                    (JArray ([JNumber (Z2number 1); JNumber (Z2number 2)] ++ v :: rest))
      = Some (Throw e)) /\
  (forall s : string,
      encodeMoveArg ("vector<" ++ "u8" ++ ">") (JString s) = Some (Throw TypeError)).
Proof.
  assert (H1 : Forall2 (fun v item => encodeMoveArg "u8" v = Some (Ok item))
                       [JNumber (Z2number 1); JNumber (Z2number 2)] [[1]; [2]])
    by (repeat constructor).
  assert (H2 : array_length [JNumber (Z2number 1); JNumber (Z2number 2)] < 2 ^ 31)
    by reflexivity.
  split; [ exact H1 | split; [ exact H2 | ] ].
  exact (encodeMoveArg_vector "u8" _ _ H1 H2).
Defined.

(** X16. The case label ['0x1::string::String'] is never reached: the switch is
    on the lowercased type, which cannot equal a label with a capital
    letter.  However the type name is capitalized, [encodeMoveArg] ends in
    its default branch and throws the error for an unsupported type. *)
Theorem encodeMoveArg_string_type_unsupported (type : string) (value : jsval) :
  toLowerCase type = toLowerCase "0x1::string::String" ->
  encodeMoveArg type value = Some (Throw Error).
Proof.
  intros H. rewrite encodeMoveArg_eq, H.
  assert (Hv : startsWith type "vector<" = false).
  { destruct type as [ | c t]; [ reflexivity | ].
    apply startsWith_first. intros <-. discriminate H. }
  rewrite Hv. reflexivity.
Qed.

Lemma encodeMoveArg_string_type_unsupported_witness :
  toLowerCase "0x1::string::String" = toLowerCase "0x1::string::String" /\
  encodeMoveArg "0x1::string::String" (JString "abc") = Some (Throw Error).
Proof.
  split; [ reflexivity | ].
  exact (encodeMoveArg_string_type_unsupported "0x1::string::String" (JString "abc") eq_refl).
Defined.

(** X17. A vector type written with a capital letter ([Vector<u8>]) is a vector
    for [isVectorType], which lowercases before it looks at the prefix, and
    so for [convertToMoveArg]; [encodeMoveArg] tests the prefix of the type
    as given and throws the error for an unsupported type. *)
Theorem encodeMoveArg_vector_case_sensitive (type : string) (value : jsval) :
  isVectorType type = true -> startsWith type "vector<" = false ->
  encodeMoveArg type value = Some (Throw Error).
Proof.
  unfold isVectorType. intros Hlow Hraw.
  rewrite encodeMoveArg_eq, Hraw.
  rewrite (startsWith_inv _ _ Hlow).
  reflexivity.
Qed.

Lemma encodeMoveArg_vector_case_sensitive_witness :
  isVectorType "Vector<u8>" = true /\ startsWith "Vector<u8>" "vector<" = false /\
  encodeMoveArg "Vector<u8>" (JArray [JNumber (Z2number 1)]) = Some (Throw Error).
Proof.
  split; [ reflexivity | split; [ reflexivity | ] ].
  exact (encodeMoveArg_vector_case_sensitive "Vector<u8>" (JArray [JNumber (Z2number 1)])
           eq_refl eq_refl).
Defined.

(* ------------------------------------------------------------------ *)
(** ** Function identifiers: [buildFunctionId] and [parseFunctionId]   *)
(* ------------------------------------------------------------------ *)

Lemma append_char_app (current : string) (c : ascii) (s : string) :
  (append_char current c ++ s = current ++ String c s)%string.
Proof. unfold append_char. now rewrite string_app_assoc. Qed.

Lemma split_colons_last (s : string) :
  forall current : string,
    no_colon s = true -> split_colons s current = [(current ++ s)%string].
Proof.
  induction s as [ | c s IH]; intros current H.
  - cbn [split_colons]. now rewrite string_app_nil_r.
  - cbn [no_colon] in H. apply andb_true_iff in H. destruct H as [Hc Hs].
    apply negb_true_iff in Hc.
    cbn [split_colons]. rewrite Hc. cbn [andb].
    rewrite <- append_char_app.
    destruct s as [ | d s']; now rewrite <- IH.
Qed.

Lemma split_colons_piece (s : string) :
  forall current rest : string,
    no_colon s = true ->
    split_colons (s ++ "::" ++ rest) current
    = (current ++ s)%string :: split_colons rest EmptyString.
Proof.
  induction s as [ | c s IH]; intros current rest H.
  - cbn [append split_colons]. cbn. now rewrite string_app_nil_r.
  - cbn [no_colon] in H. apply andb_true_iff in H. destruct H as [Hc Hs].
    apply negb_true_iff in Hc.
    rewrite <- append_char_app, <- (IH (append_char current c) rest Hs).
    change ((String c s ++ "::" ++ rest)%string)
      with (String c (s ++ "::" ++ rest)%string).
    cbn [split_colons]. rewrite Hc. cbn [andb].
    destruct (s ++ "::" ++ rest)%string; reflexivity.
Qed.

(** X18. An identifier built by [buildFunctionId] from three parts without a
    colon is taken apart again by [parseFunctionId]; with a part missing or
    a fourth part added, [parseFunctionId] throws. *)
Theorem parseFunctionId_buildFunctionId (address module functionName : string) :
  no_colon address = true -> no_colon module = true -> no_colon functionName = true ->
  parseFunctionId (buildFunctionId address module functionName)
  = Ok {| fid_address := address; fid_module := module; fid_function := functionName |} /\
  parseFunctionId address = Throw Error /\
  parseFunctionId (address ++ "::" ++ module) = Throw Error /\
  parseFunctionId (buildFunctionId address module functionName ++ "::" ++ functionName)
  = Throw Error.
Proof.
  intros Ha Hm Hf. unfold parseFunctionId, buildFunctionId.
  repeat split.
  - rewrite (split_colons_piece address _ _ Ha), (split_colons_piece module _ _ Hm).
    now rewrite (split_colons_last functionName _ Hf).
  - now rewrite (split_colons_last address _ Ha).
  - rewrite (split_colons_piece address _ _ Ha).
    now rewrite (split_colons_last module _ Hm).
  - rewrite !string_app_assoc.
    rewrite (split_colons_piece address _ _ Ha).
    rewrite (split_colons_piece module _ _ Hm).
    rewrite (split_colons_piece functionName _ _ Hf).
    now rewrite (split_colons_last functionName _ Hf).
Qed.

Lemma parseFunctionId_buildFunctionId_witness :
  no_colon "0x1" = true /\ no_colon "coin" = true /\ no_colon "transfer" = true /\
  parseFunctionId (buildFunctionId "0x1" "coin" "transfer")
  = Ok {| fid_address := "0x1"; fid_module := "coin"; fid_function := "transfer" |} /\
  parseFunctionId "0x1" = Throw Error /\
  parseFunctionId ("0x1" ++ "::" ++ "coin") = Throw Error /\
  parseFunctionId (buildFunctionId "0x1" "coin" "transfer" ++ "::" ++ "transfer")
  = Throw Error.
Proof.
  split; [ reflexivity | split; [ reflexivity | split; [ reflexivity | ] ] ].
  exact (parseFunctionId_buildFunctionId "0x1" "coin" "transfer" eq_refl eq_refl eq_refl).
Defined.

(* ------------------------------------------------------------------ *)
(** ** Type strings: [buildMoveType] and [parseMoveTypeString]         *)
(* ------------------------------------------------------------------ *)

Lemma indexOf_app (base rest : string) :
  indexOf "<" base = None ->
  indexOf "<" (base ++ "<" ++ rest) = Some (String.length base).
Proof.
  induction base as [ | c base IH]; intros H; [ reflexivity | ].
  change (indexOf "<" (String c base))
    with (if Ascii.eqb c "<" then Some O else option_map S (indexOf "<" base)) in H.
  change (indexOf "<" (String c base ++ "<" ++ rest))
    with (if Ascii.eqb c "<" then Some O
          else option_map S (indexOf "<" (base ++ "<" ++ rest))).
  destruct (Ascii.eqb c "<"); [ discriminate H | ].
  destruct (indexOf "<" base); [ discriminate H | ].
  now rewrite IH.
Qed.

Lemma parseMoveTypeString_loop_arg (arg : string) :
  forall (rest : string) (depth depth' : Z) (current : string) (typeArgs : list string),
    scan_depth arg depth = Some depth' ->
    parseMoveTypeString_loop (arg ++ rest) depth current typeArgs
    = parseMoveTypeString_loop rest depth' (current ++ arg) typeArgs.
Proof.
  induction arg as [ | c arg IH]; intros rest depth depth' current typeArgs H.
  - cbn [scan_depth] in H. injection H as ->.
    cbn [append]. now rewrite string_app_nil_r.
  - cbn [scan_depth] in H. cbn [append parseMoveTypeString_loop].
    rewrite <- append_char_app.
    destruct (Ascii.eqb c "<"); [ now apply IH | ].
    destruct (Ascii.eqb c ">"); [ now apply IH | ].
    destruct (Ascii.eqb c "," && (depth =? 0)); [ discriminate H | now apply IH ].
Qed.

Lemma trim_after_space (t : string) : trim (" " ++ t) = trim t.
Proof. reflexivity. Qed.

Lemma type_arg_ok_inv (t : string) :
  type_arg_ok t = true ->
  trim t = t /\ String.eqb t EmptyString = false /\ scan_depth t 0 = Some 0.
Proof.
  unfold type_arg_ok. intros H.
  apply andb_true_iff in H. destruct H as [H Hd].
  apply andb_true_iff in H. destruct H as [H Hne].
  apply andb_true_iff in H. destruct H as [_ Ht].
  apply String.eqb_eq in Ht. apply negb_true_iff in Hne.
  repeat split; try assumption.
  destruct (scan_depth t 0) as [d | ]; [ | discriminate Hd ].
  apply Z.eqb_eq in Hd. now subst.
Qed.

(** The loop and the push after it, on arguments joined by [", "]. *)
Lemma parseMoveTypeString_loop_joined (ts : list string) :
  forall (t current : string) (typeArgs : list string),
    type_arg_ok t = true -> forallb type_arg_ok ts = true ->
    trim (current ++ t) = t ->
    (let '(typeArgs', current') :=
       parseMoveTypeString_loop (String.concat ", " (t :: ts)) 0 current typeArgs in
     if negb (String.eqb (trim current') EmptyString)
     then typeArgs' ++ [trim current'] else typeArgs')
    = typeArgs ++ t :: ts.
Proof.
  induction ts as [ | t' ts IH]; intros t current typeArgs Ht Hts Hcur;
    destruct (type_arg_ok_inv t Ht) as (Htrim & Hne & Hscan).
  - cbn [String.concat].
    rewrite <- (string_app_nil_r t) at 1.
    rewrite (parseMoveTypeString_loop_arg t EmptyString 0 0 current typeArgs Hscan).
    cbn [parseMoveTypeString_loop].
    now rewrite Hcur, Hne.
  - cbn [forallb] in Hts. apply andb_true_iff in Hts. destruct Hts as [Ht' Hts].
    change (String.concat ", " (t :: t' :: ts))
      with (t ++ ", " ++ String.concat ", " (t' :: ts))%string.
    rewrite (parseMoveTypeString_loop_arg t _ 0 0 current typeArgs Hscan).
    change (", " ++ String.concat ", " (t' :: ts))%string
      with (String "," (String " " (String.concat ", " (t' :: ts)))).
    cbn [parseMoveTypeString_loop Ascii.eqb Bool.eqb andb Z.eqb].
    rewrite Hcur.
    change (append_char EmptyString " ") with " "%string.
    rewrite (IH t' " "%string (typeArgs ++ [t]) Ht' Hts).
    + now rewrite <- app_assoc.
    + rewrite trim_after_space. apply (type_arg_ok_inv t' Ht').
Qed.

Lemma parseMoveTypeString_generic (base : string) (t : string) (ts : list string) :
  indexOf "<" base = None ->
  type_arg_ok t = true -> forallb type_arg_ok ts = true ->
  parseMoveTypeString (base ++ "<" ++ String.concat ", " (t :: ts) ++ ">")
  = {| baseType := base; typeArgs := t :: ts |}.
Proof.
  intros Hbase Ht Hts. unfold parseMoveTypeString.
  rewrite (indexOf_app base _ Hbase).
  set (joined := String.concat ", " (t :: ts)).
  assert (Hb : slice (base ++ "<" ++ joined ++ ">") 0 (String.length base) = base).
  { unfold slice. rewrite Nat.sub_0_r. apply substring_0_app. }
  assert (Hg : slice (base ++ "<" ++ joined ++ ">") (String.length base + 1)
                     (String.length (base ++ "<" ++ joined ++ ">") - 1) = joined).
  { unfold slice. rewrite !string_length_app.
    replace (String.length base + (String.length "<" + (String.length joined + String.length ">"))
             - 1 - (String.length base + 1))%nat
      with (String.length joined) by (simpl; lia).
    rewrite <- (string_app_assoc base "<" (joined ++ ">")).
    replace (String.length base + 1)%nat with (String.length (base ++ "<"))
      by (rewrite string_length_app; reflexivity).
    rewrite substring_app_skip. apply substring_0_app. }
  rewrite Hb, Hg.
  pose proof (parseMoveTypeString_loop_joined ts t EmptyString [] Ht Hts
                (proj1 (type_arg_ok_inv t Ht))) as H.
  fold joined in H.
  destruct (parseMoveTypeString_loop joined 0 EmptyString []) as [typeArgs' current'].
  now rewrite H.
Qed.

(** X19. A type string built by [buildMoveType] is taken apart again by
    [parseMoveTypeString]: the base type is [address::module::name] and the
    type arguments are the ones given, in order, nested generics included.
    The three names must hold no [<]; every argument must be ASCII, not
    empty, without white space at its ends and with its brackets closed. *)
Theorem parseMoveTypeString_buildMoveType (address module name : string)
    (typeArgs : list string) :
  indexOf "<" (address ++ "::" ++ module ++ "::" ++ name) = None ->
  forallb type_arg_ok typeArgs = true ->
  parseMoveTypeString (buildMoveType address module name (Some typeArgs))
  = {| baseType := (address ++ "::" ++ module ++ "::" ++ name)%string;
       typeArgs := typeArgs |} /\
  parseMoveTypeString (buildMoveType address module name None)
  = {| baseType := (address ++ "::" ++ module ++ "::" ++ name)%string; typeArgs := [] |}.
Proof.
  intros Hbase Hargs.
  assert (Hnone : parseMoveTypeString (address ++ "::" ++ module ++ "::" ++ name)
                  = {| baseType := (address ++ "::" ++ module ++ "::" ++ name)%string;
                       typeArgs := [] |}).
  { unfold parseMoveTypeString. now rewrite Hbase. }
  split; [ | exact Hnone ].
  destruct typeArgs as [ | t ts]; [ exact Hnone | ].
  cbn [forallb] in Hargs. apply andb_true_iff in Hargs. destruct Hargs as [Ht Hts].
  unfold buildMoveType.
  now apply parseMoveTypeString_generic.
Qed.

Lemma parseMoveTypeString_buildMoveType_witness :
  indexOf "<" ("0x1" ++ "::" ++ "coin" ++ "::" ++ "Pair") = None /\
  forallb type_arg_ok ["vector<u8>"; "0x1::m::Map<u8, u64>"]%string = true /\
  parseMoveTypeString
    (buildMoveType "0x1" "coin" "Pair" (Some ["vector<u8>"; "0x1::m::Map<u8, u64>"]%string))
  = {| baseType := ("0x1" ++ "::" ++ "coin" ++ "::" ++ "Pair")%string;
       typeArgs := ["vector<u8>"; "0x1::m::Map<u8, u64>"]%string |} /\
  parseMoveTypeString (buildMoveType "0x1" "coin" "Pair" None)
  = {| baseType := ("0x1" ++ "::" ++ "coin" ++ "::" ++ "Pair")%string; typeArgs := [] |}.
Proof.
  split; [ reflexivity | split; [ reflexivity | ] ].
  exact (parseMoveTypeString_buildMoveType "0x1" "coin" "Pair"
           ["vector<u8>"; "0x1::m::Map<u8, u64>"]%string eq_refl eq_refl).
Defined.

(** X20. For a vector type written [vector<T>], [getVectorInnerType] returns [T],
    the same inner type [encodeMoveArg] cuts out with [slice(7, -1)];
    [isVectorType] holds of it, and [getCoinStoreResourceType] gives a type
    string whose one type argument is the coin type. *)
Theorem getVectorInnerType_vector (T : string) :
  type_arg_ok T = true ->
  getVectorInnerType ("vector<" ++ T ++ ">") = T /\
  slice ("vector<" ++ T ++ ">") 7 (String.length ("vector<" ++ T ++ ">") - 1) = T /\
  isVectorType ("vector<" ++ T ++ ">") = true /\
  parseMoveTypeString (getCoinStoreResourceType T)
  = {| baseType := "0x1::coin::CoinStore"; typeArgs := [T] |} /\
  isOptionType ("0x1::option::Option<" ++ T ++ ">") = true.
Proof.
  intros HT.
  pose proof (parseMoveTypeString_generic "vector" T [] eq_refl HT eq_refl) as Hv.
  pose proof (parseMoveTypeString_generic "0x1::coin::CoinStore" T [] eq_refl HT eq_refl) as Hc.
  pose proof (parseMoveTypeString_generic "0x1::option::Option" T [] eq_refl HT eq_refl) as Ho.
  cbn [String.concat] in Hv, Hc, Ho.
  destruct (type_arg_ok_inv T HT) as (_ & Hne & _).
  split; [ | split; [ | split; [ | split ] ] ].
  - unfold getVectorInnerType.
    change ("vector<" ++ T ++ ">")%string with ("vector" ++ "<" ++ T ++ ">")%string.
    rewrite Hv. cbn [typeArgs]. now rewrite Hne.
  - unfold slice. rewrite !string_length_app.
    replace (String.length "vector<" + (String.length T + String.length ">") - 1 - 7)%nat
      with (String.length T) by (simpl; lia).
    etransitivity;
      [ exact (substring_app_skip "vector<" (T ++ ">") (String.length T))
      | apply substring_0_app ].
  - unfold isVectorType. rewrite (toLowerCase_app "vector<").
    exact (startsWith_app "vector<" _).
  - unfold getCoinStoreResourceType.
    change ("0x1::coin::CoinStore<" ++ T ++ ">")%string
      with ("0x1::coin::CoinStore" ++ "<" ++ T ++ ">")%string.
    exact Hc.
  - unfold isOptionType.
    change ("0x1::option::Option<" ++ T ++ ">")%string
      with ("0x1::option::Option" ++ "<" ++ T ++ ">")%string.
    rewrite Ho. reflexivity.
Qed.

Lemma getVectorInnerType_vector_witness :
  type_arg_ok "vector<0x1::aptos_coin::AptosCoin>" = true /\
  getVectorInnerType ("vector<" ++ "vector<0x1::aptos_coin::AptosCoin>" ++ ">")
  = "vector<0x1::aptos_coin::AptosCoin>"%string /\
  slice ("vector<" ++ "vector<0x1::aptos_coin::AptosCoin>" ++ ">") 7
        (String.length ("vector<" ++ "vector<0x1::aptos_coin::AptosCoin>" ++ ">") - 1)
  = "vector<0x1::aptos_coin::AptosCoin>"%string /\
  isVectorType ("vector<" ++ "vector<0x1::aptos_coin::AptosCoin>" ++ ">") = true /\
  parseMoveTypeString (getCoinStoreResourceType "vector<0x1::aptos_coin::AptosCoin>")
  = {| baseType := "0x1::coin::CoinStore";
       typeArgs := ["vector<0x1::aptos_coin::AptosCoin>"%string] |} /\
  isOptionType ("0x1::option::Option<" ++ "vector<0x1::aptos_coin::AptosCoin>" ++ ">") = true.
Proof.
  split; [ reflexivity | ].
  exact (getVectorInnerType_vector "vector<0x1::aptos_coin::AptosCoin>" eq_refl).
Defined.

(* ------------------------------------------------------------------ *)
(** ** [convertUnits]: there and back, and one conversion after another *)
(* ------------------------------------------------------------------ *)

Lemma convertUnits_value (v : amount) (a fromDecimals toDecimals : Z) :
  holds v a -> Z.abs (toDecimals - fromDecimals) <= 22 ->
  convertUnits v fromDecimals toDecimals
  = Ok (if fromDecimals <=? toDecimals then a * 10 ^ (toDecimals - fromDecimals)
        else Z.quot a (10 ^ (fromDecimals - toDecimals))).
Proof.
  intros Hv Hd. unfold convertUnits.
  rewrite (amount_to_bigint_holds v a Hv). cbn [bind].
  destruct (Z.gtb_spec (toDecimals - fromDecimals) 0) as [Hup | Hup].
  - rewrite js_pow10_exact by lia. cbn [bind].
    destruct (Z.leb_spec fromDecimals toDecimals); [ reflexivity | lia ].
  - destruct (Z.ltb_spec (toDecimals - fromDecimals) 0) as [Hdown | Hdown].
    + replace (Z.abs (toDecimals - fromDecimals)) with (fromDecimals - toDecimals) by lia.
      rewrite js_pow10_exact by lia. cbn [bind]. unfold bigint_div.
      pose proof (pow10_pos (fromDecimals - toDecimals) ltac:(lia)) as Hp.
      destruct (Z.eqb_spec (10 ^ (fromDecimals - toDecimals)) 0); [ lia | ].
      destruct (Z.leb_spec fromDecimals toDecimals); [ lia | reflexivity ].
    + destruct (Z.leb_spec fromDecimals toDecimals); [ | lia ].
      replace (toDecimals - fromDecimals) with 0 by lia.
      now rewrite Z.pow_0_r, Z.mul_1_r.
Qed.

Lemma convertUnits_up (v : amount) (a lo hi : Z) :
  holds v a -> lo <= hi -> hi - lo <= 22 ->
  convertUnits v lo hi = Ok (a * 10 ^ (hi - lo)).
Proof.
  intros Hv Hle Hd.
  rewrite (convertUnits_value v a lo hi Hv) by lia.
  destruct (Z.leb_spec lo hi); [ reflexivity | lia ].
Qed.

Lemma convertUnits_down (v : amount) (a lo hi : Z) :
  holds v a -> lo <= hi -> hi - lo <= 22 ->
  convertUnits v hi lo = Ok (Z.quot a (10 ^ (hi - lo))).
Proof.
  intros Hv Hle Hd.
  rewrite (convertUnits_value v a hi lo Hv) by lia.
  destruct (Z.leb_spec hi lo); [ | reflexivity ].
  replace (hi - lo) with 0 by lia. replace (lo - hi) with 0 by lia.
  now rewrite Z.pow_0_r, Z.mul_1_r, Z.quot_1_r.
Qed.

(** X21. For decimal counts [lo <= hi] at most 22 apart: converting up to [hi]
    and back down to [lo] returns the amount; converting down to [lo] and
    back up to [hi] returns the amount with its last [hi - lo] digits
    cleared, which is the amount itself exactly when it is a multiple of
    [10^(hi - lo)], and never further from zero than the amount. *)
Theorem convertUnits_there_and_back (v : amount) (a lo hi : Z) :
  holds v a -> lo <= hi -> hi - lo <= 22 ->
  (exists up,
      convertUnits v lo hi = Ok up /\ convertUnits (ABigInt up) hi lo = Ok a) /\
  (exists down back,
      convertUnits v hi lo = Ok down /\
      convertUnits (ABigInt down) lo hi = Ok back /\
      back = a - Z.rem a (10 ^ (hi - lo)) /\
      Z.abs back <= Z.abs a /\
      Z.abs (a - back) < 10 ^ (hi - lo) /\
      (back = a <-> Z.rem a (10 ^ (hi - lo)) = 0)).
Proof.
  intros Hv Hle Hd.
  pose proof (pow10_pos (hi - lo) ltac:(lia)) as Hp.
  split.
  - exists (a * 10 ^ (hi - lo)).
    split; [ now apply convertUnits_up | ].
    rewrite (convertUnits_down _ _ lo hi (holds_bigint _) Hle Hd).
    now rewrite Z.quot_mul by lia.
  - exists (Z.quot a (10 ^ (hi - lo))), (Z.quot a (10 ^ (hi - lo)) * 10 ^ (hi - lo)).
    split; [ now apply convertUnits_down | ].
    split; [ now apply (convertUnits_up _ _ lo hi (holds_bigint _)) | ].
    pose proof (Z.quot_rem' a (10 ^ (hi - lo))) as Hqr.
    set (p := 10 ^ (hi - lo)) in *.
    set (q := Z.quot a p) in *. set (r := Z.rem a p) in *.
    assert (Hrem : (0 <= a -> 0 <= r < p) /\ (a <= 0 -> - p < r <= 0)).
    { split; intros Ha.
      - apply Z.rem_bound_pos; lia.
      - pose proof (Z.rem_bound_pos (- a) p ltac:(lia) Hp) as Hb.
        rewrite Z.rem_opp_l in Hb by lia. fold r in Hb. lia. }
    destruct Hrem as [Hpos Hneg].
    assert (Hback : q * p = a - r) by lia.
    rewrite Hback.
    split; [ reflexivity | ].
    destruct (Z.le_gt_cases 0 a) as [Ha | Ha].
    + specialize (Hpos Ha).
      assert (0 <= q) by nia.
      assert (r <= a) by nia.
      repeat split; lia.
    + specialize (Hneg ltac:(lia)).
      assert (q <= 0) by nia.
      assert (a <= r) by nia.
      repeat split; lia.
Qed.

Lemma convertUnits_there_and_back_witness :
  holds (AString "12345") 12345 /\ 6 <= 8 /\ 8 - 6 <= 22 /\
  (exists up,
      convertUnits (AString "12345") 6 8 = Ok up /\
      convertUnits (ABigInt up) 8 6 = Ok 12345) /\
  (exists down back,
      convertUnits (AString "12345") 8 6 = Ok down /\
      convertUnits (ABigInt down) 6 8 = Ok back /\
      back = 12345 - Z.rem 12345 (10 ^ (8 - 6)) /\
      Z.abs back <= Z.abs 12345 /\
      Z.abs (12345 - back) < 10 ^ (8 - 6) /\
      (back = 12345 <-> Z.rem 12345 (10 ^ (8 - 6)) = 0)).
Proof.
  assert (Hv : holds (AString "12345") 12345) by exact (holds_string 12345).
  assert (H1 : 6 <= 8) by lia.
  assert (H2 : 8 - 6 <= 22) by lia.
  split; [ exact Hv | split; [ exact H1 | split; [ exact H2 | ] ] ].
  exact (convertUnits_there_and_back (AString "12345") 12345 6 8 Hv H1 H2).
Defined.

(** X22. Conversions in one direction compose: for [d1 <= d2 <= d3] at most 22
    apart, going up from [d1] to [d2] and then to [d3] is going up from
    [d1] to [d3], and going down from [d3] to [d2] and then to [d1] is
    going down from [d3] to [d1]: truncating twice loses what truncating
    once loses. *)
Theorem convertUnits_compose (v : amount) (a d1 d2 d3 : Z) :
  holds v a -> d1 <= d2 -> d2 <= d3 -> d3 - d1 <= 22 ->
  (exists mid result,
      convertUnits v d1 d2 = Ok mid /\
      convertUnits (ABigInt mid) d2 d3 = Ok result /\
      convertUnits v d1 d3 = Ok result) /\
  (exists mid result,
      convertUnits v d3 d2 = Ok mid /\
      convertUnits (ABigInt mid) d2 d1 = Ok result /\
      convertUnits v d3 d1 = Ok result).
Proof.
  intros Hv H12 H23 Hd.
  assert (Hpow : 10 ^ (d3 - d1) = 10 ^ (d2 - d1) * 10 ^ (d3 - d2)).
  { rewrite <- Z.pow_add_r by lia. f_equal. lia. }
  pose proof (pow10_pos (d2 - d1) ltac:(lia)) as Hp1.
  pose proof (pow10_pos (d3 - d2) ltac:(lia)) as Hp2.
  split.
  - exists (a * 10 ^ (d2 - d1)), (a * 10 ^ (d3 - d1)).
    split; [ apply convertUnits_up; assumption || lia | ].
    split; [ | apply convertUnits_up; assumption || lia ].
    rewrite (convertUnits_up _ _ d2 d3 (holds_bigint _)) by lia.
    f_equal. rewrite Hpow. ring.
  - exists (Z.quot a (10 ^ (d3 - d2))), (Z.quot a (10 ^ (d3 - d1))).
    split; [ apply convertUnits_down; assumption || lia | ].
    split; [ | apply convertUnits_down; assumption || lia ].
    rewrite (convertUnits_down _ _ d1 d2 (holds_bigint _)) by lia.
    f_equal. rewrite Hpow, (Z.mul_comm (10 ^ (d2 - d1))).
    apply Z.quot_quot; lia.
Qed.

Lemma convertUnits_compose_witness :
  holds (ABigInt 123456789) 123456789 /\ 0 <= 6 /\ 6 <= 8 /\ 8 - 0 <= 22 /\
  (exists mid result,
      convertUnits (ABigInt 123456789) 0 6 = Ok mid /\
      convertUnits (ABigInt mid) 6 8 = Ok result /\
      convertUnits (ABigInt 123456789) 0 8 = Ok result) /\
  (exists mid result,
      convertUnits (ABigInt 123456789) 8 6 = Ok mid /\
      convertUnits (ABigInt mid) 6 0 = Ok result /\
      convertUnits (ABigInt 123456789) 8 0 = Ok result).
Proof.
  assert (Hv : holds (ABigInt 123456789) 123456789) by exact (holds_bigint 123456789).
  assert (H1 : 0 <= 6) by lia.
  assert (H2 : 6 <= 8) by lia.
  assert (H3 : 8 - 0 <= 22) by lia.
  split; [ exact Hv | split; [ exact H1 | split; [ exact H2 | split; [ exact H3 | ] ] ] ].
  exact (convertUnits_compose (ABigInt 123456789) 123456789 0 6 8 Hv H1 H2 H3).
Defined.

(* ------------------------------------------------------------------ *)
(** ** [convertToMoveArg]                                              *)
(* ------------------------------------------------------------------ *)

Lemma convertToMoveArg_eq (value : jsval) (type : string) :
  convertToMoveArg value type
  = if isPrimitiveType type then
      if String.eqb (toLowerCase type) "bool" then Some (Ok (JBoolean (ToBoolean value)))
      else if String.eqb (toLowerCase type) "u8" || String.eqb (toLowerCase type) "u16"
              || String.eqb (toLowerCase type) "u32" then
        option_map (fun x => Ok (JNumber x)) (Number_of value)
      else if String.eqb (toLowerCase type) "u64" || String.eqb (toLowerCase type) "u128"
              || String.eqb (toLowerCase type) "u256" then
        option_result_map JBigInt (BigInt_of value)
      else if String.eqb (toLowerCase type) "address" then
        option_map (fun s => Ok (JString s)) (String_of value)
      else Some (Ok value)
    else if isVectorType type then
      match value with
      | JArray values =>
          option_result_map JArray
            (map_results (fun v => convertToMoveArg v (getVectorInnerType type)) values)
      | JString s =>
          if String.eqb (getVectorInnerType type) "u8" then
            let hex := if startsWith s "0x" then slice_from 2 s else s in
            Some (Ok (JArray (map (fun b => JNumber (Z2number b)) (Buffer_from_hex hex))))
          else Some (Ok value)
      | _ => Some (Ok value)
      end
    else Some (Ok value).
Proof. destruct value; reflexivity. Qed.

Lemma jsval_ind_nested (P : jsval -> Prop) :
  P JUndefined ->
  (forall b, P (JBoolean b)) ->
  (forall x, P (JNumber x)) ->
  (forall z, P (JBigInt z)) ->
  (forall s, P (JString s)) ->
  (forall items, Forall P items -> P (JArray items)) ->
  forall v, P v.
Proof.
  intros HU HB HN HI HS HA.
  fix IH 1. intros [ | b | x | z | s | items].
  - exact HU.
  - apply HB.
  - apply HN.
  - apply HI.
  - apply HS.
  - apply HA. induction items as [ | v items IHitems]; constructor.
    + apply IH.
    + exact IHitems.
Qed.

Lemma map_results_inv {A B : Type} (f : A -> option (js_result B)) (vs : list A) :
  forall items : list B,
    map_results f vs = Some (Ok items) ->
    Forall2 (fun v item => f v = Some (Ok item)) vs items.
Proof.
  induction vs as [ | v vs IH]; intros items H.
  - injection H as <-. constructor.
  - rewrite map_results_cons in H.
    destruct (f v) as [[item | e] | ] eqn:Hv; try discriminate H.
    destruct (map_results f vs) as [[items' | e] | ]; try discriminate H.
    injection H as <-. constructor; [ exact Hv | now apply IH ].
Qed.

Lemma convertToMoveArg_primitive_again (value converted : jsval) (type : string) :
  isPrimitiveType type = true ->
  convertToMoveArg value type = Some (Ok converted) ->
  convertToMoveArg converted type = Some (Ok converted).
Proof.
  intros Hprim H.
  rewrite convertToMoveArg_eq in H. rewrite convertToMoveArg_eq.
  rewrite Hprim in *.
  destruct (String.eqb (toLowerCase type) "bool").
  { injection H as <-. reflexivity. }
  destruct (String.eqb (toLowerCase type) "u8" || String.eqb (toLowerCase type) "u16"
            || String.eqb (toLowerCase type) "u32").
  { destruct (Number_of value) as [x | ]; [ | discriminate H ].
    injection H as <-. reflexivity. }
  destruct (String.eqb (toLowerCase type) "u64" || String.eqb (toLowerCase type) "u128"
            || String.eqb (toLowerCase type) "u256").
  { destruct (BigInt_of value) as [[z | e] | ]; try discriminate H.
    injection H as <-. reflexivity. }
  destruct (String.eqb (toLowerCase type) "address").
  { destruct (String_of value) as [s | ]; [ | discriminate H ].
    injection H as <-. reflexivity. }
  reflexivity.
Qed.

Lemma convertToMoveArg_bytes_again (bs : list Z) :
  map_results (fun v => convertToMoveArg v "u8") (map (fun b => JNumber (Z2number b)) bs)
  = Some (Ok (map (fun b => JNumber (Z2number b)) bs)).
Proof.
  induction bs as [ | b bs IH]; [ reflexivity | ].
  cbn [map]. rewrite map_results_cons, IH. reflexivity.
Qed.

(** X23. [convertToMoveArg] is idempotent: a value it returns for a type is
    returned unchanged when it is converted again for that type.  A hex
    string read for [vector<u8>] becomes an array of numbers, and stays
    one. *)
Theorem convertToMoveArg_idempotent (value converted : jsval) (type : string) :
  convertToMoveArg value type = Some (Ok converted) ->
  convertToMoveArg converted type = Some (Ok converted).
Proof.
  revert type converted.
  induction value as [ | b | x | z | s | items IH] using jsval_ind_nested;
    intros type converted H;
    destruct (isPrimitiveType type) eqn:Hprim;
    try (now apply (convertToMoveArg_primitive_again _ _ _ Hprim H));
    rewrite convertToMoveArg_eq in H; rewrite Hprim in H;
    destruct (isVectorType type) eqn:Hvec;
    try (injection H as <-; rewrite convertToMoveArg_eq, Hprim, Hvec; reflexivity).
  - destruct (String.eqb (getVectorInnerType type) "u8") eqn:Hinner.
    + cbv zeta in H. injection H as <-.
      rewrite convertToMoveArg_eq, Hprim, Hvec.
      apply String.eqb_eq in Hinner. rewrite Hinner.
      now rewrite convertToMoveArg_bytes_again.
    + injection H as <-. rewrite convertToMoveArg_eq, Hprim, Hvec, Hinner. reflexivity.
  - set (inner := getVectorInnerType type) in *.
    destruct (map_results (fun v => convertToMoveArg v inner) items)
      as [[items' | e] | ] eqn:Hmap; try discriminate H.
    cbn [option_result_map] in H. injection H as <-.
    rewrite convertToMoveArg_eq, Hprim, Hvec. fold inner.
    apply map_results_inv in Hmap.
    assert (Hagain : Forall2 (fun v item => convertToMoveArg v inner = Some (Ok item))
                             items' items').
    { clear Hprim Hvec. induction Hmap as [ | v item vs its Hv _ IHmap]; [ constructor | ].
      inversion IH as [ | ? ? IHv IHvs]; subst.
      constructor; [ exact (IHv inner item Hv) | exact (IHmap IHvs) ]. }
    now rewrite (map_results_Forall2 _ _ _ Hagain).
Qed.

Lemma convertToMoveArg_idempotent_witness :
  convertToMoveArg (JArray [JString "0x0aff"; JArray [JBoolean true]]) "vector<vector<u8>>"
  = Some (Ok (JArray [JArray [JNumber (Z2number 10); JNumber (Z2number 255)];
                      JArray [JNumber (Z2number 1)]])) /\
  convertToMoveArg (JArray [JArray [JNumber (Z2number 10); JNumber (Z2number 255)];
                            JArray [JNumber (Z2number 1)]]) "vector<vector<u8>>"
  = Some (Ok (JArray [JArray [JNumber (Z2number 10); JNumber (Z2number 255)];
                      JArray [JNumber (Z2number 1)]])).
Proof.
  split; [ reflexivity | ].
  exact (convertToMoveArg_idempotent
           (JArray [JString "0x0aff"; JArray [JBoolean true]]) _ "vector<vector<u8>>" eq_refl).
Defined.

(** X24. An integer given as a number, a decimal string or a bigint is a bigint
    after [convertToMoveArg] at the types [u64], [u128] and [u256], and
    [encodeMoveArg] then returns its 8, 16 or 32 little-endian bytes;
    handed to [encodeMoveArg] at [u128] without the conversion, a number is
    a TypeError. *)
Theorem convertToMoveArg_then_encodeMoveArg (v : jsval) (a : amount) (n : Z) :
  as_amount v = Some a -> holds a n ->
  convertToMoveArg v "u64" = Some (Ok (JBigInt n)) /\
  convertToMoveArg v "u128" = Some (Ok (JBigInt n)) /\
  convertToMoveArg v "u256" = Some (Ok (JBigInt n)) /\
  encodeMoveArg "u64" (JBigInt n) = Some (Ok (le_bytes 8 n)) /\
  encodeMoveArg "u128" (JBigInt n) = Some (Ok (le_bytes 16 n)) /\
  encodeMoveArg "u256" (JBigInt n) = Some (Ok (le_bytes 32 n)) /\
  (forall x, v = JNumber x -> encodeMoveArg "u128" v = Some (Throw TypeError)).
Proof.
  intros Ha Hn.
  assert (Hbig : BigInt_of v = Some (Ok n)).
  { destruct v; try discriminate Ha; injection Ha as <-; cbn [BigInt_of].
    - now rewrite (BigInt_holds _ _ Hn).
    - inversion Hn. reflexivity.
    - now rewrite (BigInt_holds _ _ Hn). }
  assert (Hno : forall x, ABigInt n <> ANumber x) by (intros x; discriminate).
  repeat split.
  - rewrite convertToMoveArg_eq. cbn [isPrimitiveType]. now rewrite Hbig.
  - rewrite convertToMoveArg_eq. cbn [isPrimitiveType]. now rewrite Hbig.
  - rewrite convertToMoveArg_eq. cbn [isPrimitiveType]. now rewrite Hbig.
  - change (encodeMoveArg "u64" (JBigInt n)) with (Some (encodeU64 (ABigInt n))).
    now rewrite (encodeU64_bytes _ _ (holds_bigint n)).
  - change (encodeMoveArg "u128" (JBigInt n)) with (Some (encodeU128 (ABigInt n))).
    now rewrite (encodeU128_bytes _ _ (holds_bigint n) Hno).
  - change (encodeMoveArg "u256" (JBigInt n)) with (Some (encodeU256 (ABigInt n))).
    now rewrite (encodeU256_bytes _ _ (holds_bigint n) Hno).
  - intros x ->. reflexivity.
Qed.

Lemma convertToMoveArg_then_encodeMoveArg_witness :
  as_amount (JString "1000") = Some (AString "1000") /\ holds (AString "1000") 1000 /\
  convertToMoveArg (JString "1000") "u64" = Some (Ok (JBigInt 1000)) /\
  convertToMoveArg (JString "1000") "u128" = Some (Ok (JBigInt 1000)) /\
  convertToMoveArg (JString "1000") "u256" = Some (Ok (JBigInt 1000)) /\
  encodeMoveArg "u64" (JBigInt 1000) = Some (Ok (le_bytes 8 1000)) /\
  encodeMoveArg "u128" (JBigInt 1000) = Some (Ok (le_bytes 16 1000)) /\
  encodeMoveArg "u256" (JBigInt 1000) = Some (Ok (le_bytes 32 1000)) /\
  (forall x, JString "1000" = JNumber x ->
             encodeMoveArg "u128" (JString "1000") = Some (Throw TypeError)).
Proof.
  assert (Hv : holds (AString "1000") 1000) by exact (holds_string 1000).
  split; [ reflexivity | split; [ exact Hv | ] ].
  exact (convertToMoveArg_then_encodeMoveArg (JString "1000") (AString "1000") 1000
           eq_refl Hv).
Defined.

(* ------------------------------------------------------------------ *)
(** ** [decodeUleb128] stays inside the array                          *)
(* ------------------------------------------------------------------ *)

Lemma decodeUleb128_loop_bytesRead (fuel : nat) :
  forall (bytes : Uint8Array) (offset result shift done : Z),
    0 <= offset -> 0 <= done ->
    array_length bytes < Z.of_nat fuel + done ->
    exists r,
      decodeUleb128_loop fuel bytes offset result shift done = Some r /\
      done <= bytesRead r <= Z.max done (array_length bytes - offset) /\
      (bytesRead r = done <-> array_length bytes <= offset + done).
Proof.
  induction fuel as [ | fuel IH]; intros bytes offset result shift done Ho Hd Hf;
    cbn [decodeUleb128_loop];
    destruct (Z.ltb_spec (offset + done) (array_length bytes)) as [Hin | Hout];
    try lia;
    try (eexists; split; [ reflexivity | cbn [bytesRead]; lia ]).
  destruct (js_and _ 128 =? 0).
  - eexists. split; [ reflexivity | cbn [bytesRead]; lia ].
  - destruct (IH bytes offset
                (js_or result (js_shl (js_and (int_of_element (array_get bytes (offset + done)))
                                              127) shift))
                (shift + 7) (done + 1) Ho ltac:(lia) ltac:(lia))
      as (r & Hr & Hb & Hiff).
    exists r. split; [ exact Hr | lia ].
Qed.

(** X25. [decodeUleb128] returns for every array and every offset that is not
    negative, and the count of bytes it reports never reaches past the end
    of the array: it is 0 exactly when the offset is at or past the end, and
    at most the number of bytes from the offset on. *)
Theorem decodeUleb128_within_array (bytes : Uint8Array) (offset : Z) :
  0 <= offset ->
  exists r,
    decodeUleb128 bytes offset = Some r /\
    0 <= bytesRead r <= Z.max 0 (array_length bytes - offset) /\
    (bytesRead r = 0 <-> array_length bytes <= offset).
Proof.
  intros Ho. unfold decodeUleb128.
  destruct (decodeUleb128_loop_bytesRead (S (length bytes)) bytes offset 0 0 0 Ho
              ltac:(lia) ltac:(unfold array_length; lia))
    as (r & Hr & Hb & Hiff).
  exists r. split; [ exact Hr | ]. split; [ exact Hb | ].
  rewrite Z.add_0_r in Hiff. exact Hiff.
Qed.

Lemma decodeUleb128_within_array_witness :
  0 <= 1 /\
  exists r,
    decodeUleb128 [128; 255; 255; 255; 255; 15] 1 = Some r /\
    0 <= bytesRead r <= Z.max 0 (array_length [128; 255; 255; 255; 255; 15] - 1) /\
    (bytesRead r = 0 <-> array_length [128; 255; 255; 255; 255; 15] <= 1).
Proof.
  assert (H : 0 <= 1) by lia.
  split; [ exact H | ].
  exact (decodeUleb128_within_array [128; 255; 255; 255; 255; 15] 1 H).
Defined.

(* ------------------------------------------------------------------ *)
(** ** The bytes of an address, printed                                *)
(* ------------------------------------------------------------------ *)

(** X26. For an address [isValidAddress] accepts, printing the 32 bytes of
    [encodeAddress] with [bytesToHex] gives [normalizeAddress] of the
    address, and [hexToBytes] of that normal form gives the bytes back. *)
Theorem bytesToHex_encodeAddress (address : string) :
  isValidAddress address = true ->
  exists bytes,
    encodeAddress address = Ok bytes /\
    bytesToHex bytes true = normalizeAddress address /\
    hexToBytes (normalizeAddress address) = bytes.
Proof.
  intros Hvalid.
  destruct (isValidAddress_inv address Hvalid) as (digits & -> & Hhex & Hlen).
  destruct (encodeAddress_digits digits Hhex ltac:(lia)) as [He Hl].
  assert (Hphex : hex_only (padStart digits 64 "0") = true).
  { unfold padStart. now rewrite hex_only_app, hex_only_zeros, Hhex. }
  assert (Hplen : String.length (padStart digits 64 "0") = (2 * 32)%nat).
  { rewrite padStart_length. lia. }
  assert (Hnorm : normalizeAddress ("0x" ++ digits)
                  = ("0x" ++ toLowerCase (padStart digits 64 "0"))%string).
  { rewrite normalizeAddress_digits, startsWith_0x_app. cbn [append slice_from].
    unfold padStart.
    now rewrite toLowerCase_app, toLowerCase_zeros, toLowerCase_length. }
  exists (Buffer_from_hex (padStart digits 64 "0")).
  split; [ exact He | split ].
  - rewrite Hnorm.
    rewrite <- (bytesToHex_Buffer_from_hex 32 _ Hphex Hplen).
    reflexivity.
  - rewrite Hnorm.
    assert (Hlhex : hex_only (toLowerCase (padStart digits 64 "0")) = true)
      by now rewrite hex_only_lower.
    rewrite (hexToBytes_0x (toLowerCase (padStart digits 64 "0")))
      by now apply hex_only_no_0x.
    rewrite (hexToBytes_hex _ 32 Hlhex) by now rewrite toLowerCase_length.
    apply (Buffer_from_hex_lower 64). lia.
Qed.

Lemma bytesToHex_encodeAddress_witness :
  isValidAddress "0xAbC" = true /\
  exists bytes,
    encodeAddress "0xAbC" = Ok bytes /\
    bytesToHex bytes true = normalizeAddress "0xAbC" /\
    hexToBytes (normalizeAddress "0xAbC") = bytes.
Proof.
  split; [ reflexivity | ].
  exact (bytesToHex_encodeAddress "0xAbC" eq_refl).
Defined.

(* ------------------------------------------------------------------ *)
(** ** Numbers that are not integers                                   *)
(* ------------------------------------------------------------------ *)

(** X27. A number that is not an integer (a fraction, NaN or an infinity) makes
    [BigInt] throw a RangeError, and with it [convertUnits], [compareAmounts]
    on either side of an integer, and [encodeU64]; [isValidAmount] does not
    look at that: it is true of every such number that is [>= 0]. *)
Theorem fractional_number_is_RangeError (parseFloat : string -> number) (x : number) :
  number_int x = None ->
  (forall fromDecimals toDecimals : Z,
      convertUnits (ANumber x) fromDecimals toDecimals = Throw RangeError) /\
  (forall b : amount, compareAmounts (ANumber x) b = Throw RangeError) /\
  (forall (a : amount) (n : Z),
      holds a n -> compareAmounts a (ANumber x) = Throw RangeError) /\
  encodeU64 (ANumber x) = Throw RangeError /\
  isValidAmount parseFloat (ANumber x) = negb (isNaN x) && number_ge0 x.
Proof.
  intros Hx.
  assert (Hbig : amount_to_bigint (ANumber x) = Throw RangeError).
  { cbn [amount_to_bigint BigInt]. unfold NumberToBigInt. now rewrite Hx. }
  repeat split.
  - intros fromDecimals toDecimals. unfold convertUnits. now rewrite Hbig.
  - intros b. unfold compareAmounts. now rewrite Hbig.
  - intros a n Ha. unfold compareAmounts.
    now rewrite (amount_to_bigint_holds a n Ha), Hbig.
  - unfold encodeU64. cbn [BigInt]. unfold NumberToBigInt. now rewrite Hx.
Qed.

Lemma fractional_number_is_RangeError_witness :
  number_int (S754_finite false 3 (-1)) = None /\
  (forall fromDecimals toDecimals : Z,
      convertUnits (ANumber (S754_finite false 3 (-1))) fromDecimals toDecimals
      = Throw RangeError) /\
  (forall b : amount, compareAmounts (ANumber (S754_finite false 3 (-1))) b = Throw RangeError) /\
  (forall (a : amount) (n : Z),
      holds a n -> compareAmounts a (ANumber (S754_finite false 3 (-1))) = Throw RangeError) /\
  encodeU64 (ANumber (S754_finite false 3 (-1))) = Throw RangeError /\
  isValidAmount (fun _ => NaN) (ANumber (S754_finite false 3 (-1))) = true.
Proof.
  split; [ reflexivity | ].
  exact (fractional_number_is_RangeError (fun _ => NaN) (S754_finite false 3 (-1)) eq_refl).
Defined.
